(** * Retrieval core of the Wattmonk RAG assistant

    A shallow embedding of [Backend/document_processor.py] (class
    [DocumentProcessor]) and [Backend/rag_chatbot.py] (class [RAGChatbot]):
    the chunker, the chunk identifier, semantic search, keyword search, the
    retrieval merge and the intent classifier, followed by the theorems that
    settle the specification's claims about them.

    Conventions.
    - A Python [str] is a [list ascii]; a character is a code point below 256.
    - A Python [int] is a [Z]; [len] returns a [Z].
    - A Python [float] (distances, embedding coordinates) is a rational [Q].
    - A call that may raise returns a [result]; every handler of the source is
      a bare [except Exception], so the exception's identity is not kept.
    - [print] calls and [time.sleep] are left out: they touch no variable. *)

From Stdlib Require Import List ZArith QArith Qabs Ascii String Bool Lia.
From Stdlib Require Import Permutation Sorted DecimalString.
Import ListNotations.
Local Open Scope Z_scope.

(** ** Python built-ins used by the source *)

Module Py.

Abbreviation str := (list ascii).

(** A string literal of the source. *)
Definition lit (s : string) : str := list_ascii_of_string s.

(** The line feed, the escape [\n] of the source. *)
Definition newline : ascii := ascii_of_nat 10.

(** [len(x)] *)
Definition len {A : Type} (l : list A) : Z := Z.of_nat (List.length l).

(** A slice bound as Python normalises it: a negative bound counts from the
    end, and both bounds are clamped to [0 .. n]. *)
Definition norm_index (n i : Z) : Z :=
  if i <? 0 then Z.max 0 (i + n) else Z.min i n.

(** [l[i:j]] *)
Definition slice {A : Type} (l : list A) (i j : Z) : list A :=
  let n := len l in
  let i' := norm_index n i in
  let j' := norm_index n j in
  firstn (Z.to_nat (j' - i')) (skipn (Z.to_nat i') l).

(** [s.rfind(c)] for a one-character [c]: the highest index of [c] in [s],
    or [-1]. *)
Fixpoint rfind (c : ascii) (s : str) : Z :=
  match s with
  | [] => -1
  | x :: s' =>
      let r := rfind c s' in
      if 0 <=? r then r + 1 else if Ascii.eqb x c then 0 else -1
  end.

(** [c.isspace()] on the code points below 256. *)
Definition isspace (c : ascii) : bool :=
  let n := Z.of_nat (nat_of_ascii c) in
  ((9 <=? n) && (n <=? 13)) || ((28 <=? n) && (n <=? 32))
  || (n =? 133) || (n =? 160).

Fixpoint lstrip (s : str) : str :=
  match s with
  | [] => []
  | c :: s' => if isspace c then lstrip s' else s
  end.

Definition rstrip (s : str) : str := rev (lstrip (rev s)).

(** [s.strip()] *)
Definition strip (s : str) : str := rstrip (lstrip s).

(** [s.split()]: the maximal runs of non-space characters. [cur] is the run
    being read. *)
Fixpoint split_from (cur s : str) : list str :=
  match s with
  | [] => match cur with [] => [] | _ => [cur] end
  | c :: s' =>
      if isspace c
      then match cur with [] => split_from [] s' | _ => cur :: split_from [] s' end
      else split_from (cur ++ [c]) s'
  end.

Definition split (s : str) : list str := split_from [] s.

(** [c.lower()] on the code points below 256: A-Z and the Latin-1 capitals
    (U+00C0 .. U+00DE but the multiplication sign) move up by 32. *)
Definition lower_char (c : ascii) : ascii :=
  let n := nat_of_ascii c in
  if ((65 <=? n) && (n <=? 90)
      || (192 <=? n) && (n <=? 222) && negb (n =? 215))%nat
  then ascii_of_nat (n + 32) else c.

(** [s.lower()] *)
Definition lower (s : str) : str := map lower_char s.

Fixpoint str_eqb (a b : str) : bool :=
  match a, b with
  | [], [] => true
  | x :: a', y :: b' => Ascii.eqb x y && str_eqb a' b'
  | _, _ => false
  end.

Fixpoint startswith (s p : str) : bool :=
  match p, s with
  | [], _ => true
  | x :: p', y :: s' => Ascii.eqb x y && startswith s' p'
  | _ :: _, [] => false
  end.

(** [s.endswith(p)] *)
Definition endswith (s p : str) : bool := startswith (rev s) (rev p).

(** [p in s] for strings: [p] occurs in [s] as a substring. *)
Fixpoint contains (p s : str) : bool :=
  startswith s p || match s with [] => false | _ :: s' => contains p s' end.

(** [str(n)] of an integer, as an f-string formats it. *)
Definition str_of_int (n : Z) : str :=
  list_ascii_of_string (NilEmpty.string_of_int (Z.to_int n)).

(** [os.path.basename(p)]: what follows the last slash. *)
Definition basename (p : str) : str :=
  slice p (rfind "/"%char p + 1) (len p).

(** [s.encode()]: the UTF-8 bytes of the code points below 256. *)
Definition utf8_char (c : ascii) : list Z :=
  let n := Z.of_nat (nat_of_ascii c) in
  if n <? 128 then [n] else [192 + n / 64; 128 + n mod 64].

Definition encode (s : str) : list Z := flat_map utf8_char s.

(** [list.sort(key=...)] is stable: [insert_by] puts [x] before the first
    element that [x] does not exceed strictly, and [sort_by] inserts from the
    right, so equal elements keep their order. [leb x y] reads "the key of
    [x] is at most the key of [y]". *)
Fixpoint insert_by {A : Type} (leb : A -> A -> bool) (x : A) (l : list A) : list A :=
  match l with
  | [] => [x]
  | y :: l' => if leb x y then x :: l else y :: insert_by leb x l'
  end.

Fixpoint sort_by {A : Type} (leb : A -> A -> bool) (l : list A) : list A :=
  match l with
  | [] => []
  | x :: l' => insert_by leb x (sort_by leb l')
  end.

(** [enumerate(l)], counting from [i]. *)
Fixpoint enumerate_from {A : Type} (i : Z) (l : list A) : list (Z * A) :=
  match l with
  | [] => []
  | x :: l' => (i, x) :: enumerate_from (i + 1) l'
  end.

(** [range(0, n, step)] for a positive [step]. *)
Definition range_step (n step : Z) : list Z :=
  map (fun j => Z.of_nat j * step) (seq 0 (Z.to_nat ((n + step - 1) / step))).

End Py.

Import Py.

(** ** [hashlib.md5]

    The MD5 digest (RFC 1321) over a list of bytes, on 32-bit words held in
    [Z] with the wrap-around written out. *)

Module MD5.

Definition mask32 : Z := 0xFFFFFFFF.

Definition add32 (a b : Z) : Z := Z.land (a + b) mask32.

Definition not32 (a : Z) : Z := Z.lxor a mask32.

Definition rotl32 (x c : Z) : Z :=
  Z.land (Z.lor (Z.shiftl x c) (Z.shiftr x (32 - c))) mask32.

(** The per-round shift amounts. *)
Definition shifts : list Z :=
  [7; 12; 17; 22; 7; 12; 17; 22; 7; 12; 17; 22; 7; 12; 17; 22;
   5; 9; 14; 20; 5; 9; 14; 20; 5; 9; 14; 20; 5; 9; 14; 20;
   4; 11; 16; 23; 4; 11; 16; 23; 4; 11; 16; 23; 4; 11; 16; 23;
   6; 10; 15; 21; 6; 10; 15; 21; 6; 10; 15; 21; 6; 10; 15; 21].

(** The sine table: [floor (2^32 * abs (sin (i + 1)))]. *)
Definition sines : list Z :=
  [0xd76aa478; 0xe8c7b756; 0x242070db; 0xc1bdceee;
   0xf57c0faf; 0x4787c62a; 0xa8304613; 0xfd469501;
   0x698098d8; 0x8b44f7af; 0xffff5bb1; 0x895cd7be;
   0x6b901122; 0xfd987193; 0xa679438e; 0x49b40821;
   0xf61e2562; 0xc040b340; 0x265e5a51; 0xe9b6c7aa;
   0xd62f105d; 0x02441453; 0xd8a1e681; 0xe7d3fbc8;
   0x21e1cde6; 0xc33707d6; 0xf4d50d87; 0x455a14ed;
   0xa9e3e905; 0xfcefa3f8; 0x676f02d9; 0x8d2a4c8a;
   0xfffa3942; 0x8771f681; 0x6d9d6122; 0xfde5380c;
   0xa4beea44; 0x4bdecfa9; 0xf6bb4b60; 0xbebfbc70;
   0x289b7ec6; 0xeaa127fa; 0xd4ef3085; 0x04881d05;
   0xd9d4d039; 0xe6db99e5; 0x1fa27cf8; 0xc4ac5665;
   0xf4292244; 0x432aff97; 0xab9423a7; 0xfc93a039;
   0x655b59c3; 0x8f0ccc92; 0xffeff47d; 0x85845dd1;
   0x6fa87e4f; 0xfe2ce6e0; 0xa3014314; 0x4e0811a1;
   0xf7537e82; 0xbd3af235; 0x2ad7d2bb; 0xeb86d391].

(** The message followed by the bit 1, zero bytes up to 56 modulo 64, and
    the bit length on 8 little-endian bytes. *)
Definition little_endian (width : nat) (n : Z) : list Z :=
  map (fun k => Z.land (Z.shiftr n (8 * Z.of_nat k)) 255) (seq 0 width).

Definition pad (msg : list Z) : list Z :=
  let n := len msg in
  let zeros := (55 - n) mod 64 in
  msg ++ [128] ++ repeat 0 (Z.to_nat zeros) ++ little_endian 8 (8 * n).

Definition word_of_bytes (bs : list Z) : Z :=
  fold_right (fun b acc => b + 256 * acc) 0 bs.

Fixpoint words_of (count : nat) (bs : list Z) : list Z :=
  match count with
  | O => []
  | S count' => word_of_bytes (firstn 4 bs) :: words_of count' (skipn 4 bs)
  end.

Record state : Type := mkState { sa : Z; sb : Z; sc : Z; sd : Z }.

Definition init : state :=
  mkState 0x67452301 0xefcdab89 0x98badcfe 0x10325476.

(** One of the 64 operations on the block [m]. *)
Definition round (m : list Z) (st : state) (i : Z) : state :=
  let '(mkState a b c d) := st in
  let '(f, g) :=
    if i <? 16 then (Z.lor (Z.land b c) (Z.land (not32 b) d), i)
    else if i <? 32 then (Z.lor (Z.land d b) (Z.land (not32 d) c), (5 * i + 1) mod 16)
    else if i <? 48 then (Z.lxor b (Z.lxor c d), (3 * i + 5) mod 16)
    else (Z.lxor c (Z.lor b (not32 d)), (7 * i) mod 16) in
  let f' := add32 (add32 (add32 f a) (nth (Z.to_nat i) sines 0))
                  (nth (Z.to_nat g) m 0) in
  mkState d (add32 b (rotl32 f' (nth (Z.to_nat i) shifts 0))) b c.

Definition block (st : state) (bs : list Z) : state :=
  let m := words_of 16 bs in
  let r := fold_left (round m) (map Z.of_nat (seq 0 64)) st in
  mkState (add32 (sa st) (sa r)) (add32 (sb st) (sb r))
          (add32 (sc st) (sc r)) (add32 (sd st) (sd r)).

Fixpoint blocks (count : nat) (st : state) (bs : list Z) : state :=
  match count with
  | O => st
  | S count' => blocks count' (block st (firstn 64 bs)) (skipn 64 bs)
  end.

Definition digest (msg : list Z) : list Z :=
  let p := pad msg in
  let st := blocks (List.length p / 64) init p in
  little_endian 4 (sa st) ++ little_endian 4 (sb st)
  ++ little_endian 4 (sc st) ++ little_endian 4 (sd st).

Definition hex_digit (n : Z) : ascii :=
  nth (Z.to_nat n) (lit "0123456789abcdef") "0"%char.

(** [hashlib.md5(bytes).hexdigest()] *)
Definition hexdigest (msg : list Z) : str :=
  flat_map (fun b => [hex_digit (b / 16); hex_digit (b mod 16)]) (digest msg).

End MD5.

(** ** Exceptions and mutable state

    A call of the source either returns a value or raises. A block of
    statements over mutable variables [S] is a function from their values
    before to the outcome and their values after: what was assigned or
    appended before a raise stays, as in Python. *)

Inductive result (A : Type) : Type :=
| Ok (a : A)
| Raised.

Arguments Ok {A} a.
Arguments Raised {A}.

Module Exc.

Definition M (S A : Type) : Type := S -> result A * S.

Definition ret {S A : Type} (a : A) : M S A := fun s => (Ok a, s).

Definition bind {S A B : Type} (m : M S A) (k : A -> M S B) : M S B :=
  fun s => match m s with
           | (Ok a, s') => k a s'
           | (Raised, s') => (Raised, s')
           end.

(** The value of a call that touches no variable of the block. *)
Definition lift {S A : Type} (r : result A) : M S A := fun s => (r, s).

Definition modify {S : Type} (f : S -> S) : M S unit := fun s => (Ok tt, f s).

(** [try: body  except Exception: pass] (or [continue] as the last statement
    of a loop body). *)
Definition try_pass {S : Type} (body : M S unit) : M S unit :=
  fun s => (Ok tt, snd (body s)).

(** [for x in l: body], left as soon as [body] raises. *)
Fixpoint for_each {S A : Type} (l : list A) (body : A -> M S unit) : M S unit :=
  match l with
  | [] => ret tt
  | x :: l' => bind (body x) (fun _ => for_each l' body)
  end.

(** The variables after the block has run. *)
Definition exec {S A : Type} (m : M S A) (s : S) : S := snd (m s).

End Exc.

Import Exc.

Declare Scope exc_scope.
Delimit Scope exc_scope with exc.
Notation "x <- m ;; k" := (bind m (fun x => k))
  (at level 61, m at next level, right associativity) : exc_scope.
Notation "m ;; k" := (bind m (fun _ => k))
  (at level 61, right associativity) : exc_scope.

(** ** External collaborators *)

(** An embedding vector. *)
Definition Embedding : Type := list Q.

(** The task-type hint of the embedding service. *)
Inductive TaskType : Type :=
| RETRIEVAL_QUERY
| RETRIEVAL_DOCUMENT
| SEMANTIC_SIMILARITY
| CLASSIFICATION
| CLUSTERING.

(** [genai.embed_content(model=..., content=..., task_type=...)['embedding']]:
    the embedding service, which raises on quota, network or content errors. *)
Definition EmbedService : Type := str -> str -> TaskType -> result Embedding.

(** What the file readers of the source see: [open(path).read()],
    [PyPDF2.PdfReader(file).pages] with a page's [extract_text()], and
    [Document(path).paragraphs] with a paragraph's [text]. *)
Record FileSystem : Type := mkFileSystem {
  read_text : str -> result str;
  pdf_pages : str -> result (list (result str));
  docx_paragraphs : str -> result (list str)
}.

(** The metadata dictionary stored with a chunk. *)
Record Metadata : Type := mkMetadata {
  md_source : str;
  md_chunk_index : Z;
  md_document_type : str;
  md_file_path : str
}.

Record StoredRecord : Type := mkStoredRecord {
  rec_id : str;
  rec_embedding : Embedding;
  rec_document : str;
  rec_metadata : Metadata
}.

(** Modelled from the spec: the vector store (ChromaDB) is an external
    collaborator, not code of the repository. Section 4.4 gives its contract:
    [add] upserts one record by id, [query] returns up to k nearest records
    by the store's distance metric, [count], and [get] returns every record.
    A collection that is not [available] raises on every call. *)
Record Collection : Type := mkCollection {
  available : bool;
  records : list StoredRecord
}.

Fixpoint upsert (r : StoredRecord) (l : list StoredRecord) : list StoredRecord :=
  match l with
  | [] => [r]
  | x :: l' => if str_eqb (rec_id x) (rec_id r) then r :: l' else x :: upsert r l'
  end.

(** [collection.count()] *)
Definition coll_count (c : Collection) : result Z :=
  if available c then Ok (len (records c)) else Raised.

(** [collection.get()] *)
Definition coll_get (c : Collection) : result (list StoredRecord) :=
  if available c then Ok (records c) else Raised.

(** [collection.add(...)] of one record. *)
Definition coll_add (r : StoredRecord) (c : Collection) : result Collection :=
  if available c then Ok (mkCollection true (upsert r (records c))) else Raised.

Definition hit_leb (a b : StoredRecord * Q) : bool := Qle_bool (snd a) (snd b).

(** [collection.query(query_embeddings=[e], n_results=n)]: the [n] records
    nearest to [e], nearest first, each with its distance. *)
Definition coll_query (metric : Embedding -> Embedding -> Q) (c : Collection)
    (e : Embedding) (n : Z) : result (list (StoredRecord * Q)) :=
  if available c
  then Ok (firstn (Z.to_nat n)
             (sort_by hit_leb (map (fun r => (r, metric e (rec_embedding r))) (records c))))
  else Raised.

(** The two collections a [DocumentProcessor] holds. *)
Record Store : Type := mkStore {
  nec_collection : Collection;
  wattmonk_collection : Collection
}.

(** A search result dictionary; [keyword_matches] is present in the results of
    [keyword_search] only. *)
Record SearchResult : Type := mkSearchResult {
  content : str;
  metadata : Metadata;
  distance : Q;
  collection : str;
  keyword_matches : option Z
}.

(** ** [class DocumentProcessor] *)

Module DocumentProcessor.

Local Open Scope exc_scope.

(** *** [chunk_text] *)

(** The variables of the [while] loop. *)
Record chunk_state : Type := mkChunkState {
  start : Z;
  chunks : list str
}.

(** Lines 86-99: the window from [start], snapped back to the last period or
    line feed when the window stops before the end of the text. Returns the
    candidate [chunk] and [end]. *)
Definition chunk_window (text : str) (chunk_size start : Z) : str * Z :=
  let text_length := len text in
  let end_ := start + chunk_size in
  let end_ := if end_ >? text_length then text_length else end_ in
  let chunk := slice text start end_ in
  if end_ <? text_length then
    let last_period := rfind "."%char chunk in
    let last_newline := rfind newline chunk in
    let break_point := Z.max last_period last_newline in
    if break_point >? start + chunk_size / 2
    then (slice text start (break_point + 1), break_point + 1)
    else (chunk, end_)
  else (chunk, end_).

(** Lines 86-105: one iteration of the loop. *)
Definition chunk_body (text : str) (chunk_size overlap : Z) (st : chunk_state)
    : chunk_state :=
  let '(chunk, end_) := chunk_window text chunk_size (start st) in
  let chunk := strip chunk in
  let chunks := if len chunk >? 100 then chunks st ++ [chunk] else chunks st in
  mkChunkState (end_ - overlap) chunks.

(** Line 85: the loop condition. *)
Definition chunk_cond (text : str) (max_chunks : Z) (st : chunk_state) : bool :=
  (start st <? len text) && (len (chunks st) <? max_chunks).

(** The [while] loop, run for at most [fuel] iterations: [None] when it has
    not left the loop by then. *)
Fixpoint chunk_loop (fuel : nat) (text : str) (chunk_size overlap max_chunks : Z)
    (st : chunk_state) : option (list str) :=
  if chunk_cond text max_chunks st then
    match fuel with
    | O => None
    | S fuel' =>
        chunk_loop fuel' text chunk_size overlap max_chunks
          (chunk_body text chunk_size overlap st)
    end
  else Some (chunks st).

Definition chunk_text (fuel : nat) (text : str) (chunk_size overlap max_chunks : Z)
    : option (list str) :=
  let text := if len text >? 500000 then slice text 0 500000 else text in
  chunk_loop fuel text chunk_size overlap max_chunks (mkChunkState 0 []).

(** *** Text extraction *)

Definition extract_text_from_pdf (fs : FileSystem) (pdf_path : str) (max_pages : Z)
    : str :=
  match pdf_pages fs pdf_path with
  | Raised => []
  | Ok pages =>
      let total_pages := len pages in
      let pages_to_process := Z.min max_pages total_pages in
      fold_left
        (fun text page =>
           match page with
           | Ok page_text => text ++ page_text ++ [newline]
           | Raised => text
           end)
        (firstn (Z.to_nat pages_to_process) pages) []
  end.

Definition extract_text_from_docx (fs : FileSystem) (docx_path : str) : str :=
  match docx_paragraphs fs docx_path with
  | Raised => []
  | Ok paragraphs => fold_left (fun text paragraph => text ++ paragraph ++ [newline]) paragraphs []
  end.

(** *** [generate_embeddings] *)

Definition generate_embeddings (embed_content : EmbedService) (text : str) : Embedding :=
  match embed_content (lit "models/text-embedding-004") text RETRIEVAL_DOCUMENT with
  | Ok embedding => embedding
  | Raised =>
      match embed_content (lit "models/embedding-001") text RETRIEVAL_DOCUMENT with
      | Ok embedding => embedding
      | Raised => []
      end
  end.

(** Truth value of a list: it is not empty. *)
Definition truthy {A : Type} (l : list A) : bool :=
  match l with [] => false | _ => true end.

(** *** [process_document] *)

(** Line 185: the string that is hashed, and the identifier. *)
Definition chunk_key (file_path : str) (actual_index : Z) (chunk : str) : str :=
  file_path ++ lit "_" ++ str_of_int actual_index ++ lit "_" ++ slice chunk 0 100.

Definition chunk_id (file_path : str) (actual_index : Z) (chunk : str) : str :=
  MD5.hexdigest (encode (chunk_key file_path actual_index chunk)).

Definition batch_size : Z := 10.

(** Lines 172-179: the [(actual_index, chunk)] pairs in the order the two
    nested loops reach them. *)
Definition chunk_visits (chunks : list str) : list (Z * str) :=
  flat_map
    (fun batch_start =>
       let batch_end := Z.min (batch_start + batch_size) (len chunks) in
       let batch_chunks := slice chunks batch_start batch_end in
       map (fun ic => (batch_start + fst ic, snd ic)) (enumerate_from 0 batch_chunks))
    (range_step (len chunks) batch_size).

(** The variables the storing loop assigns: [collection] is mutated by [add]. *)
Record ingest_state : Type := mkIngest {
  ing_collection : Collection;
  successful_chunks : Z
}.

(** [collection.add(embeddings=..., documents=..., metadatas=..., ids=...)] *)
Definition add_record (r : StoredRecord) : M ingest_state unit :=
  fun s => match coll_add r (ing_collection s) with
           | Ok c => (Ok tt, mkIngest c (successful_chunks s))
           | Raised => (Raised, s)
           end.

(** Lines 181-200: the statements inside the [try] of the inner loop. *)
Definition store_chunk_block (embed_content : EmbedService) (file_path document_type : str)
    (ic : Z * str) : M ingest_state unit :=
  let actual_index := fst ic in
  let chunk := snd ic in
  let embedding := generate_embeddings embed_content chunk in
  if truthy embedding then
    add_record
      (mkStoredRecord (chunk_id file_path actual_index chunk) embedding chunk
         (mkMetadata (basename file_path) actual_index document_type file_path)) ;;
    modify (fun s => mkIngest (ing_collection s) (successful_chunks s + 1))
  else ret tt.

(** Lines 180-204: the body of the inner loop. *)
Definition store_chunk (embed_content : EmbedService) (file_path document_type : str)
    (ic : Z * str) : M ingest_state unit :=
  try_pass (store_chunk_block embed_content file_path document_type ic).

(** Lines 147-156: the text of the file, or the exception [open] raises. *)
Definition extract_text (fs : FileSystem) (file_path : str) : result str :=
  if endswith (lower file_path) (lit ".pdf")
  then Ok (extract_text_from_pdf fs file_path 100)
  else if endswith (lower file_path) (lit ".docx")
  then Ok (extract_text_from_docx fs file_path)
  else read_text fs file_path.

(** [process_document], with [fuel] iterations for the loop of [chunk_text]:
    [None] when that loop has not ended by then, else the returned boolean
    and the store as the call leaves it. *)
Definition process_document (fuel : nat) (fs : FileSystem) (embed_content : EmbedService)
    (file_path document_type : str) (st : Store) : option (bool * Store) :=
  match extract_text fs file_path with
  | Raised => Some (false, st)
  | Ok text =>
      if negb (truthy (strip text)) then Some (false, st)
      else
        match chunk_text fuel text 2000 200 200 with
        | None => None
        | Some chunks =>
            let is_nec := str_eqb (lower document_type) (lit "nec") in
            let collection := if is_nec then nec_collection st else wattmonk_collection st in
            let final :=
              exec (for_each (chunk_visits chunks)
                      (store_chunk embed_content file_path document_type))
                   (mkIngest collection 0) in
            Some (successful_chunks final >? 0,
                  if is_nec
                  then mkStore (ing_collection final) (wattmonk_collection st)
                  else mkStore (nec_collection st) (ing_collection final))
        end
  end.

(** *** [search_documents] *)

(** Lines 229-233 and 284-288. *)
Definition collections_to_search (st : Store) (document_type : option str)
    : list (str * Collection) :=
  let is_type name :=
    match document_type with
    | None => true
    | Some t => str_eqb (lower t) name
    end in
  (if is_type (lit "nec") then [(lit "nec", nec_collection st)] else [])
  ++ (if is_type (lit "wattmonk") then [(lit "wattmonk", wattmonk_collection st)] else []).

Definition append_result (r : SearchResult) : M (list SearchResult) unit :=
  modify (fun results => results ++ [r]).

(** Lines 239-259: the statements inside the [try] of the loop over the
    collections. *)
Definition search_collection_block (metric : Embedding -> Embedding -> Q)
    (query_embedding : Embedding) (n_results : Z) (named : str * Collection)
    : M (list SearchResult) unit :=
  let collection_name := fst named in
  let collection := snd named in
  count <- lift (coll_count collection) ;;
  if count =? 0 then ret tt
  else
    search_results <- lift (coll_query metric collection query_embedding
                              (Z.min n_results count)) ;;
    for_each search_results
      (fun hit =>
         append_result
           (mkSearchResult (rec_document (fst hit)) (rec_metadata (fst hit))
              (snd hit) collection_name None)).

(** Lines 238-261: the body of the loop over the collections. *)
Definition search_collection (metric : Embedding -> Embedding -> Q)
    (query_embedding : Embedding) (n_results : Z) (named : str * Collection)
    : M (list SearchResult) unit :=
  try_pass (search_collection_block metric query_embedding n_results named).

Definition distance_leb (a b : SearchResult) : bool :=
  Qle_bool (distance a) (distance b).

Definition search_documents (embed_content : EmbedService)
    (metric : Embedding -> Embedding -> Q) (st : Store)
    (query : str) (document_type : option str) (n_results : Z) : list SearchResult :=
  let query_embedding := generate_embeddings embed_content query in
  if negb (truthy query_embedding) then []
  else
    let results :=
      exec (for_each (collections_to_search st document_type)
              (search_collection metric query_embedding n_results)) [] in
    slice (sort_by distance_leb results) 0 n_results.

(** *** [keyword_search] *)

(** Lines 277-280. *)
Definition keywords_of (query_lower : str) : list str :=
  fold_left
    (fun keywords word => if len word >? 2 then keywords ++ [word] else keywords)
    (split query_lower) [].

(** [a / b] on integers: raises [ZeroDivisionError] when [b] is 0. *)
Definition truediv (a b : Z) : result Q :=
  if b =? 0 then Raised else Ok (inject_Z a / inject_Z b)%Q.

(** Line 298: [sum(1 for keyword in keywords if keyword in doc_lower)]. *)
Definition match_count (keywords : list str) (doc_lower : str) : Z :=
  fold_left (fun total keyword => if contains keyword doc_lower then total + 1 else total)
    keywords 0.

(** Lines 296-311: the body of the loop over the documents of a collection. *)
Definition scan_document (keywords : list str) (collection_name : str)
    (r : StoredRecord) : M (list SearchResult) unit :=
  let doc := rec_document r in
  let doc_lower := lower doc in
  let matches := match_count keywords doc_lower in
  if matches >? 0 then
    ratio <- lift (truediv matches (len keywords)) ;;
    append_result
      (mkSearchResult doc (rec_metadata r) (1 - ratio)%Q collection_name (Some matches))
  else ret tt.

(** Lines 292-311: the statements inside the [try] of the loop over the
    collections. *)
Definition scan_collection_block (keywords : list str) (named : str * Collection)
    : M (list SearchResult) unit :=
  let collection_name := fst named in
  let collection := snd named in
  all_docs <- lift (coll_get collection) ;;
  if truthy all_docs
  then for_each all_docs (scan_document keywords collection_name)
  else ret tt.

(** Lines 291-315: the body of the loop over the collections. *)
Definition scan_collection (keywords : list str) (named : str * Collection)
    : M (list SearchResult) unit :=
  try_pass (scan_collection_block keywords named).

(** [x.get('keyword_matches', 0)] *)
Definition matches_of (r : SearchResult) : Z :=
  match keyword_matches r with Some m => m | None => 0 end.

(** Line 317: the order of the keys [(-keyword_matches, distance)]. *)
Definition keyword_leb (a b : SearchResult) : bool :=
  (- matches_of a <? - matches_of b)
  || ((- matches_of a =? - matches_of b) && Qle_bool (distance a) (distance b)).

(** The [results] list when line 317 is reached. *)
Definition keyword_results (st : Store) (query : str) (document_type : option str)
    : list SearchResult :=
  let query_lower := lower query in
  let keywords := keywords_of query_lower in
  exec (for_each (collections_to_search st document_type) (scan_collection keywords)) [].

Definition keyword_search (st : Store) (query : str) (document_type : option str)
    (n_results : Z) : list SearchResult :=
  slice (sort_by keyword_leb (keyword_results st query document_type)) 0 n_results.

(** *** [get_collection_stats] *)

Record Stats : Type := mkStats {
  nec_documents : Z;
  wattmonk_documents : Z;
  total_documents : Z
}.

Definition get_collection_stats (st : Store) : Stats :=
  match coll_count (nec_collection st), coll_count (wattmonk_collection st) with
  | Ok nec_count, Ok wattmonk_count =>
      mkStats nec_count wattmonk_count (nec_count + wattmonk_count)
  | _, _ => mkStats 0 0 0
  end.

End DocumentProcessor.

(** ** [class RAGChatbot] *)

Module RAGChatbot.

Import DocumentProcessor.

(** *** [classify_intent] *)

Definition nec_keywords : list str :=
  map lit ["nec"; "electrical code"; "electrical standard"; "wiring"; "circuit";
           "voltage"; "amperage"; "grounding"; "electrical safety"]%string.

Definition wattmonk_keywords : list str :=
  map lit ["wattmonk"; "company"; "service"; "solar design"; "permitting"; "zippy";
           "site survey"; "solar"; "engineering"; "platform"; "tool"; "automation"]%string.

(** The returned dictionary; [intent_type] is its key ["document_type"]. *)
Record Intent : Type := mkIntent {
  intent : str;
  confidence : Z;
  intent_type : option str
}.

(** [sum(1 for keyword in keywords if keyword in query_lower)] *)
Definition score (keywords : list str) (query_lower : str) : Z :=
  fold_left (fun total keyword => if contains keyword query_lower then total + 1 else total)
    keywords 0.

Definition classify_intent (query : str) : Intent :=
  let query_lower := lower query in
  let nec_score := score nec_keywords query_lower in
  let wattmonk_score := score wattmonk_keywords query_lower in
  if (nec_score >? wattmonk_score) && (nec_score >? 0)
  then mkIntent (lit "nec") nec_score (Some (lit "nec"))
  else if (wattmonk_score >? nec_score) && (wattmonk_score >? 0)
  then mkIntent (lit "wattmonk") wattmonk_score (Some (lit "wattmonk"))
  else if contains (lit "nec") query_lower || contains (lit "electrical") query_lower
  then mkIntent (lit "nec") 1 (Some (lit "nec"))
  else if contains (lit "wattmonk") query_lower || contains (lit "company") query_lower
  then mkIntent (lit "wattmonk") 1 (Some (lit "wattmonk"))
  else mkIntent (lit "general") 0 None.

(** *** [retrieve_context] *)

Definition specific_terms : list str :=
  map lit ["zippy"; "tool"; "automation"; "machine learning"; "diagrams"]%string.

Definition high_priority_terms : list str := map lit ["zippy"]%string.

(** [any(term in query_lower for term in terms)] *)
Definition any_term (terms : list str) (query_lower : str) : bool :=
  existsb (fun term => contains term query_lower) terms.

(** Lines 42-49. *)
Definition should_try_keyword (query_lower : str) (results : list SearchResult) : bool :=
  if any_term high_priority_terms query_lower then true
  else if any_term specific_terms query_lower && (len results <? 2) then true
  else false.

(** [key in seen_content], the set held as the list of its elements. *)
Definition seen (key : str) (seen_content : list str) : bool :=
  existsb (str_eqb key) seen_content.

(** Lines 55-61: the loop over [combined_results], on the variables
    [(seen_content, unique_results)]. *)
Definition unique_step (acc : list str * list SearchResult) (result : SearchResult)
    : list str * list SearchResult :=
  let content_key := slice (content result) 0 100 in
  if negb (seen content_key (fst acc))
  then (content_key :: fst acc, snd acc ++ [result])
  else acc.

Definition unique_results (combined_results : list SearchResult) : list SearchResult :=
  snd (fold_left unique_step combined_results ([], [])).

Definition retrieve_context (embed_content : EmbedService)
    (metric : Embedding -> Embedding -> Q) (st : Store)
    (query : str) (document_type : option str) (n_results : Z) : list SearchResult :=
  let results := search_documents embed_content metric st query document_type n_results in
  let query_lower := lower query in
  if should_try_keyword query_lower results then
    let keyword_results := keyword_search st query document_type n_results in
    let combined_results := keyword_results ++ results in
    slice (unique_results combined_results) 0 n_results
  else results.

(** *** [search_knowledge_base] *)

Record FormattedResult : Type := mkFormatted {
  fr_content : str;
  fr_source : str;
  fr_document_type : str;
  fr_relevance_score : Q;
  fr_chunk_index : Z
}.

Definition search_knowledge_base (embed_content : EmbedService)
    (metric : Embedding -> Embedding -> Q) (st : Store)
    (query : str) (document_type : option str) (n_results : Z) : list FormattedResult :=
  map (fun result =>
         mkFormatted (content result) (md_source (metadata result))
           (md_document_type (metadata result)) (1 - distance result)%Q
           (md_chunk_index (metadata result)))
      (retrieve_context embed_content metric st query document_type n_results).

End RAGChatbot.

Import DocumentProcessor RAGChatbot.

(** ** Inputs the theorems are run on *)

(** A five-character text, and a file system whose every text file holds it. *)
Definition hello_text : str := lit "hello".

Definition hello_fs : FileSystem :=
  mkFileSystem (fun _ => Ok hello_text) (fun _ => Raised) (fun _ => Raised).

(** Two chunks of 101 characters that differ in their last character only. *)
Definition chunk_x : str := repeat "a"%char 100 ++ lit "x".


(** A text of 300 characters, a file system whose every text file holds it, an
    embedding service that answers every request, and an empty store. *)
Definition long_text : str := repeat "a"%char 300.

Definition long_fs : FileSystem :=
  mkFileSystem (fun _ => Ok long_text) (fun _ => Raised) (fun _ => Raised).

Definition unit_embed : EmbedService := fun _ _ _ => Ok [1%Q].

Definition empty_store : Store :=
  mkStore (mkCollection true []) (mkCollection true []).

(** The store a call of [process_document] leaves, or [st] when the call
    has not returned. *)
Definition store_after (run : option (bool * Store)) (st : Store) : Store :=
  match run with
  | Some (_, st') => st'
  | None => st
  end.

(** The store after [long_text] has been ingested once into the NEC corpus. *)
Definition ingested_store : Store :=
  store_after
    (process_document 300 long_fs unit_embed (lit "docs/a.txt") (lit "nec") empty_store)
    empty_store.

(** ** Vocabulary of the ingestion claims *)

(** The collection holds a record under the identifier [i]. *)
Definition has_id (i : str) (c : Collection) : Prop := In i (map rec_id (records c)).

(** The chunk of a visit has an embedding. *)
Definition embeds (embed_content : EmbedService) (ic : Z * str) : bool :=
  truthy (generate_embeddings embed_content (snd ic)).

(** The identifier under which the chunk of a visit is stored. *)
Definition visit_id (file_path : str) (ic : Z * str) : str :=
  chunk_id file_path (fst ic) (snd ic).

(** One iteration of the storing loop, as a function on its variables. *)
Definition ingest_step (embed_content : EmbedService) (file_path document_type : str)
    (s : ingest_state) (ic : Z * str) : ingest_state :=
  exec (store_chunk_block embed_content file_path document_type ic) s.

(** ** Vocabulary of the search claims *)

(** The search result made of one hit of [collection_name]. *)
Definition tag_hit (collection_name : str) (hit : StoredRecord * Q) : SearchResult :=
  mkSearchResult (rec_document (fst hit)) (rec_metadata (fst hit)) (snd hit)
    collection_name None.

(** The hits of one selected collection as section 4.5 words them: a
    collection with zero records is skipped, otherwise min(k, collection
    size) nearest neighbours are requested and each hit is tagged with its
    source collection; a collection whose store call fails gives no hit. *)
Definition spec_hits (metric : Embedding -> Embedding -> Q) (e : Embedding) (k : Z)
    (named : str * Collection) : list SearchResult :=
  match coll_count (snd named) with
  | Ok count =>
      if count =? 0 then []
      else match coll_query metric (snd named) e (Z.min k count) with
           | Ok hits => map (tag_hit (fst named)) hits
           | Raised => []
           end
  | Raised => []
  end.

(** Ascending by distance. *)
Definition by_distance (a b : SearchResult) : Prop := (distance a <= distance b)%Q.

(** A metric on the first coordinate, and a store whose NEC collection holds
    three records and whose company collection is empty. *)
Definition first_coordinate_metric (a b : Embedding) : Q :=
  Qabs (hd 0%Q a - hd 0%Q b).

Definition plain_record (id doc : string) (x : Q) : StoredRecord :=
  mkStoredRecord (lit id) [x] (lit doc)
    (mkMetadata (lit "code.txt") 0 (lit "nec") (lit "docs/code.txt")).

Definition small_store : Store :=
  mkStore
    (mkCollection true
       [plain_record "r1" "Grounding of circuits" 5%Q;
        plain_record "r2" "Wiring and voltage" 1%Q;
        plain_record "r3" "Zippy the design tool" 3%Q])
    (mkCollection true []).

(** ** Vocabulary of the keyword search claims *)

(** The keywords as section 4.6 words them: the whitespace-separated tokens
    of the lower-cased query that are longer than 2 characters. *)
Definition spec_keywords (query : str) : list str :=
  filter (fun word => len word >? 2) (split (lower query)).

(** How many of the keywords occur in the lower-cased text of a record. *)
Definition spec_matches (keywords : list str) (doc : str) : Z :=
  len (filter (fun keyword => contains keyword (lower doc)) keywords).

(** The result of one record as section 4.6 words it: none for a record
    with zero matches, else the record with the pseudo-distance
    1 - (match count / keyword count). *)
Definition spec_keyword_hit (keywords : list str) (collection_name : str)
    (r : StoredRecord) : list SearchResult :=
  let m := spec_matches keywords (rec_document r) in
  if m >? 0
  then [mkSearchResult (rec_document r) (rec_metadata r)
          (1 - inject_Z m / inject_Z (len keywords))%Q collection_name (Some m)]
  else [].

Definition spec_keyword_hits (keywords : list str) (named : str * Collection)
    : list SearchResult :=
  match coll_get (snd named) with
  | Ok all_docs => flat_map (spec_keyword_hit keywords (fst named)) all_docs
  | Raised => []
  end.

(** Descending by match count, then ascending by pseudo-distance. *)
Definition by_matches_then_distance (a b : SearchResult) : Prop :=
  matches_of b < matches_of a
  \/ (matches_of a = matches_of b /\ (distance a <= distance b)%Q).

(** ** Vocabulary of the retrieval merge claims *)

(** The near-duplicate signature of a result: the first 100 characters of its
    content. *)
Definition signature (r : SearchResult) : str := slice (content r) 0 100.

(** The results kept by the deduplication loop when [seen_content] already
    holds some signatures. *)
Fixpoint unique_from (seen_content : list str) (l : list SearchResult)
    : list SearchResult :=
  match l with
  | [] => []
  | r :: l' =>
      if seen (signature r) seen_content
      then unique_from seen_content l'
      else r :: unique_from (signature r :: seen_content) l'
  end.

(** The results whose signature is not [sig]. *)
Definition without_signature (sig : str) (l : list SearchResult) : list SearchResult :=
  filter (fun r => negb (str_eqb (signature r) sig)) l.

(** ** Vocabulary of the intent classifier claims *)

(** The classifier as section 4.8 words it, with one anchor term per corpus:
    the vocabulary with the strictly higher nonzero count wins with its
    count as confidence; otherwise the anchor of the electrical-code corpus,
    then the anchor of the company corpus, forces its intent with
    confidence 1; otherwise the intent is general. *)
Definition classify_as_stated (nec_anchor wattmonk_anchor : str) (query : str) : Intent :=
  let query_lower := lower query in
  let nec_score := score nec_keywords query_lower in
  let wattmonk_score := score wattmonk_keywords query_lower in
  if (nec_score >? wattmonk_score) && (nec_score >? 0)
  then mkIntent (lit "nec") nec_score (Some (lit "nec"))
  else if (wattmonk_score >? nec_score) && (wattmonk_score >? 0)
  then mkIntent (lit "wattmonk") wattmonk_score (Some (lit "wattmonk"))
  else if contains nec_anchor query_lower
  then mkIntent (lit "nec") 1 (Some (lit "nec"))
  else if contains wattmonk_anchor query_lower
  then mkIntent (lit "wattmonk") 1 (Some (lit "wattmonk"))
  else mkIntent (lit "general") 0 None.

(** The prefixes and the substrings of a string. *)
Fixpoint prefixes (s : str) : list str :=
  [] :: match s with
        | [] => []
        | c :: s' => map (cons c) (prefixes s')
        end.

Fixpoint substrings (s : str) : list str :=
  prefixes s ++ match s with
                | [] => []
                | _ :: s' => substrings s'
                end.

(** ** Vocabulary of the embedding claims *)




(** ** Vocabulary of the chunker claims *)

(** A sentence terminator or a line feed. *)
Definition is_break (c : ascii) : Prop := c = "."%char \/ c = newline.

(** The text has a break point at index [i]. *)
Definition is_break_at (text : str) (i : Z) : Prop :=
  exists c, nth_error text (Z.to_nat i) = Some c /\ is_break c.

(** The snapping rule as the specification words it, for the window at any
    cursor [start]: when the window stops before the end of the text and
    its last break point [bp] lies at least half the chunk size into the
    window, the chunk ends just after [bp] and the next cursor is that end
    minus the overlap. *)
Definition snap_rule_as_stated : Prop :=
  forall (text : str) (chunk_size overlap start bp : Z) (chunks : list str),
    0 <= start -> 0 < chunk_size ->
    start + chunk_size < len text ->
    start <= bp < start + chunk_size ->
    is_break_at text bp ->
    (forall j, bp < j < start + chunk_size -> ~ is_break_at text j) ->
    chunk_size <= 2 * (bp - start) ->
    snd (chunk_window text chunk_size start) = bp + 1
    /\ DocumentProcessor.start
         (chunk_body text chunk_size overlap (mkChunkState start chunks))
       = bp + 1 - overlap.

(** Twenty characters with a period at index 5, half of a chunk size of 10. *)
Definition half_text : str := lit "aaaaa.bbbbbbbbbbbbbb".

(** Thirty characters with a period at index 15: seven characters into the
    window that starts at cursor 8. *)
Definition later_text : str := lit "aaaaaaaaaaaaaaa.bbbbbbbbbbbbbb".

(** Fifty characters with a period at index 30, ten before the end of a window
    of chunk size 40. *)
Definition period_text : str := lit "aaaaaaaaaaaaaaaaaaaaaaaaaaaaaa.bbbbbbbbbbbbbbbbbbb".

(** ** Vocabulary of the further properties *)

(** A chunk as [chunk_text] keeps it: longer than 100 characters, with no
    white space at either end. *)
Definition kept_chunk (chunk : str) : Prop := 100 < len chunk /\ strip chunk = chunk.

(** The collection [process_document] writes to: the NEC collection for the
    label [nec] in any letter case, the company collection for every other
    label. *)
Definition target_collection (document_type : str) (st : Store) : Collection :=
  if str_eqb (lower document_type) (lit "nec")
  then nec_collection st else wattmonk_collection st.

(** The record the storing loop adds for a visit. *)
Definition visit_record (embed_content : EmbedService) (file_path document_type : str)
    (ic : Z * str) : StoredRecord :=
  mkStoredRecord (chunk_id file_path (fst ic) (snd ic))
    (generate_embeddings embed_content (snd ic)) (snd ic)
    (mkMetadata (basename file_path) (fst ic) document_type file_path).

(** A record as [process_document] writes it: it has an embedding, its text is
    a kept chunk, its identifier is derived from its path, index and text,
    and its source is the base name of its path. *)
Definition well_formed_record (r : StoredRecord) : Prop :=
  rec_embedding r <> []
  /\ kept_chunk (rec_document r)
  /\ rec_id r
     = chunk_id (md_file_path (rec_metadata r)) (md_chunk_index (rec_metadata r))
         (rec_document r)
  /\ md_source (rec_metadata r) = basename (md_file_path (rec_metadata r))
  /\ 0 <= md_chunk_index (rec_metadata r).

(** The record carries the label [nec], in any letter case. *)
Definition nec_labelled (r : StoredRecord) : Prop :=
  lower (md_document_type (rec_metadata r)) = lit "nec".

(** A file system with no readable file. *)
Definition no_fs : FileSystem :=
  mkFileSystem (fun _ => Raised) (fun _ => Raised) (fun _ => Raised).

(** An embedding service that is down. *)
Definition no_embed : EmbedService := fun _ _ _ => Raised.

(** What one page of a PDF adds to the extracted text: its text and a line
    feed, or nothing when its extraction fails. *)
Definition page_text (page : result str) : str :=
  match page with
  | Ok text => text ++ [newline]
  | Raised => []
  end.

(** A file system whose every PDF has three pages, the second of which
    cannot be extracted. *)
Definition three_page_fs : FileSystem :=
  mkFileSystem (fun _ => Raised)
    (fun _ => Ok [Ok (lit "Page one"); Raised; Ok (lit "Page three")])
    (fun _ => Raised).

(** A store whose NEC collection cannot be reached and whose company
    collection holds one record. *)
Definition nec_down_store : Store :=
  mkStore (mkCollection false (records (nec_collection small_store)))
    (mkCollection true [plain_record "w1" "Zippy automates solar design" 2%Q]).

(** ** Conversation history *)

(** [get_conversation_history] (rag_chatbot.py, lines 215-217) on the
    history list of the chatbot. *)
Definition get_conversation_history {A : Type} (conversation_history : list A)
    (limit : Z) : list A :=
  if limit >? 0
  then slice conversation_history (- limit) (len conversation_history)
  else conversation_history.

(** A result that is at most [t] away. *)
Definition within (t : Q) (r : SearchResult) : bool := Qle_bool (distance r) t.

(** [c] is a run of consecutive characters of [text]. *)
Definition piece_of (text c : str) : Prop := exists pre post, text = pre ++ c ++ post.

(** ** Formatting the context and answering *)

(** [s.split(sep)] for a separator that is not empty: the pieces between the
    occurrences of [sep], found from left to right without overlap. [cur] is
    the piece being read and [skip] the number of characters of a found
    separator still to pass. *)
Fixpoint split_on_from (skip : nat) (sep cur s : str) : list str :=
  match s with
  | [] => [cur]
  | c :: s' =>
      match skip with
      | S skip' => split_on_from skip' sep cur s'
      | O =>
          if startswith s sep
          then cur :: split_on_from (List.length sep - 1) sep [] s'
          else split_on_from 0 sep (cur ++ [c]) s'
      end
  end.

Definition split_on (sep s : str) : list str := split_on_from 0 sep [] s.

(** What [model.generate_content(prompt)] and [response.text] give: the text
    of the answer, or an exception with its message. *)
Inductive Generation : Type :=
| Generated (text : str)
| GenerationFailed (message : str).

(** The dictionary [generate_response] returns. *)
Record Answer : Type := mkAnswer {
  response : str;
  answer_intent : str;
  sources_used : Z;
  has_context : bool
}.

Section Answering.

(** [str.upper]. The capitals of two code points below 256 lie above 255, so
    the function is left open; [generate_content] is the language model. *)
Variable upper : str -> str.
Variable generate_content : str -> Generation.

(** Lines 75-80 of rag_chatbot.py: what one result adds to the context. *)
Definition format_source (ir : Z * SearchResult) : str :=
  let i := fst ir in
  let result := snd ir in
  let source := md_source (metadata result) in
  let doc_type := md_document_type (metadata result) in
  lit "[Source " ++ str_of_int i ++ lit ": " ++ source ++ lit " (" ++ upper doc_type
    ++ lit ")]" ++ [newline]
    ++ content result ++ [newline; newline].

(** [format_context] (lines 67-82). *)
Definition format_context (context_results : list SearchResult) : str :=
  if negb (truthy context_results) then []
  else
    fold_left (fun formatted_context ir => formatted_context ++ format_source ir)
      (enumerate_from 1 context_results)
      (lit "Relevant information from knowledge base:" ++ [newline; newline]).

(** Lines 88-119: the prompt. *)
Definition build_prompt (query context : str) (intent_info : option Intent) : str :=
  let general :=
      lit "You are a helpful AI assistant. Answer the user's question in a friendly and informative manner."
      ++ [newline; newline]
      ++ lit "User Question: "
      ++ query
      ++ [newline; newline]
      ++ lit "Answer:" in
  match intent_info with
  | Some info =>
      if str_eqb (intent info) (lit "nec") || str_eqb (intent info) (lit "wattmonk")
      then
        if truthy context
        then
          lit "You are a helpful assistant specializing in "
          ++ upper (intent info)
          ++ lit " information. "
          ++ [newline]
          ++ lit "Use the provided context to answer the user's question accurately and comprehensively."
          ++ [newline; newline]
          ++ context
          ++ [newline; newline]
          ++ lit "User Question: "
          ++ query
          ++ [newline; newline]
          ++ lit "Instructions:"
          ++ [newline]
          ++ lit "1. Answer based primarily on the provided context"
          ++ [newline]
          ++ lit "2. If the context doesn't contain enough information, clearly state this"
          ++ [newline]
          ++ lit "3. Always cite your sources when using information from the context"
          ++ [newline]
          ++ lit "4. Be specific and technical when appropriate"
          ++ [newline]
          ++ lit "5. If asked about "
          ++ upper (intent info)
          ++ lit ", focus on that domain"
          ++ [newline; newline]
          ++ lit "Answer:"
        else
          lit "You are a helpful assistant. The user is asking about "
          ++ upper (intent info)
          ++ lit " related topics, but I don't have specific context available in my knowledge base for this query."
          ++ [newline; newline]
          ++ lit "User Question: "
          ++ query
          ++ [newline; newline]
          ++ lit "Please provide a helpful response based on your general knowledge, but clearly indicate that this information is not from the specific "
          ++ upper (intent info)
          ++ lit " knowledge base and recommend consulting official sources for authoritative information."
          ++ [newline; newline]
          ++ lit "Answer:"
      else general
  | None => general
  end.

(** [generate_response] (lines 84-137). *)
Definition generate_response (query context : str) (intent_info : option Intent)
    : Answer :=
  match generate_content (build_prompt query context intent_info) with
  | Generated text =>
      mkAnswer text
        (match intent_info with Some info => intent info | None => lit "general" end)
        (if truthy context then len (split_on (lit "[Source") context) - 1 else 0)
        (truthy context)
  | GenerationFailed message =>
      mkAnswer
        (lit "I apologize, but I encountered an error while generating a response: "
           ++ message)
        (lit "error") 0 false
  end.

End Answering.

(** [str.upper] on the letters a to z, and a language model that repeats its
    prompt. *)
Definition ascii_upper (s : str) : str :=
  map (fun c =>
         let n := nat_of_ascii c in
         if ((97 <=? n) && (n <=? 122))%nat then ascii_of_nat (n - 32) else c) s.

Definition echo_model : str -> Generation := Generated.

(** The marker [generate_response] counts, and the number of places of a
    string where a pattern starts. *)
Definition source_marker : str := lit "[Source".

Fixpoint occurrences (p s : str) : nat :=
  match s with
  | [] => 0%nat
  | _ :: s' => ((if startswith s p then 1 else 0) + occurrences p s')%nat
  end.

(** The string holds no opening square bracket. *)
Definition no_bracket (s : str) : bool :=
  forallb (fun c => negb (Ascii.eqb c "["%char)) s.

(** A result none of whose formatted parts holds an opening square bracket. *)
Definition plain_result (upper : str -> str) (r : SearchResult) : Prop :=
  no_bracket (md_source (metadata r)) = true
  /\ no_bracket (upper (md_document_type (metadata r))) = true
  /\ no_bracket (content r) = true.

(** Two results, the second of which quotes a source marker in its text. *)
Definition quoting_results : list SearchResult :=
  [mkSearchResult (lit "Grounding of circuits")
     (mkMetadata (lit "code.txt") 0 (lit "nec") (lit "docs/code.txt")) 0%Q (lit "nec") None;
   mkSearchResult (lit "See [Source 7] for wiring")
     (mkMetadata (lit "code.txt") 1 (lit "nec") (lit "docs/code.txt")) 0%Q (lit "nec") None].

(** ** Text beyond code point 255

    [str.lower] maps each code point below 256 to one code point, but not
    every code point to one: U+0130, the capital I with a dot above, becomes
    the letter i followed by U+0307, the combining dot above. The alphabet
    [char] adds these two code points to the 256, and [keyword_search]
    (document_processor.py, lines 271-323) is embedded over it, with the
    built-ins it uses: [lower], [isspace], [split] and [in] are exact on
    every string over this alphabet. *)

Module Wide.

Local Open Scope exc_scope.

Inductive char : Type :=
| Latin (c : ascii)
| capital_i_dot
| combining_dot.

Definition wstr : Type := list char.

(** A string of code points below 256 as a string over [char]. *)
Definition widen (s : str) : wstr := map Latin s.

Definition char_eqb (a b : char) : bool :=
  match a, b with
  | Latin x, Latin y => Ascii.eqb x y
  | capital_i_dot, capital_i_dot => true
  | combining_dot, combining_dot => true
  | _, _ => false
  end.

(** [c.isspace()]: neither new code point is white space. *)
Definition isspace (c : char) : bool :=
  match c with
  | Latin x => Py.isspace x
  | capital_i_dot => false
  | combining_dot => false
  end.

(** [c.lower()], which may be longer than [c]. *)
Definition lower_char (c : char) : wstr :=
  match c with
  | Latin x => [Latin (Py.lower_char x)]
  | capital_i_dot => [Latin "i"%char; combining_dot]
  | combining_dot => [combining_dot]
  end.

(** [s.lower()] *)
Definition lower (s : wstr) : wstr := flat_map lower_char s.

Fixpoint str_eqb (a b : wstr) : bool :=
  match a, b with
  | [], [] => true
  | x :: a', y :: b' => char_eqb x y && str_eqb a' b'
  | _, _ => false
  end.

Fixpoint startswith (s p : wstr) : bool :=
  match p, s with
  | [], _ => true
  | x :: p', y :: s' => char_eqb x y && startswith s' p'
  | _ :: _, [] => false
  end.

(** [p in s] *)
Fixpoint contains (p s : wstr) : bool :=
  startswith s p || match s with [] => false | _ :: s' => contains p s' end.

(** [s.split()] *)
Fixpoint split_from (cur s : wstr) : list wstr :=
  match s with
  | [] => match cur with [] => [] | _ => [cur] end
  | c :: s' =>
      if isspace c
      then match cur with [] => split_from [] s' | _ => cur :: split_from [] s' end
      else split_from (cur ++ [c]) s'
  end.

Definition split (s : wstr) : list wstr := split_from [] s.

(** What [collection.get()] shows of a record, and the collections. *)
Record StoredRecord : Type := mkStoredRecord {
  rec_document : wstr;
  rec_metadata : Metadata
}.

Record Collection : Type := mkCollection {
  available : bool;
  records : list StoredRecord
}.

Definition coll_get (c : Collection) : result (list StoredRecord) :=
  if available c then Ok (records c) else Raised.

Record Store : Type := mkStore {
  nec_collection : Collection;
  wattmonk_collection : Collection
}.

Record SearchResult : Type := mkSearchResult {
  content : wstr;
  metadata : Metadata;
  distance : Q;
  collection : str;
  keyword_matches : option Z
}.

(** Lines 277-280. *)
Definition keywords_of (query_lower : wstr) : list wstr :=
  fold_left
    (fun keywords word => if len word >? 2 then keywords ++ [word] else keywords)
    (split query_lower) [].

(** Lines 284-288. *)
Definition collections_to_search (st : Store) (document_type : option wstr)
    : list (str * Collection) :=
  let is_type name :=
    match document_type with
    | None => true
    | Some t => str_eqb (lower t) (widen name)
    end in
  (if is_type (lit "nec") then [(lit "nec", nec_collection st)] else [])
  ++ (if is_type (lit "wattmonk") then [(lit "wattmonk", wattmonk_collection st)] else []).

(** Line 298. *)
Definition match_count (keywords : list wstr) (doc_lower : wstr) : Z :=
  fold_left (fun total keyword => if contains keyword doc_lower then total + 1 else total)
    keywords 0.

Definition append_result (r : SearchResult) : M (list SearchResult) unit :=
  modify (fun results => results ++ [r]).

(** Lines 296-311. *)
Definition scan_document (keywords : list wstr) (collection_name : str)
    (r : StoredRecord) : M (list SearchResult) unit :=
  let doc := rec_document r in
  let doc_lower := lower doc in
  let matches := match_count keywords doc_lower in
  if matches >? 0 then
    ratio <- lift (truediv matches (len keywords)) ;;
    append_result
      (mkSearchResult doc (rec_metadata r) (1 - ratio)%Q collection_name (Some matches))
  else ret tt.

(** Lines 292-311. *)
Definition scan_collection_block (keywords : list wstr) (named : str * Collection)
    : M (list SearchResult) unit :=
  let collection_name := fst named in
  let collection := snd named in
  all_docs <- lift (coll_get collection) ;;
  if truthy all_docs
  then for_each all_docs (scan_document keywords collection_name)
  else ret tt.

(** Lines 291-315. *)
Definition scan_collection (keywords : list wstr) (named : str * Collection)
    : M (list SearchResult) unit :=
  try_pass (scan_collection_block keywords named).

Definition matches_of (r : SearchResult) : Z :=
  match keyword_matches r with Some m => m | None => 0 end.

(** Line 317. *)
Definition keyword_leb (a b : SearchResult) : bool :=
  (- matches_of a <? - matches_of b)
  || ((- matches_of a =? - matches_of b) && Qle_bool (distance a) (distance b)).

Definition keyword_results (st : Store) (query : wstr) (document_type : option wstr)
    : list SearchResult :=
  let query_lower := lower query in
  let keywords := keywords_of query_lower in
  exec (for_each (collections_to_search st document_type) (scan_collection keywords)) [].

Definition keyword_search (st : Store) (query : wstr) (document_type : option wstr)
    (n_results : Z) : list SearchResult :=
  slice (sort_by keyword_leb (keyword_results st query document_type)) 0 n_results.

End Wide.

(** The word [Il] with a dotted capital, whose lower case has three code
    points; a store whose NEC collection holds that word as a text; and a
    query of two short words with a dotted capital. *)
Definition dotted_word : Wide.wstr := [Wide.capital_i_dot; Wide.Latin "l"%char].

Definition dotted_store : Wide.Store :=
  Wide.mkStore
    (Wide.mkCollection true
       [Wide.mkStoredRecord dotted_word
          (mkMetadata (lit "places.txt") 0 (lit "nec") (lit "docs/places.txt"))])
    (Wide.mkCollection true []).

Definition dotted_short_query : Wide.wstr :=
  [Wide.capital_i_dot; Wide.Latin " "%char; Wide.Latin "O"%char; Wide.Latin "K"%char].

(** * Facts about the built-ins *)

Lemma gtb_false (a b : Z) : a <= b -> (a >? b) = false.
Proof. intros H. rewrite Z.gtb_ltb. apply Z.ltb_ge. exact H. Qed.

Lemma gtb_true (a b : Z) : b < a -> (a >? b) = true.
Proof. intros H. rewrite Z.gtb_ltb. apply Z.ltb_lt. exact H. Qed.

Lemma gtb_false_inv (a b : Z) : (a >? b) = false -> a <= b.
Proof. rewrite Z.gtb_ltb. apply Z.ltb_ge. Qed.

Lemma gtb_true_inv (a b : Z) : (a >? b) = true -> b < a.
Proof. rewrite Z.gtb_ltb. apply Z.ltb_lt. Qed.

Section BuiltinFacts.

Context {A : Type}.

Lemma len_nonneg (l : list A) : 0 <= len l.
Proof. unfold len. lia. Qed.

Lemma len_app (l1 l2 : list A) : len (l1 ++ l2) = len l1 + len l2.
Proof. unfold len. rewrite length_app. lia. Qed.

Lemma norm_index_range (n i : Z) : 0 <= n -> 0 <= norm_index n i <= n.
Proof.
  intros Hn. unfold norm_index.
  destruct (i <? 0) eqn:E; [apply Z.ltb_lt in E | apply Z.ltb_ge in E]; lia.
Qed.

Lemma len_slice_le (l : list A) (i j : Z) : len (slice l i j) <= len l.
Proof.
  unfold slice, len.
  rewrite length_firstn, length_skipn. lia.
Qed.

(** [l[0:n]] is the first [n] elements when [n] is not negative. *)
Lemma slice_prefix (l : list A) (n : Z) :
  0 <= n -> slice l 0 n = firstn (Z.to_nat n) l.
Proof.
  intros Hn. unfold slice, norm_index.
  pose proof (len_nonneg l) as Hl.
  replace (0 <? 0) with false by reflexivity.
  replace (n <? 0) with false by (symmetry; apply Z.ltb_ge; lia).
  rewrite (Z.min_l 0) by lia. simpl skipn. rewrite Z.sub_0_r.
  destruct (Z.le_gt_cases n (len l)) as [H | H].
  - rewrite Z.min_l by lia. reflexivity.
  - rewrite Z.min_r by lia. unfold len in *.
    rewrite Nat2Z.id. rewrite firstn_all. symmetry. apply firstn_all2. lia.
Qed.

(** [l[i:len(l)]] with [i] inside the list drops the first [i] elements. *)
Lemma slice_suffix (l : list A) (i : Z) :
  0 <= i <= len l -> slice l i (len l) = skipn (Z.to_nat i) l.
Proof.
  intros Hi. unfold slice, norm_index.
  replace (i <? 0) with false by (symmetry; apply Z.ltb_ge; lia).
  replace (len l <? 0) with false by (symmetry; apply Z.ltb_ge; lia).
  rewrite !Z.min_l by lia.
  apply firstn_all2. rewrite length_skipn. unfold len in *. lia.
Qed.

End BuiltinFacts.

Lemma length_lstrip_le (s : str) : (List.length (lstrip s) <= List.length s)%nat.
Proof.
  induction s as [| c s IH]; simpl; [lia |].
  destruct (isspace c); simpl; lia.
Qed.

Lemma len_strip_le (s : str) : len (strip s) <= len s.
Proof.
  unfold strip, rstrip, len.
  rewrite length_rev.
  pose proof (length_lstrip_le (rev (lstrip s))) as H1.
  pose proof (length_lstrip_le s) as H2.
  rewrite length_rev in H1. lia.
Qed.

Lemma str_eqb_eq (a b : str) : str_eqb a b = true <-> a = b.
Proof.
  revert b. induction a as [| x a IH]; destruct b as [| y b]; simpl; try easy.
  rewrite andb_true_iff, Ascii.eqb_eq, IH.
  split; [intros [-> ->]; reflexivity | intros H; inversion H; auto].
Qed.

Lemma str_eqb_refl (a : str) : str_eqb a a = true.
Proof. apply str_eqb_eq. reflexivity. Qed.

(** * MD5 test vectors

    The digests of RFC 1321, appendix A.5. *)

Example md5_of_empty :
  MD5.hexdigest (encode (lit "")) = lit "d41d8cd98f00b204e9800998ecf8427e".
Proof. vm_compute. reflexivity. Qed.

Example md5_of_abc :
  MD5.hexdigest (encode (lit "abc")) = lit "900150983cd24fb0d6963f7d28e17f72".
Proof. vm_compute. reflexivity. Qed.

Example md5_of_digits :
  MD5.hexdigest
    (encode (lit "12345678901234567890123456789012345678901234567890123456789012345678901234567890"))
  = lit "57edf4a22be3c955ac49da2e2107b67a".
Proof. vm_compute. reflexivity. Qed.

(** The identifier [hashlib] gives the first chunk of [docs/a.txt] when the
    chunk starts with a hundred times the letter a. *)
Example chunk_id_of_first_chunk :
  chunk_id (lit "docs/a.txt") 0 chunk_x = lit "0947495ecbda4c620fd28ab577b41def".
Proof. vm_compute. reflexivity. Qed.

(** * The chunker *)

(** The loop never ends from a state the body maps to itself. *)
Lemma chunk_loop_stuck (text : str) (chunk_size overlap max_chunks : Z) (st : chunk_state) :
  chunk_cond text max_chunks st = true ->
  chunk_body text chunk_size overlap st = st ->
  forall fuel, chunk_loop fuel text chunk_size overlap max_chunks st = None.
Proof.
  intros Hcond Hbody fuel.
  induction fuel as [| fuel IH]; simpl; rewrite Hcond; [reflexivity |].
  rewrite Hbody. exact IH.
Qed.

(** A window that reaches the end of the text is not snapped. *)
Lemma chunk_window_last (text : str) (chunk_size start : Z) :
  len text <= start + chunk_size ->
  chunk_window text chunk_size start = (slice text start (len text), len text).
Proof.
  intros H. unfold chunk_window.
  destruct (start + chunk_size >? len text) eqn:E.
  - rewrite Z.ltb_irrefl. reflexivity.
  - assert (start + chunk_size = len text) as -> by (apply gtb_false_inv in E; lia).
    rewrite Z.ltb_irrefl. reflexivity.
Qed.

(** With the defaults of the source, a window over a text of at most 100
    characters appends nothing and puts the cursor at [len text - 200]. *)
Lemma chunk_body_short (text : str) (start : Z) :
  len text <= 100 -> -200 <= start ->
  chunk_body text 2000 200 (mkChunkState start []) = mkChunkState (len text - 200) [].
Proof.
  intros Hlen Hstart. unfold chunk_body. cbn [DocumentProcessor.start chunks].
  rewrite chunk_window_last by lia.
  pose proof (len_strip_le (slice text start (len text))) as H1.
  pose proof (len_slice_le text start (len text)) as H2.
  rewrite (gtb_false (len (strip (slice text start (len text))))) by lia.
  reflexivity.
Qed.

(** Every non-empty text of at most 100 characters keeps [chunk_text] in
    its loop for ever: no chunk is long enough to be kept, so the chunk cap
    is never reached, and the cursor stays at [len text - 200]. *)
Lemma chunk_text_short_diverges (text : str) (max_chunks : Z) :
  0 < len text <= 100 -> 0 < max_chunks ->
  forall fuel, chunk_text fuel text 2000 200 max_chunks = None.
Proof.
  intros Hlen Hmax fuel. unfold chunk_text.
  rewrite gtb_false by lia.
  assert (Hc : forall s, s < len text -> chunk_cond text max_chunks (mkChunkState s []) = true).
  { intros s Hs. unfold chunk_cond. cbn. apply andb_true_iff.
    split; apply Z.ltb_lt; [exact Hs | exact Hmax]. }
  destruct fuel as [| fuel]; simpl; rewrite Hc by lia; [reflexivity |].
  rewrite chunk_body_short by lia.
  apply chunk_loop_stuck; [apply Hc; lia | apply chunk_body_short; lia].
Qed.

(** C1 (evaluated at the failing input). On the text [hello] with the default
    chunk size 2000 and overlap 200 (so 0 <= overlap < chunk size), the first
    iteration moves the cursor from 0 back to -195, the loop condition still
    holds there, the next iteration leaves the cursor at -195, and the loop
    of [chunk_text] does not end within any number of iterations. *)
Theorem chunk_text_cursor_does_not_advance :
  chunk_body hello_text 2000 200 (mkChunkState 0 []) = mkChunkState (-195) []
  /\ chunk_cond hello_text 500 (mkChunkState (-195) []) = true
  /\ chunk_body hello_text 2000 200 (mkChunkState (-195) []) = mkChunkState (-195) []
  /\ forall fuel, chunk_text fuel hello_text 2000 200 500 = None.
Proof.
  repeat split; try reflexivity.
  apply chunk_text_short_diverges; [vm_compute; intuition discriminate | lia].
Qed.

(** If the text of the file is not blank and has at most 100 characters,
    [process_document] never returns. *)
Lemma process_document_short_diverges (fs : FileSystem) (embed_content : EmbedService)
    (file_path document_type text : str) (st : Store) :
  extract_text fs file_path = Ok text ->
  truthy (strip text) = true ->
  len text <= 100 ->
  forall fuel, process_document fuel fs embed_content file_path document_type st = None.
Proof.
  intros Hext Hstrip Hlen fuel. unfold process_document.
  rewrite Hext, Hstrip. cbn [negb].
  rewrite chunk_text_short_diverges; [reflexivity | | lia].
  destruct text as [| c text]; [discriminate Hstrip |].
  split; [unfold len; cbn [List.length]; lia | exact Hlen].
Qed.

(** C2 (evaluated at the failing input). For a readable text file that holds
    [hello], [process_document] returns no value, whatever the embedding
    service, the corpus label and the store: the loop of [chunk_text] does not
    end within any number of iterations. *)
Theorem process_document_not_total :
  forall (fuel : nat) (embed_content : EmbedService) (document_type : str) (st : Store),
    process_document fuel hello_fs embed_content (lit "notes.txt") document_type st = None.
Proof.
  intros fuel embed_content document_type st.
  apply process_document_short_diverges with (text := hello_text);
    [reflexivity | reflexivity | vm_compute; discriminate].
Qed.

(** *** The break point of a window *)

Lemma rfind_range (c : ascii) (s : str) : -1 <= rfind c s < len s.
Proof.
  induction s as [| x s IH]; [cbn; lia |].
  unfold len in *. cbn [rfind List.length].
  destruct (0 <=? rfind c s) eqn:E.
  - apply Z.leb_le in E. lia.
  - destruct (Ascii.eqb x c); lia.
Qed.

(** A result that is not [-1] is the index of an occurrence. *)
Lemma rfind_hit (c : ascii) (s : str) :
  0 <= rfind c s -> nth_error s (Z.to_nat (rfind c s)) = Some c.
Proof.
  induction s as [| x s IH]; [cbn; lia |].
  cbn [rfind]. destruct (0 <=? rfind c s) eqn:E.
  - apply Z.leb_le in E. intros _.
    replace (Z.to_nat (rfind c s + 1)) with (S (Z.to_nat (rfind c s))) by lia.
    cbn [nth_error]. apply IH. exact E.
  - destruct (Ascii.eqb x c) eqn:Ex; [| lia].
    intros _. apply Ascii.eqb_eq in Ex. subst x. reflexivity.
Qed.

(** No occurrence lies beyond the result. *)
Lemma rfind_last (c : ascii) (s : str) (j : nat) :
  nth_error s j = Some c -> Z.of_nat j <= rfind c s.
Proof.
  revert j. induction s as [| x s IH]; intros j Hj; [destruct j; discriminate |].
  cbn [rfind]. destruct j as [| j]; cbn [nth_error] in Hj.
  - injection Hj as ->. rewrite Ascii.eqb_refl.
    destruct (0 <=? rfind c s) eqn:E; [apply Z.leb_le in E |]; lia.
  - apply IH in Hj.
    replace (0 <=? rfind c s) with true by (symmetry; apply Z.leb_le; lia).
    lia.
Qed.

(** In a window of [n] characters from the start of the text whose last
    break point is [bp], the later of the last period and the last line feed
    is at [bp]. *)
Lemma break_point_of_window (text : str) (n bp : Z) :
  0 <= bp < n ->
  is_break_at text bp ->
  (forall j, bp < j < n -> ~ is_break_at text j) ->
  Z.max (rfind "."%char (firstn (Z.to_nat n) text))
        (rfind newline (firstn (Z.to_nat n) text)) = bp.
Proof.
  intros Hbp [c [Hc Hbreak]] Hlast.
  set (w := firstn (Z.to_nat n) text).
  assert (Hin : forall j, (j < Z.to_nat n)%nat -> nth_error w j = nth_error text j).
  { intros j Hj. unfold w. rewrite nth_error_firstn.
    replace (j <? Z.to_nat n)%nat with true by (symmetry; apply Nat.ltb_lt; exact Hj).
    reflexivity. }
  assert (Hlen : len w <= n).
  { unfold w, len. rewrite length_firstn. lia. }
  assert (Hle : forall c0, is_break c0 -> rfind c0 w <= bp).
  { intros c0 Hc0.
    destruct (Z.le_gt_cases (rfind c0 w) bp) as [H | H]; [exact H | exfalso].
    pose proof (rfind_range c0 w) as Hr.
    apply (Hlast (rfind c0 w)); [lia |].
    exists c0. split; [| exact Hc0].
    rewrite <- Hin by lia. apply rfind_hit. lia. }
  assert (Hge : bp <= rfind c w).
  { rewrite <- (Z2Nat.id bp) at 1 by lia. apply rfind_last.
    rewrite Hin by lia. exact Hc. }
  pose proof (Hle "."%char (or_introl eq_refl)) as Hp.
  pose proof (Hle newline (or_intror eq_refl)) as Hn.
  destruct Hbreak as [-> | ->]; lia.
Qed.

(** The snapping rule at cursor 0: a last break point strictly beyond half
    the chunk size ends the chunk just after it. *)
Lemma chunk_window_snaps_at_zero (text : str) (chunk_size bp : Z) :
  chunk_size < len text ->
  0 <= bp < chunk_size ->
  is_break_at text bp ->
  (forall j, bp < j < chunk_size -> ~ is_break_at text j) ->
  chunk_size / 2 < bp ->
  chunk_window text chunk_size 0 = (slice text 0 (bp + 1), bp + 1).
Proof.
  intros Hlen Hbp Hbreak Hlast Hhalf. unfold chunk_window.
  rewrite !Z.add_0_l.
  rewrite gtb_false by lia.
  replace (chunk_size <? len text) with true by (symmetry; apply Z.ltb_lt; lia).
  rewrite slice_prefix by lia.
  rewrite (break_point_of_window text chunk_size bp Hbp Hbreak Hlast).
  rewrite gtb_true by lia. reflexivity.
Qed.

(** The window at cursor 0 is not snapped when its last break point is at
    half the chunk size or before. *)
Lemma chunk_window_keeps_at_zero (text : str) (chunk_size bp : Z) :
  chunk_size < len text ->
  0 <= bp < chunk_size ->
  is_break_at text bp ->
  (forall j, bp < j < chunk_size -> ~ is_break_at text j) ->
  bp <= chunk_size / 2 ->
  chunk_window text chunk_size 0 = (slice text 0 chunk_size, chunk_size).
Proof.
  intros Hlen Hbp Hbreak Hlast Hhalf. unfold chunk_window.
  rewrite !Z.add_0_l.
  rewrite gtb_false by lia.
  replace (chunk_size <? len text) with true by (symmetry; apply Z.ltb_lt; lia).
  rewrite slice_prefix by lia.
  rewrite (break_point_of_window text chunk_size bp Hbp Hbreak Hlast).
  rewrite gtb_false by lia. reflexivity.
Qed.

Lemma chunk_body_start (text : str) (chunk_size overlap : Z) (st : chunk_state) :
  start (chunk_body text chunk_size overlap st)
  = snd (chunk_window text chunk_size (start st)) - overlap.
Proof.
  unfold chunk_body. destruct (chunk_window text chunk_size (start st)). reflexivity.
Qed.

(** *** The cursor never reaches the end of the text *)

(** A window never ends beyond the text. *)
Lemma chunk_window_end_le (text : str) (chunk_size start : Z) :
  snd (chunk_window text chunk_size start) <= len text.
Proof.
  unfold chunk_window.
  set (end_ := if start + chunk_size >? len text then len text else start + chunk_size).
  assert (Hend : end_ <= len text).
  { unfold end_. destruct (start + chunk_size >? len text) eqn:E;
      [lia | apply gtb_false_inv in E; exact E]. }
  destruct (end_ <? len text); [| exact Hend].
  set (chunk := slice text start end_).
  destruct (Z.max (rfind "."%char chunk) (rfind newline chunk) >? start + chunk_size / 2);
    [| exact Hend].
  cbn [snd].
  pose proof (rfind_range "."%char chunk) as Hp.
  pose proof (rfind_range newline chunk) as Hn.
  pose proof (len_slice_le text start end_) as Hs. fold chunk in Hs.
  lia.
Qed.

(** With a positive overlap the cursor stays before the end of the text, so
    the loop is left through the chunk cap only: whenever [chunk_loop]
    returns, it returns at least [max_chunks] chunks. *)
Lemma chunk_loop_stops_at_cap_only (text : str) (chunk_size overlap max_chunks : Z) :
  0 < overlap ->
  forall (fuel : nat) (st : chunk_state) (result : list str),
    start st < len text ->
    chunk_loop fuel text chunk_size overlap max_chunks st = Some result ->
    max_chunks <= len result.
Proof.
  intros Hov fuel. induction fuel as [| fuel IH]; intros st result Hstart Hrun;
    cbn [chunk_loop] in Hrun.
  - destruct (chunk_cond text max_chunks st) eqn:E; [discriminate Hrun |].
    injection Hrun as <-. unfold chunk_cond in E.
    apply andb_false_iff in E. destruct E as [E | E]; apply Z.ltb_ge in E; lia.
  - destruct (chunk_cond text max_chunks st) eqn:E.
    + apply IH in Hrun; [exact Hrun |].
      rewrite chunk_body_start.
      pose proof (chunk_window_end_le text chunk_size (start st)). lia.
    + injection Hrun as <-. unfold chunk_cond in E.
      apply andb_false_iff in E. destruct E as [E | E]; apply Z.ltb_ge in E; lia.
Qed.

(** The iteration at cursor 0 when the window is snapped at [bp]. *)
Lemma chunk_body_snaps_at_zero (text : str) (chunk_size overlap bp : Z) (chunks : list str) :
  chunk_size < len text ->
  0 <= bp < chunk_size ->
  is_break_at text bp ->
  (forall j, bp < j < chunk_size -> ~ is_break_at text j) ->
  chunk_size / 2 < bp ->
  chunk_body text chunk_size overlap (mkChunkState 0 chunks)
  = mkChunkState (bp + 1 - overlap)
      (if len (strip (slice text 0 (bp + 1))) >? 100
       then chunks ++ [strip (slice text 0 (bp + 1))] else chunks).
Proof.
  intros Hlen Hbp Hbreak Hlast Hhalf. unfold chunk_body. cbn [start DocumentProcessor.chunks].
  rewrite (chunk_window_snaps_at_zero text chunk_size bp Hlen Hbp Hbreak Hlast Hhalf).
  reflexivity.
Qed.

(** C4 (the claim as the specification states it fails). In [half_text] the
    window of chunk size 10 at cursor 0 stops before the end of the text and
    its last break point, the period at index 5, lies half the chunk size
    into the window; the chunk ends at 10, not just after the period. *)
Lemma snap_rule_fails_at_half : ~ snap_rule_as_stated.
Proof.
  intros H.
  assert (Hbreak : is_break_at half_text 5).
  { exists "."%char. split; [reflexivity | left; reflexivity]. }
  assert (Hlast : forall j, 5 < j < 0 + 10 -> ~ is_break_at half_text j).
  { intros j Hj [c [Hc Hb]].
    assert (Hcases : j = 6 \/ j = 7 \/ j = 8 \/ j = 9) by lia.
    destruct Hcases as [-> | [-> | [-> | ->]]];
      vm_compute in Hc; injection Hc as <-; destruct Hb as [Hb | Hb]; discriminate Hb. }
  assert (Hlen : 0 + 10 < len half_text) by (vm_compute; reflexivity).
  destruct (H half_text 10 2 0 5 [] ltac:(lia) ltac:(lia) Hlen ltac:(lia) Hbreak Hlast
              ltac:(lia)) as [Hend _].
  vm_compute in Hend. discriminate Hend.
Qed.

(** The rule also misses the windows at a later cursor: the source compares
    the break point's index within the window with [start + chunk_size // 2].
    In [later_text] the window of chunk size 10 at cursor 8 has its last break
    point seven characters in, and is not snapped. *)
Example snap_rule_misses_later_window :
  is_break_at later_text 15
  /\ chunk_window later_text 10 0 = (slice later_text 0 10, 10)
  /\ chunk_window later_text 10 8 = (slice later_text 8 18, 18).
Proof.
  split; [exists "."%char; split; [reflexivity | left; reflexivity] |].
  split; reflexivity.
Qed.

(** C4 (amended). For the window at cursor 0 that stops before the end of
    the text: if the last period or line feed of the window lies at an index
    strictly greater than [chunk_size // 2], the chunk is the text up to and
    including that break point, the chunk ends just after it and the next
    cursor is that end minus the overlap. In particular, for a chunk size of
    at least 21 and a text whose last break point in the window is a period
    at index [chunk_size - 10], the first chunk ends at [chunk_size - 9]. *)
Theorem first_window_snaps_after_last_break :
  (forall (text : str) (chunk_size overlap bp : Z) (chunks : list str),
      chunk_size < len text ->
      0 <= bp < chunk_size ->
      is_break_at text bp ->
      (forall j, bp < j < chunk_size -> ~ is_break_at text j) ->
      chunk_size / 2 < bp ->
      chunk_window text chunk_size 0 = (slice text 0 (bp + 1), bp + 1)
      /\ start (chunk_body text chunk_size overlap (mkChunkState 0 chunks))
         = bp + 1 - overlap)
  /\ (forall (text : str) (chunk_size overlap : Z) (chunks : list str),
      21 <= chunk_size < len text ->
      nth_error text (Z.to_nat (chunk_size - 10)) = Some "."%char ->
      (forall j, chunk_size - 10 < j < chunk_size -> ~ is_break_at text j) ->
      chunk_window text chunk_size 0
      = (slice text 0 (chunk_size - 9), chunk_size - 9)
      /\ start (chunk_body text chunk_size overlap (mkChunkState 0 chunks))
         = chunk_size - 9 - overlap).
Proof.
  split.
  - intros text chunk_size overlap bp chunks Hlen Hbp Hbreak Hlast Hhalf.
    split; [apply chunk_window_snaps_at_zero; assumption |].
    rewrite chunk_body_snaps_at_zero with (bp := bp) by assumption. reflexivity.
  - intros text chunk_size overlap chunks Hsize Hperiod Hlast.
    assert (Hbreak : is_break_at text (chunk_size - 10)).
    { exists "."%char. split; [exact Hperiod | left; reflexivity]. }
    assert (Hhalf : chunk_size / 2 < chunk_size - 10).
    { apply Z.div_lt_upper_bound; lia. }
    replace (chunk_size - 9) with (chunk_size - 10 + 1) by lia.
    split; [apply chunk_window_snaps_at_zero; solve [assumption | lia] |].
    rewrite chunk_body_snaps_at_zero with (bp := chunk_size - 10);
      solve [reflexivity | assumption | lia].
Qed.

Lemma first_window_snaps_witness :
  chunk_window period_text 40 0 = (slice period_text 0 31, 31)
  /\ start (chunk_body period_text 40 5 (mkChunkState 0 [])) = 26.
Proof.
  apply (proj1 first_window_snaps_after_last_break period_text 40 5 30 []).
  - vm_compute. reflexivity.
  - lia.
  - exists "."%char. split; [reflexivity | left; reflexivity].
  - intros j Hj [c [Hc Hb]].
    assert (Hcases : j = 31 \/ j = 32 \/ j = 33 \/ j = 34 \/ j = 35 \/ j = 36
                     \/ j = 37 \/ j = 38 \/ j = 39) by lia.
    destruct Hcases as [-> | [-> | [-> | [-> | [-> | [-> | [-> | [-> | ->]]]]]]]];
      vm_compute in Hc; injection Hc as <-; destruct Hb as [Hb | Hb]; discriminate Hb.
  - vm_compute. reflexivity.
Defined.

(** * Loops with a [try] body *)

(** A loop whose body is a [try] with a passing handler runs every
    iteration: it is a fold of the blocks' effects. *)
Lemma exec_for_each_try_pass {S A : Type} (block : A -> M S unit) (l : list A) (s : S) :
  exec (for_each l (fun x => try_pass (block x))) s
  = fold_left (fun s x => exec (block x) s) l s.
Proof.
  revert s. induction l as [| x l IH]; intros s; [reflexivity |].
  cbn [for_each fold_left]. rewrite <- IH. reflexivity.
Qed.

(** * Chunk identifiers and ingestion *)


Lemma upsert_keeps_ids (i : str) (r : StoredRecord) (l : list StoredRecord) :
  In i (map rec_id l) -> In i (map rec_id (upsert r l)).
Proof.
  induction l as [| x l IH]; intros Hin; [destruct Hin |].
  cbn [upsert]. destruct (str_eqb (rec_id x) (rec_id r)) eqn:E.
  - apply str_eqb_eq in E. destruct Hin as [Heq | Hin].
    + left. cbn in Heq. congruence.
    + right. exact Hin.
  - destruct Hin as [Heq | Hin]; [left; exact Heq | right; apply IH; exact Hin].
Qed.

Lemma upsert_has_id (r : StoredRecord) (l : list StoredRecord) :
  In (rec_id r) (map rec_id (upsert r l)).
Proof.
  induction l as [| x l IH]; [left; reflexivity |].
  cbn [upsert]. destruct (str_eqb (rec_id x) (rec_id r)); [left; reflexivity | right; exact IH].
Qed.

Section Ingestion.

Variable embed_content : EmbedService.
Variables file_path document_type : str.

Local Abbreviation step := (ingest_step embed_content file_path document_type).
Local Abbreviation embedded := (embeds embed_content).
Local Abbreviation id_of := (visit_id file_path).

(** What one iteration does to the variables. *)
Lemma ingest_step_eq (s : ingest_state) (ic : Z * str) :
  step s ic =
  if embedded ic && available (ing_collection s)
  then mkIngest
         (mkCollection true
            (upsert (mkStoredRecord (id_of ic) (generate_embeddings embed_content (snd ic))
                       (snd ic)
                       (mkMetadata (basename file_path) (fst ic) document_type file_path))
                    (records (ing_collection s))))
         (successful_chunks s + 1)
  else s.
Proof.
  unfold embeds, visit_id, ingest_step, store_chunk_block, exec, bind, add_record,
    coll_add, modify, ret.
  destruct (truthy (generate_embeddings embed_content (snd ic)));
    destruct (available (ing_collection s)); reflexivity.
Qed.

Lemma ingest_available (visits : list (Z * str)) (s : ingest_state) :
  available (ing_collection (fold_left step visits s)) = available (ing_collection s).
Proof.
  revert s. induction visits as [| ic visits IH]; intros s; [reflexivity |].
  cbn [fold_left]. rewrite IH, ingest_step_eq.
  destruct (embedded ic && available (ing_collection s)) eqn:E; [| reflexivity].
  apply andb_true_iff in E. destruct E as [_ E]. rewrite E. reflexivity.
Qed.

Lemma ingest_keeps_ids (i : str) (visits : list (Z * str)) (s : ingest_state) :
  has_id i (ing_collection s) -> has_id i (ing_collection (fold_left step visits s)).
Proof.
  revert s. induction visits as [| ic visits IH]; intros s Hi; [exact Hi |].
  cbn [fold_left]. apply IH. rewrite ingest_step_eq.
  destruct (embedded ic && available (ing_collection s)); [| exact Hi].
  unfold has_id in *. cbn [ing_collection records]. apply upsert_keeps_ids. exact Hi.
Qed.

(** After the loop an available collection holds the identifier of every
    visited chunk that has an embedding. *)
Lemma ingest_adds_ids (visits : list (Z * str)) (s : ingest_state) (ic : Z * str) :
  available (ing_collection s) = true ->
  In ic visits -> embedded ic = true ->
  has_id (id_of ic) (ing_collection (fold_left step visits s)).
Proof.
  revert s. induction visits as [| v visits IH]; intros s Hav Hin Hemb; [destruct Hin |].
  cbn [fold_left]. destruct Hin as [-> | Hin].
  - apply ingest_keeps_ids. rewrite ingest_step_eq, Hemb, Hav. cbn [andb].
    unfold has_id. cbn [ing_collection records].
    apply (upsert_has_id (mkStoredRecord (id_of ic) _ _ _)).
  - apply IH; [| exact Hin | exact Hemb].
    rewrite <- (ingest_available [v] s) in Hav. exact Hav.
Qed.


(** The number of chunks counted as stored depends on the collection through
    its availability only. *)
Lemma ingest_successful (visits : list (Z * str)) (s : ingest_state) :
  successful_chunks (fold_left step visits s)
  = successful_chunks s
    + (if available (ing_collection s) then len (filter embedded visits) else 0).
Proof.
  revert s. induction visits as [| v visits IH]; intros s.
  - cbn. destruct (available (ing_collection s)); lia.
  - cbn [fold_left filter]. rewrite IH.
    rewrite (ingest_available [v] s : available (ing_collection (step s v)) = _).
    rewrite ingest_step_eq.
    destruct (embedded v); destruct (available (ing_collection s)); cbn [andb successful_chunks];
      unfold len; cbn [List.length]; lia.
Qed.

End Ingestion.







(** * Sorting *)

Section SortFacts.

Context {A : Type} (leb : A -> A -> bool).

Lemma insert_by_perm (x : A) (l : list A) : Permutation (insert_by leb x l) (x :: l).
Proof.
  induction l as [| y l IH]; cbn [insert_by]; [reflexivity |].
  destruct (leb x y); [reflexivity |].
  rewrite IH. apply perm_swap.
Qed.

Lemma sort_by_perm (l : list A) : Permutation (sort_by leb l) l.
Proof.
  induction l as [| x l IH]; cbn [sort_by]; [reflexivity |].
  rewrite insert_by_perm. apply perm_skip. exact IH.
Qed.

Lemma sort_by_in (x : A) (l : list A) : In x (sort_by leb l) <-> In x l.
Proof.
  split; apply Permutation_in; [| symmetry]; apply sort_by_perm.
Qed.

Lemma sort_by_length (l : list A) : List.length (sort_by leb l) = List.length l.
Proof. apply Permutation_length, sort_by_perm. Qed.

Hypothesis leb_total : forall a b, leb a b = true \/ leb b a = true.

Local Abbreviation R := (fun a b : A => leb a b = true).

Lemma insert_by_sorted (x : A) (l : list A) : Sorted R l -> Sorted R (insert_by leb x l).
Proof.
  induction l as [| y l IH]; intros Hs; cbn [insert_by].
  - constructor; constructor.
  - destruct (leb x y) eqn:E.
    + constructor; [exact Hs | constructor; exact E].
    + inversion Hs as [| ? ? Hl Hhd]; subst.
      constructor; [apply IH; exact Hl |].
      destruct l as [| z l]; cbn [insert_by].
      * constructor. destruct (leb_total x y) as [H | H]; [congruence | exact H].
      * destruct (leb x z); constructor.
        -- destruct (leb_total x y) as [H | H]; [congruence | exact H].
        -- inversion Hhd; assumption.
Qed.

Lemma sort_by_sorted (l : list A) : Sorted R (sort_by leb l).
Proof.
  induction l as [| x l IH]; cbn [sort_by]; [constructor |].
  apply insert_by_sorted. exact IH.
Qed.

End SortFacts.

Lemma Sorted_firstn {A : Type} (R : A -> A -> Prop) (n : nat) (l : list A) :
  Sorted R l -> Sorted R (firstn n l).
Proof.
  revert n. induction l as [| x l IH]; intros n Hs; [rewrite firstn_nil; constructor |].
  destruct n as [| n]; [constructor |].
  cbn [firstn]. inversion Hs as [| ? ? Hl Hhd]; subst.
  constructor; [apply IH; exact Hl |].
  destruct l as [| y l]; [rewrite firstn_nil; constructor |].
  destruct n as [| n]; [constructor |].
  cbn [firstn]. constructor. inversion Hhd; assumption.
Qed.

Lemma Qle_bool_total (a b : Q) : Qle_bool a b = true \/ Qle_bool b a = true.
Proof.
  destruct (Qlt_le_dec a b) as [H | H].
  - left. apply Qle_bool_iff, Qlt_le_weak, H.
  - right. apply Qle_bool_iff, H.
Qed.

(** * Loops that append *)

Lemma exec_for_each_append {A : Type} (f : A -> SearchResult) (l : list A)
    (results : list SearchResult) :
  for_each l (fun x => append_result (f x)) results = (Ok tt, results ++ map f l).
Proof.
  revert results. induction l as [| x l IH]; intros results.
  - cbn. rewrite app_nil_r. reflexivity.
  - cbn [for_each map]. unfold bind, append_result, modify at 1.
    rewrite IH, <- app_assoc. reflexivity.
Qed.

Lemma fold_left_append {A B : Type} (f : A -> list B) (l : list A) (acc : list B) :
  fold_left (fun results x => results ++ f x) l acc = acc ++ flat_map f l.
Proof.
  revert acc. induction l as [| x l IH]; intros acc; cbn [fold_left flat_map].
  - rewrite app_nil_r. reflexivity.
  - rewrite IH, app_assoc. reflexivity.
Qed.

Lemma fold_left_ext {A B : Type} (f g : B -> A -> B) (l : list A) (b : B) :
  (forall s x, f s x = g s x) -> fold_left f l b = fold_left g l b.
Proof.
  intros H. revert b. induction l as [| x l IH]; intros b; [reflexivity |].
  cbn [fold_left]. rewrite H. apply IH.
Qed.

Lemma in_firstn {A : Type} (x : A) (n : nat) (l : list A) : In x (firstn n l) -> In x l.
Proof.
  revert n. induction l as [| y l IH]; intros n Hin.
  - rewrite firstn_nil in Hin. exact Hin.
  - destruct n as [| n]; [destruct Hin |].
    destruct Hin as [-> | Hin]; [left; reflexivity | right; apply (IH n); exact Hin].
Qed.

Lemma Sorted_impl {A : Type} (R R' : A -> A -> Prop) (l : list A) :
  (forall a b, R a b -> R' a b) -> Sorted R l -> Sorted R' l.
Proof.
  intros H Hs. induction Hs as [| x l Hl IH Hhd]; constructor; [exact IH |].
  destruct Hhd; constructor. apply H. assumption.
Qed.

Lemma truthy_nil_iff {A : Type} (l : list A) : truthy l = false <-> l = [].
Proof. destruct l; cbn; split; intros H; congruence. Qed.

(** * Semantic search *)

Section SemanticSearch.

Variable metric : Embedding -> Embedding -> Q.
Variable e : Embedding.
Variable k : Z.

(** The [try] block of one collection appends that collection's hits. *)
Lemma search_collection_block_exec (named : str * Collection) (results : list SearchResult) :
  exec (search_collection_block metric e k named) results
  = results ++ spec_hits metric e k named.
Proof.
  unfold exec, search_collection_block, spec_hits, bind, lift.
  destruct (coll_count (snd named)) as [count |]; cbn [snd fst];
    [| rewrite app_nil_r; reflexivity].
  destruct (count =? 0); [cbn; rewrite app_nil_r; reflexivity |].
  destruct (coll_query metric (snd named) e (Z.min k count)) as [hits |]; cbn [snd fst];
    [| rewrite app_nil_r; reflexivity].
  exact (f_equal snd (exec_for_each_append (tag_hit (fst named)) hits results)).
Qed.

(** The loop over the collections merges the hits of all of them. *)
Lemma search_loop_exec (colls : list (str * Collection)) (results : list SearchResult) :
  exec (for_each colls (search_collection metric e k)) results
  = results ++ flat_map (spec_hits metric e k) colls.
Proof.
  change (search_collection metric e k)
    with (fun named => try_pass (search_collection_block metric e k named)).
  rewrite exec_for_each_try_pass.
  rewrite (fold_left_ext _ (fun results named => results ++ spec_hits metric e k named))
    by (intros; apply search_collection_block_exec).
  apply fold_left_append.
Qed.

Lemma spec_hits_nonpositive (named : str * Collection) :
  k <= 0 -> spec_hits metric e k named = [].
Proof.
  intros Hk. unfold spec_hits, coll_count, coll_query.
  destruct (available (snd named)); [| reflexivity].
  destruct (len (records (snd named)) =? 0) eqn:E; [reflexivity |].
  replace (Z.to_nat (Z.min k (len (records (snd named))))) with 0%nat by lia.
  reflexivity.
Qed.

(** A hit is a record of its collection, tagged with the collection's name
    and carrying its distance to the query. *)
Lemma spec_hits_in (named : str * Collection) (r : SearchResult) :
  In r (spec_hits metric e k named) ->
  exists rec, In rec (records (snd named))
              /\ collection r = fst named
              /\ content r = rec_document rec
              /\ distance r = metric e (rec_embedding rec).
Proof.
  unfold spec_hits, coll_count, coll_query.
  destruct (available (snd named)); [| intros []].
  destruct (len (records (snd named)) =? 0); [intros [] |].
  intros Hin. apply in_map_iff in Hin. destruct Hin as [hit [<- Hin]].
  apply in_firstn, sort_by_in, in_map_iff in Hin.
  destruct Hin as [rec [<- Hrec]]. exists rec. cbn. auto.
Qed.

(** The number of hits of a collection that answers [count()] with [n]. *)
Lemma spec_hits_length (named : str * Collection) (n : Z) :
  coll_count (snd named) = Ok n -> 0 <= k ->
  len (spec_hits metric e k named) = Z.min k n.
Proof.
  unfold spec_hits, coll_count, coll_query. intros Hn Hk.
  destruct (available (snd named)); [| discriminate Hn].
  injection Hn as <-.
  destruct (len (records (snd named)) =? 0) eqn:E.
  - apply Z.eqb_eq in E. rewrite E. cbn. lia.
  - unfold len in *. rewrite length_map, length_firstn, sort_by_length, length_map. lia.
Qed.

End SemanticSearch.

(** [search_documents] when the query has an embedding. *)
Lemma search_documents_eq (embed_content : EmbedService)
    (metric : Embedding -> Embedding -> Q) (st : Store)
    (query : str) (document_type : option str) (k : Z) :
  generate_embeddings embed_content query <> [] ->
  search_documents embed_content metric st query document_type k
  = firstn (Z.to_nat k)
      (sort_by distance_leb
         (flat_map (spec_hits metric (generate_embeddings embed_content query) k)
            (collections_to_search st document_type))).
Proof.
  intros He. unfold search_documents.
  destruct (truthy (generate_embeddings embed_content query)) eqn:Ht;
    [| apply truthy_nil_iff in Ht; contradiction].
  cbn [negb]. rewrite search_loop_exec. cbn [app].
  destruct (Z.le_gt_cases 0 k) as [Hk | Hk]; [apply slice_prefix; exact Hk |].
  replace (flat_map (spec_hits metric (generate_embeddings embed_content query) k)
             (collections_to_search st document_type)) with (@nil SearchResult).
  - cbn [sort_by]. rewrite firstn_nil. unfold slice. rewrite skipn_nil, firstn_nil.
    reflexivity.
  - symmetry. induction (collections_to_search st document_type) as [| c l IH];
      [reflexivity |].
    cbn [flat_map]. rewrite IH, spec_hits_nonpositive by lia. reflexivity.
Qed.

Lemma search_documents_no_embedding (embed_content : EmbedService)
    (metric : Embedding -> Embedding -> Q) (st : Store)
    (query : str) (document_type : option str) (k : Z) :
  generate_embeddings embed_content query = [] ->
  search_documents embed_content metric st query document_type k = [].
Proof.
  intros He. unfold search_documents. rewrite He. reflexivity.
Qed.

(** The result of [search_documents] is in ascending order of distance. *)
Lemma search_documents_sorted (embed_content : EmbedService)
    (metric : Embedding -> Embedding -> Q) (st : Store)
    (query : str) (document_type : option str) (k : Z) :
  Sorted by_distance (search_documents embed_content metric st query document_type k).
Proof.
  destruct (generate_embeddings embed_content query) as [| x e] eqn:He.
  - rewrite search_documents_no_embedding by exact He. constructor.
  - rewrite search_documents_eq by (rewrite He; discriminate).
    apply Sorted_firstn.
    apply Sorted_impl with (R := fun a b => distance_leb a b = true).
    + intros a b H. apply Qle_bool_iff. exact H.
    + apply sort_by_sorted. intros a b. apply Qle_bool_total.
Qed.

(** C5. [search_documents] returns the empty list when the query has no
    embedding. Otherwise it returns the first [k] of the hits of all selected
    collections, merged into one list and sorted in ascending order of
    distance, where an empty collection gives no hit and a collection of
    [count] records is asked for [min(k, count)] neighbours; every result is
    a record of a selected collection, tagged with that collection's name.
    When one collection is selected and answers [count()] with [n], the
    result has [min(k, n)] elements: none for an empty collection, and exactly
    [n] when [k] is larger than [n]. *)
Theorem search_documents_merges_nearest_hits :
  forall (embed_content : EmbedService) (metric : Embedding -> Embedding -> Q)
    (st : Store) (query : str) (document_type : option str) (k : Z),
    (generate_embeddings embed_content query = [] ->
     search_documents embed_content metric st query document_type k = [])
    /\ (generate_embeddings embed_content query <> [] ->
        search_documents embed_content metric st query document_type k
        = firstn (Z.to_nat k)
            (sort_by distance_leb
               (flat_map (spec_hits metric (generate_embeddings embed_content query) k)
                  (collections_to_search st document_type))))
    /\ Sorted by_distance (search_documents embed_content metric st query document_type k)
    /\ (forall r,
          In r (search_documents embed_content metric st query document_type k) ->
          exists named rec,
            In named (collections_to_search st document_type)
            /\ In rec (records (snd named))
            /\ collection r = fst named
            /\ content r = rec_document rec
            /\ distance r
               = metric (generate_embeddings embed_content query) (rec_embedding rec))
    /\ (forall (named : str * Collection) (n : Z),
          generate_embeddings embed_content query <> [] ->
          collections_to_search st document_type = [named] ->
          coll_count (snd named) = Ok n ->
          0 <= k ->
          len (search_documents embed_content metric st query document_type k)
          = Z.min k n).
Proof.
  intros embed_content metric st query document_type k.
  split; [apply search_documents_no_embedding |].
  split; [apply search_documents_eq |].
  split; [apply search_documents_sorted |].
  split.
  - intros r Hin.
    destruct (generate_embeddings embed_content query) as [| x e] eqn:He.
    + rewrite search_documents_no_embedding in Hin by exact He. destruct Hin.
    + rewrite search_documents_eq in Hin by (rewrite He; discriminate).
      rewrite He in Hin.
      apply in_firstn, sort_by_in, in_flat_map in Hin.
      destruct Hin as [named [Hnamed Hin]].
      apply spec_hits_in in Hin. destruct Hin as [rec Hrec].
      exists named, rec. split; [exact Hnamed | exact Hrec].
  - intros named n He Hsel Hcount Hk.
    rewrite search_documents_eq by exact He. rewrite Hsel. cbn [flat_map].
    rewrite app_nil_r.
    pose proof (spec_hits_length metric (generate_embeddings embed_content query) k
                  named n Hcount Hk) as Hlen.
    unfold len in *. rewrite length_firstn, sort_by_length. lia.
Qed.

Lemma search_documents_witness :
  len (search_documents unit_embed first_coordinate_metric small_store
         (lit "grounding") (Some (lit "NEC")) 5) = 3
  /\ len (search_documents unit_embed first_coordinate_metric small_store
            (lit "grounding") (Some (lit "wattmonk")) 5) = 0.
Proof.
  split.
  - apply (proj2 (proj2 (proj2 (proj2
             (search_documents_merges_nearest_hits unit_embed first_coordinate_metric
                small_store (lit "grounding") (Some (lit "NEC")) 5))))
             (lit "nec", nec_collection small_store) 3).
    + vm_compute. discriminate.
    + reflexivity.
    + reflexivity.
    + lia.
  - apply (proj2 (proj2 (proj2 (proj2
             (search_documents_merges_nearest_hits unit_embed first_coordinate_metric
                small_store (lit "grounding") (Some (lit "wattmonk")) 5))))
             (lit "wattmonk", wattmonk_collection small_store) 0).
    + vm_compute. discriminate.
    + reflexivity.
    + reflexivity.
    + lia.
Defined.

(** * Keyword search *)

Lemma keywords_of_eq (query_lower : str) :
  keywords_of query_lower = filter (fun word : str => len word >? 2) (split query_lower).
Proof.
  unfold keywords_of.
  assert (H : forall words acc,
             fold_left (fun (keywords : list str) (word : str) =>
                          if len word >? 2 then keywords ++ [word] else keywords) words acc
             = acc ++ filter (fun word : str => len word >? 2) words).
  { induction words as [| w words IH]; intros acc; cbn [fold_left filter].
    - rewrite app_nil_r. reflexivity.
    - rewrite IH. destruct (len w >? 2); [rewrite <- app_assoc |]; reflexivity. }
  apply H.
Qed.

Lemma match_count_eq (keywords : list str) (doc_lower : str) :
  match_count keywords doc_lower
  = len (filter (fun keyword => contains keyword doc_lower) keywords).
Proof.
  unfold match_count.
  assert (H : forall kws total,
             fold_left (fun total keyword =>
                          if contains keyword doc_lower then total + 1 else total) kws total
             = total + len (filter (fun keyword => contains keyword doc_lower) kws)).
  { induction kws as [| kw kws IH]; intros total; cbn [fold_left filter].
    - cbn. lia.
    - rewrite IH. destruct (contains kw doc_lower); unfold len; cbn [List.length]; lia. }
  rewrite H. lia.
Qed.

Lemma spec_matches_le (keywords : list str) (doc : str) :
  0 <= spec_matches keywords doc <= len keywords.
Proof.
  unfold spec_matches, len.
  pose proof (filter_length_le (fun keyword => contains keyword (lower doc)) keywords).
  lia.
Qed.

(** The body of the loop over the documents raises nothing, and appends the
    result section 4.6 describes: the division is reached with at least one
    keyword only. *)
Lemma scan_document_run (keywords : list str) (collection_name : str)
    (r : StoredRecord) (results : list SearchResult) :
  scan_document keywords collection_name r results
  = (Ok tt, results ++ spec_keyword_hit keywords collection_name r).
Proof.
  unfold scan_document, spec_keyword_hit. rewrite match_count_eq.
  fold (spec_matches keywords (rec_document r)).
  pose proof (spec_matches_le keywords (rec_document r)) as Hm.
  destruct (spec_matches keywords (rec_document r) >? 0) eqn:E.
  - apply gtb_true_inv in E. unfold bind, lift, truediv.
    replace (len keywords =? 0) with false by (symmetry; apply Z.eqb_neq; lia).
    reflexivity.
  - unfold ret. rewrite app_nil_r. reflexivity.
Qed.

Lemma scan_documents_run (keywords : list str) (collection_name : str)
    (docs : list StoredRecord) (results : list SearchResult) :
  for_each docs (scan_document keywords collection_name) results
  = (Ok tt, results ++ flat_map (spec_keyword_hit keywords collection_name) docs).
Proof.
  revert results. induction docs as [| r docs IH]; intros results; cbn [for_each flat_map].
  - unfold ret. rewrite app_nil_r. reflexivity.
  - unfold bind. rewrite scan_document_run, IH, <- app_assoc. reflexivity.
Qed.

Lemma scan_collection_block_exec (keywords : list str) (named : str * Collection)
    (results : list SearchResult) :
  exec (scan_collection_block keywords named) results
  = results ++ spec_keyword_hits keywords named.
Proof.
  unfold exec, scan_collection_block, spec_keyword_hits, bind, lift.
  destruct (coll_get (snd named)) as [all_docs |]; cbn [snd fst];
    [| rewrite app_nil_r; reflexivity].
  destruct all_docs as [| r docs]; [cbn; rewrite app_nil_r; reflexivity |].
  cbn [truthy]. rewrite scan_documents_run. reflexivity.
Qed.

Lemma keyword_results_eq (st : Store) (query : str) (document_type : option str) :
  keyword_results st query document_type
  = flat_map (spec_keyword_hits (spec_keywords query))
      (collections_to_search st document_type).
Proof.
  unfold keyword_results, spec_keywords. rewrite keywords_of_eq.
  set (keywords := filter (fun word : str => len word >? 2) (split (lower query))).
  change (scan_collection keywords)
    with (fun named => try_pass (scan_collection_block keywords named)).
  rewrite exec_for_each_try_pass.
  rewrite (fold_left_ext _ (fun results named => results ++ spec_keyword_hits keywords named))
    by (intros; apply scan_collection_block_exec).
  exact (fold_left_append (spec_keyword_hits keywords) _ []).
Qed.

Lemma keyword_leb_total (a b : SearchResult) :
  keyword_leb a b = true \/ keyword_leb b a = true.
Proof.
  unfold keyword_leb.
  destruct (Z.lt_total (matches_of a) (matches_of b)) as [H | [H | H]].
  - right. apply orb_true_iff. left. apply Z.ltb_lt. lia.
  - rewrite H, Z.eqb_refl, Z.ltb_irrefl. cbn [orb andb]. apply Qle_bool_total.
  - left. apply orb_true_iff. left. apply Z.ltb_lt. lia.
Qed.

Lemma keyword_leb_order (a b : SearchResult) :
  keyword_leb a b = true -> by_matches_then_distance a b.
Proof.
  unfold keyword_leb, by_matches_then_distance. intros H.
  apply orb_true_iff in H. destruct H as [H | H].
  - left. apply Z.ltb_lt in H. lia.
  - right. apply andb_true_iff in H. destruct H as [H1 H2].
    apply Z.eqb_eq in H1. apply Qle_bool_iff in H2. split; [lia | exact H2].
Qed.

Lemma inject_Z_nonzero (n : Z) : n <> 0 -> ~ (inject_Z n == 0)%Q.
Proof. unfold Qeq. cbn. lia. Qed.

(** A record that contains every keyword gets the pseudo-distance 0. *)
Lemma full_coverage_distance (n : Z) : 0 < n -> (1 - inject_Z n / inject_Z n == 0)%Q.
Proof.
  intros Hn. field. apply inject_Z_nonzero. lia.
Qed.

(** What a result of one record looks like. *)
Lemma spec_keyword_hit_in (keywords : list str) (collection_name : str)
    (rec : StoredRecord) (r : SearchResult) :
  In r (spec_keyword_hit keywords collection_name rec) ->
  0 < spec_matches keywords (rec_document rec)
  /\ content r = rec_document rec
  /\ collection r = collection_name
  /\ keyword_matches r = Some (spec_matches keywords (rec_document rec))
  /\ distance r
     = (1 - inject_Z (spec_matches keywords (rec_document rec))
            / inject_Z (len keywords))%Q.
Proof.
  unfold spec_keyword_hit.
  destruct (spec_matches keywords (rec_document rec) >? 0) eqn:E; [| intros []].
  apply gtb_true_inv in E. intros [<- | []]. cbn. auto.
Qed.

Lemma keyword_search_eq (st : Store) (query : str) (document_type : option str) (k : Z) :
  0 <= k ->
  keyword_search st query document_type k
  = firstn (Z.to_nat k)
      (sort_by keyword_leb
         (flat_map (spec_keyword_hits (spec_keywords query))
            (collections_to_search st document_type))).
Proof.
  intros Hk. unfold keyword_search. rewrite keyword_results_eq.
  apply slice_prefix. exact Hk.
Qed.

Lemma spec_keyword_hits_in (keywords : list str) (named : str * Collection)
    (r : SearchResult) :
  In r (spec_keyword_hits keywords named) ->
  exists rec, In rec (records (snd named))
              /\ In r (spec_keyword_hit keywords (fst named) rec).
Proof.
  unfold spec_keyword_hits, coll_get.
  destruct (available (snd named)); [| intros []].
  intros Hin. apply in_flat_map in Hin. exact Hin.
Qed.

(** C6. The keywords are the whitespace-separated tokens of the lower-cased
    query that are longer than 2 characters. For a result count [k] that is
    not negative, [keyword_search] returns the first [k] of the results of
    the scanned records, sorted by descending match count and then ascending
    pseudo-distance. Every result comes from a record of a selected
    collection in whose lower-cased text at least one keyword occurs, carries
    that number of matches, and has the pseudo-distance
    1 - (match count / keyword count), which is 0 when every keyword occurs.
    Every record of a selected collection that answers, with at least one
    match, is among the results before the first [k] are taken. *)
Theorem keyword_search_ranks_by_matches :
  forall (st : Store) (query : str) (document_type : option str) (k : Z),
    0 <= k ->
    keywords_of (lower query) = spec_keywords query
    /\ keyword_search st query document_type k
       = firstn (Z.to_nat k)
           (sort_by keyword_leb
              (flat_map (spec_keyword_hits (spec_keywords query))
                 (collections_to_search st document_type)))
    /\ Sorted by_matches_then_distance (keyword_search st query document_type k)
    /\ (forall r,
          In r (keyword_search st query document_type k) ->
          exists named rec,
            In named (collections_to_search st document_type)
            /\ In rec (records (snd named))
            /\ 0 < spec_matches (spec_keywords query) (rec_document rec)
            /\ content r = rec_document rec
            /\ collection r = fst named
            /\ keyword_matches r
               = Some (spec_matches (spec_keywords query) (rec_document rec))
            /\ distance r
               = (1 - inject_Z (spec_matches (spec_keywords query) (rec_document rec))
                      / inject_Z (len (spec_keywords query)))%Q
            /\ (spec_matches (spec_keywords query) (rec_document rec)
                = len (spec_keywords query) -> (distance r == 0)%Q))
    /\ (forall named rec,
          In named (collections_to_search st document_type) ->
          available (snd named) = true ->
          In rec (records (snd named)) ->
          0 < spec_matches (spec_keywords query) (rec_document rec) ->
          exists r,
            In r (keyword_results st query document_type)
            /\ content r = rec_document rec
            /\ keyword_matches r
               = Some (spec_matches (spec_keywords query) (rec_document rec))).
Proof.
  intros st query document_type k Hk.
  split; [apply keywords_of_eq |].
  split; [apply keyword_search_eq; exact Hk |].
  split; [| split].
  - rewrite keyword_search_eq by exact Hk.
    apply Sorted_firstn.
    apply Sorted_impl with (R := fun a b => keyword_leb a b = true);
      [apply keyword_leb_order |].
    apply sort_by_sorted. apply keyword_leb_total.
  - intros r Hin. rewrite keyword_search_eq in Hin by exact Hk.
    apply in_firstn, sort_by_in, in_flat_map in Hin.
    destruct Hin as [named [Hnamed Hin]].
    apply spec_keyword_hits_in in Hin. destruct Hin as [rec [Hrec Hin]].
    apply spec_keyword_hit_in in Hin.
    destruct Hin as [Hm [Hc [Hn [Hk' Hd]]]].
    exists named, rec. repeat (split; [assumption |]).
    intros Hall. rewrite Hd, Hall. apply full_coverage_distance. lia.
  - intros named rec Hnamed Hav Hrec Hm.
    rewrite keyword_results_eq.
    set (keywords := spec_keywords query) in *.
    exists (mkSearchResult (rec_document rec) (rec_metadata rec)
              (1 - inject_Z (spec_matches keywords (rec_document rec))
                   / inject_Z (len keywords))%Q
              (fst named) (Some (spec_matches keywords (rec_document rec)))).
    split; [| split; reflexivity].
    apply in_flat_map. exists named. split; [exact Hnamed |].
    unfold spec_keyword_hits, coll_get. rewrite Hav.
    apply in_flat_map. exists rec. split; [exact Hrec |].
    unfold spec_keyword_hit. rewrite gtb_true by exact Hm. left. reflexivity.
Qed.

Lemma keyword_search_witness :
  keyword_search small_store (lit "Zippy TOOL wiring") None 3
  = firstn 3
      (sort_by keyword_leb
         (flat_map (spec_keyword_hits (spec_keywords (lit "Zippy TOOL wiring")))
            (collections_to_search small_store None)))
  /\ Sorted by_matches_then_distance
       (keyword_search small_store (lit "Zippy TOOL wiring") None 3).
Proof.
  assert (Hk : 0 <= 3) by lia.
  pose proof (keyword_search_ranks_by_matches small_store (lit "Zippy TOOL wiring")
                None 3 Hk) as H.
  split; [exact (proj1 (proj2 H)) | exact (proj1 (proj2 (proj2 H)))].
Defined.

(** * Keyword search without keywords *)

Lemma filter_none {A : Type} (f : A -> bool) (l : list A) :
  (forall x, In x l -> f x = false) -> filter f l = [].
Proof.
  induction l as [| x l IH]; intros H; [reflexivity |].
  cbn [filter]. rewrite (H x (or_introl eq_refl)).
  apply IH. intros y Hy. apply H. right. exact Hy.
Qed.

Lemma flat_map_none {A B : Type} (f : A -> list B) (l : list A) :
  (forall x, f x = []) -> flat_map f l = [].
Proof.
  intros H. induction l as [| x l IH]; [reflexivity |].
  cbn [flat_map]. rewrite H, IH. reflexivity.
Qed.

(** Lower-casing code points below 256 keeps white space, so it moves
    inside the tokens. *)
Lemma isspace_lower_char (c : ascii) : isspace (lower_char c) = isspace c.
Proof.
  destruct c as [b0 b1 b2 b3 b4 b5 b6 b7].
  destruct b0, b1, b2, b3, b4, b5, b6, b7; reflexivity.
Qed.

Lemma split_from_lower (cur s : str) :
  split_from (lower cur) (lower s) = map lower (split_from cur s).
Proof.
  revert cur. induction s as [| c s IH]; intros cur.
  - destruct cur; reflexivity.
  - cbn [lower map split_from]. fold (lower s). rewrite isspace_lower_char.
    destruct (isspace c).
    + destruct cur as [| x cur]; cbn [lower map].
      * apply (IH []).
      * fold (lower cur). f_equal. apply (IH []).
    + rewrite <- IH. unfold lower. rewrite map_app. reflexivity.
Qed.

Lemma split_lower (s : str) : split (lower s) = map lower (split s).
Proof. exact (split_from_lower [] s). Qed.

Lemma wide_keywords_of_eq (query_lower : Wide.wstr) :
  Wide.keywords_of query_lower
  = filter (fun word : Wide.wstr => len word >? 2) (Wide.split query_lower).
Proof.
  unfold Wide.keywords_of.
  assert (H : forall words acc,
             fold_left (fun (keywords : list Wide.wstr) (word : Wide.wstr) =>
                          if len word >? 2 then keywords ++ [word] else keywords) words acc
             = acc ++ filter (fun word : Wide.wstr => len word >? 2) words).
  { induction words as [| w words IH]; intros acc; cbn [fold_left filter].
    - rewrite app_nil_r. reflexivity.
    - rewrite IH. destruct (len w >? 2); [rewrite <- app_assoc |]; reflexivity. }
  apply H.
Qed.

(** Without keywords the scan of a collection appends nothing. *)
Lemma wide_scan_without_keywords (named : str * Wide.Collection)
    (results : list Wide.SearchResult) :
  exec (Wide.scan_collection_block [] named) results = results.
Proof.
  unfold exec, Wide.scan_collection_block, bind, lift.
  destruct (Wide.coll_get (snd named)) as [all_docs |]; [| reflexivity].
  destruct (truthy all_docs); [| reflexivity].
  induction all_docs as [| r docs IH]; [reflexivity |].
  cbn [for_each]. unfold bind. exact IH.
Qed.

(** C10 (amended). When no whitespace-separated token of the lower-cased
    query is longer than 2 characters, the keyword list is empty,
    [keyword_search] returns the empty list for every store, corpus filter
    and result count, and the scan of any record returns normally and
    appends nothing: the division by the keyword count is not reached. For a
    query of code points below 256 it is enough that no token of the query
    itself is longer than 2 characters, since lower-casing keeps their
    lengths. The first statement also holds over the alphabet with the
    dotted capital I, where lower-casing can lengthen a token. *)
Theorem keyword_search_without_keywords :
  forall (st : Store) (query : str) (document_type : option str) (k : Z)
    (wide_st : Wide.Store) (wide_query : Wide.wstr)
    (wide_document_type : option Wide.wstr),
    ((forall word, In word (split (lower query)) -> len word <= 2) ->
     keywords_of (lower query) = []
     /\ keyword_search st query document_type k = []
     /\ (forall (collection_name : str) (rec : StoredRecord) (results : list SearchResult),
           scan_document (keywords_of (lower query)) collection_name rec results
           = (Ok tt, results)))
    /\ ((forall word, In word (split query) -> len word <= 2) ->
        (forall word, In word (split (lower query)) -> len word <= 2)
        /\ keyword_search st query document_type k = [])
    /\ ((forall word, In word (Wide.split (Wide.lower wide_query)) -> len word <= 2) ->
        Wide.keywords_of (Wide.lower wide_query) = []
        /\ Wide.keyword_search wide_st wide_query wide_document_type k = []).
Proof.
  intros st query document_type k wide_st wide_query wide_document_type.
  assert (Hlatin : (forall word, In word (split (lower query)) -> len word <= 2) ->
                   keywords_of (lower query) = []
                   /\ keyword_search st query document_type k = []).
  { intros Hshort.
    assert (Hkw : keywords_of (lower query) = []).
    { rewrite keywords_of_eq. apply filter_none.
      intros word Hin. apply gtb_false. apply Hshort. exact Hin. }
    assert (Hspec : spec_keywords query = []).
    { unfold spec_keywords. rewrite <- keywords_of_eq. exact Hkw. }
    split; [exact Hkw |].
    unfold keyword_search. rewrite keyword_results_eq, Hspec.
    rewrite flat_map_none.
    - cbn [sort_by]. unfold slice. rewrite skipn_nil, firstn_nil. reflexivity.
    - intros named. unfold spec_keyword_hits.
      destruct (coll_get (snd named)); [| reflexivity].
      apply flat_map_none. intros rec. reflexivity. }
  split; [| split].
  - intros Hshort. destruct (Hlatin Hshort) as [Hkw Hempty].
    split; [exact Hkw |]. split; [exact Hempty |].
    intros collection_name rec results.
    rewrite scan_document_run, Hkw. cbn. rewrite app_nil_r. reflexivity.
  - intros Hshort.
    assert (Hlower : forall word, In word (split (lower query)) -> len word <= 2).
    { intros word Hin. rewrite split_lower in Hin.
      apply in_map_iff in Hin. destruct Hin as (w & <- & Hin).
      unfold lower, len. rewrite length_map. apply (Hshort w Hin). }
    split; [exact Hlower | apply Hlatin; exact Hlower].
  - intros Hshort.
    assert (Hkw : Wide.keywords_of (Wide.lower wide_query) = []).
    { rewrite wide_keywords_of_eq. apply filter_none.
      intros word Hin. apply gtb_false. apply Hshort. exact Hin. }
    split; [exact Hkw |].
    unfold Wide.keyword_search, Wide.keyword_results. rewrite Hkw.
    change (Wide.scan_collection [])
      with (fun named => try_pass (Wide.scan_collection_block [] named)).
    rewrite exec_for_each_try_pass.
    rewrite (fold_left_ext _ (fun results _ => results))
      by (intros; apply wide_scan_without_keywords).
    assert (Hfold : forall (l : list (str * Wide.Collection)) (acc : list Wide.SearchResult),
               fold_left (fun results _ => results) l acc = acc).
    { induction l as [| x l IH]; intros acc; [reflexivity | apply IH]. }
    rewrite Hfold. cbn [sort_by]. unfold slice. rewrite skipn_nil, firstn_nil. reflexivity.
Qed.

Lemma keyword_search_without_keywords_witness :
  (keywords_of (lower (lit "Is it OK")) = []
   /\ keyword_search small_store (lit "Is it OK") None 3 = []
   /\ (forall (collection_name : str) (rec : StoredRecord) (results : list SearchResult),
         scan_document (keywords_of (lower (lit "Is it OK"))) collection_name rec results
         = (Ok tt, results)))
  /\ ((forall word, In word (split (lower (lit "Is it OK"))) -> len word <= 2)
      /\ keyword_search small_store (lit "Is it OK") None 3 = [])
  /\ (Wide.keywords_of (Wide.lower dotted_short_query) = []
      /\ Wide.keyword_search dotted_store dotted_short_query None 3 = []).
Proof.
  pose proof (keyword_search_without_keywords small_store (lit "Is it OK") None 3
                dotted_store dotted_short_query None) as (H1 & H2 & H3).
  split; [| split].
  - apply H1. intros word Hin. vm_compute in Hin.
    destruct Hin as [<- | [<- | [<- | []]]]; vm_compute; discriminate.
  - apply H2. intros word Hin. vm_compute in Hin.
    destruct Hin as [<- | [<- | [<- | []]]]; vm_compute; discriminate.
  - apply H3. intros word Hin. vm_compute in Hin.
    destruct Hin as [<- | [<- | []]]; vm_compute; discriminate.
Defined.

(** C10 (the claim as stated fails). The query [dotted_word] is one token of
    2 characters, so no token of the query is longer than 2 characters; its
    lower case has 3, so it is a keyword, and [keyword_search] returns the
    record of [dotted_store] that holds it. *)
Lemma short_token_becomes_a_keyword :
  Wide.split dotted_word = [dotted_word]
  /\ len dotted_word = 2
  /\ Wide.keywords_of (Wide.lower dotted_word)
     = [[Wide.Latin "i"%char; Wide.combining_dot; Wide.Latin "l"%char]]
  /\ map Wide.content (Wide.keyword_search dotted_store dotted_word None 3)
     = [dotted_word].
Proof. vm_compute. repeat split. Qed.

(** * Retrieval merge *)

Lemma unique_fold (l : list SearchResult) (seen_content : list str)
    (acc : list SearchResult) :
  snd (fold_left unique_step l (seen_content, acc)) = acc ++ unique_from seen_content l.
Proof.
  revert seen_content acc. induction l as [| r l IH]; intros seen_content acc.
  - cbn. rewrite app_nil_r. reflexivity.
  - cbn [fold_left unique_from]. unfold unique_step at 2. cbn [fst snd].
    fold (signature r). destruct (seen (signature r) seen_content); cbn [negb].
    + apply IH.
    + rewrite IH, <- app_assoc. reflexivity.
Qed.

Lemma unique_results_from (l : list SearchResult) : unique_results l = unique_from [] l.
Proof. unfold unique_results. rewrite unique_fold. reflexivity. Qed.

(** Only the membership in [seen_content] matters. *)
Lemma unique_from_ext (s1 s2 : list str) (l : list SearchResult) :
  (forall key, seen key s1 = seen key s2) -> unique_from s1 l = unique_from s2 l.
Proof.
  revert s1 s2. induction l as [| r l IH]; intros s1 s2 H; [reflexivity |].
  cbn [unique_from]. rewrite (H (signature r)).
  destruct (seen (signature r) s2); [apply IH; exact H |].
  f_equal. apply IH. intros key. unfold seen in *. cbn [existsb]. rewrite H. reflexivity.
Qed.

Lemma str_eqb_sym (a b : str) : str_eqb a b = str_eqb b a.
Proof.
  destruct (str_eqb a b) eqn:E1; destruct (str_eqb b a) eqn:E2; try reflexivity.
  - apply str_eqb_eq in E1. subst b. rewrite str_eqb_refl in E2. discriminate E2.
  - apply str_eqb_eq in E2. subst b. rewrite str_eqb_refl in E1. discriminate E1.
Qed.

(** A signature already seen acts as a filter on what follows. *)
Lemma unique_from_seen (sig : str) (seen_content : list str) (l : list SearchResult) :
  unique_from (sig :: seen_content) l = unique_from seen_content (without_signature sig l).
Proof.
  revert seen_content. induction l as [| r l IH]; intros seen_content; [reflexivity |].
  cbn [unique_from without_signature filter].
  unfold seen at 1. cbn [existsb]. fold (seen (signature r) seen_content).
  destruct (str_eqb (signature r) sig) eqn:E; cbn [negb orb].
  - apply IH.
  - fold (without_signature sig l). cbn [unique_from].
    destruct (seen (signature r) seen_content); [apply IH |].
    f_equal. rewrite <- IH. apply unique_from_ext.
    intros key. unfold seen. cbn [existsb].
    destruct (str_eqb key (signature r)); destruct (str_eqb key sig); reflexivity.
Qed.

(** The first result is kept, and every later result with its signature is
    dropped. *)
Lemma unique_results_cons (r : SearchResult) (l : list SearchResult) :
  unique_results (r :: l) = r :: unique_results (without_signature (signature r) l).
Proof.
  rewrite !unique_results_from. cbn [unique_from seen existsb].
  f_equal. apply unique_from_seen.
Qed.

Lemma seen_true_iff (key : str) (seen_content : list str) :
  seen key seen_content = true <-> In key seen_content.
Proof.
  unfold seen. rewrite existsb_exists. split.
  - intros [x [Hin Heq]]. apply str_eqb_eq in Heq. subst x. exact Hin.
  - intros Hin. exists key. split; [exact Hin | apply str_eqb_refl].
Qed.

Lemma unique_from_fresh (seen_content : list str) (l : list SearchResult) (r : SearchResult) :
  In r (unique_from seen_content l) -> ~ In (signature r) seen_content /\ In r l.
Proof.
  revert seen_content. induction l as [| x l IH]; intros seen_content Hin; [destruct Hin |].
  cbn [unique_from] in Hin.
  destruct (seen (signature x) seen_content) eqn:E.
  - apply IH in Hin. split; [apply Hin | right; apply Hin].
  - destruct Hin as [-> | Hin].
    + split; [| left; reflexivity].
      intros H. apply seen_true_iff in H. congruence.
    + apply IH in Hin. destruct Hin as [Hfresh Hin].
      split; [| right; exact Hin].
      intros H. apply Hfresh. right. exact H.
Qed.

Lemma unique_from_nodup (seen_content : list str) (l : list SearchResult) :
  NoDup (map signature (unique_from seen_content l)).
Proof.
  revert seen_content. induction l as [| x l IH]; intros seen_content; [constructor |].
  cbn [unique_from]. destruct (seen (signature x) seen_content); [apply IH |].
  cbn [map]. constructor; [| apply IH].
  intros Hin. apply in_map_iff in Hin. destruct Hin as [r [Hsig Hin]].
  apply unique_from_fresh in Hin. destruct Hin as [Hfresh _].
  apply Hfresh. left. symmetry. exact Hsig.
Qed.

Lemma unique_from_covers (seen_content : list str) (l : list SearchResult) (r : SearchResult) :
  In r l -> ~ In (signature r) seen_content ->
  In (signature r) (map signature (unique_from seen_content l)).
Proof.
  revert seen_content. induction l as [| x l IH]; intros seen_content Hin Hfresh;
    [destruct Hin |].
  cbn [unique_from]. destruct (seen (signature x) seen_content) eqn:E.
  - destruct Hin as [-> | Hin]; [apply seen_true_iff in E; contradiction |].
    apply IH; assumption.
  - cbn [map]. destruct Hin as [-> | Hin]; [left; reflexivity |].
    destruct (str_eqb (signature x) (signature r)) eqn:Ex.
    + left. apply str_eqb_eq. exact Ex.
    + right. apply IH; [exact Hin |].
      intros [Heq | H]; [| contradiction].
      rewrite Heq, str_eqb_refl in Ex. discriminate Ex.
Qed.

Lemma any_term_iff (terms : list str) (query_lower : str) :
  any_term terms query_lower = true
  <-> exists term, In term terms /\ contains term query_lower = true.
Proof. unfold any_term. apply existsb_exists. Qed.

Lemma should_try_keyword_iff (query_lower : str) (results : list SearchResult) :
  should_try_keyword query_lower results = true
  <-> any_term high_priority_terms query_lower = true
      \/ (any_term specific_terms query_lower = true /\ len results < 2).
Proof.
  unfold should_try_keyword.
  destruct (any_term high_priority_terms query_lower); [intuition |].
  destruct (any_term specific_terms query_lower); cbn [andb].
  - destruct (len results <? 2) eqn:E; [apply Z.ltb_lt in E | apply Z.ltb_ge in E];
      intuition (try discriminate; try lia).
  - intuition discriminate.
Qed.

(** What has been seen after a list is what was seen before and the
    signatures of the list. *)
Lemma unique_from_app (seen_content : list str) (a b : list SearchResult) :
  unique_from seen_content (a ++ b)
  = unique_from seen_content a ++ unique_from (map signature a ++ seen_content) b.
Proof.
  revert seen_content. induction a as [| r a IH]; intros seen_content; [reflexivity |].
  cbn [app unique_from map].
  destruct (seen (signature r) seen_content) eqn:E.
  - rewrite IH. f_equal. apply unique_from_ext.
    intros key. unfold seen in *. cbn [existsb].
    destruct (str_eqb key (signature r)) eqn:Ek; [| reflexivity].
    apply str_eqb_eq in Ek. subst key.
    rewrite existsb_app, E. apply orb_true_r.
  - cbn [app]. f_equal. rewrite IH. f_equal. apply unique_from_ext.
    intros key. unfold seen. cbn [existsb]. rewrite !existsb_app. cbn [existsb].
    destruct (existsb (str_eqb key) (map signature a));
      destruct (str_eqb key (signature r));
      destruct (existsb (str_eqb key) seen_content); reflexivity.
Qed.

Lemma NoDup_firstn {A : Type} (n : nat) (l : list A) : NoDup l -> NoDup (firstn n l).
Proof.
  revert n. induction l as [| x l IH]; intros n H; [rewrite firstn_nil; constructor |].
  destruct n as [| n]; [constructor |].
  inversion H as [| ? ? Hx Hl]; subst. cbn [firstn].
  constructor; [| apply IH; exact Hl].
  intros Hin. apply Hx. apply (in_firstn x n l). exact Hin.
Qed.

(** C7. In [retrieve_context] keyword search runs exactly when the
    lower-cased query contains a high-priority term, or contains a specific
    term while semantic search returned fewer than 2 results. When it runs,
    the result is the first [k] of the combined list, keyword results before
    semantic results, in which a result is kept only at the first occurrence
    of its signature (the first 100 characters of its content): the keyword
    results without their own repetitions, followed by the semantic results
    whose signature no keyword result and no earlier semantic result has. So
    no two results share a signature, every result is a keyword result or a
    semantic result with a signature no keyword result has, the first
    keyword result is the first result when [k] is at least 1, and the
    signature of every combined result is among the results when nothing is
    cut. When keyword search does not run, the semantic results are returned
    unchanged. The deduplication loop of the source keeps the first result
    and drops every later result with its signature. *)
Theorem retrieve_context_merges_keyword_hits_first :
  forall (embed_content : EmbedService) (metric : Embedding -> Embedding -> Q)
    (st : Store) (query : str) (document_type : option str) (k : Z),
    0 <= k ->
    let semantic := search_documents embed_content metric st query document_type k in
    let keyword := keyword_search st query document_type k in
    let context := retrieve_context embed_content metric st query document_type k in
    (should_try_keyword (lower query) semantic = true
     <-> (exists term, In term high_priority_terms /\ contains term (lower query) = true)
         \/ ((exists term, In term specific_terms /\ contains term (lower query) = true)
             /\ len semantic < 2))
    /\ (should_try_keyword (lower query) semantic = true ->
        context = firstn (Z.to_nat k) (unique_from [] (keyword ++ semantic))
        /\ context
           = firstn (Z.to_nat k)
               (unique_from [] keyword ++ unique_from (map signature keyword) semantic)
        /\ NoDup (map signature context)
        /\ (forall r,
              In r context ->
              In r keyword
              \/ (In r semantic /\ ~ In (signature r) (map signature keyword)))
        /\ (forall r rest,
              keyword = r :: rest -> 1 <= k -> exists others, context = r :: others)
        /\ (forall r,
              In r (keyword ++ semantic) ->
              len (unique_from [] (keyword ++ semantic)) <= k ->
              In (signature r) (map signature context)))
    /\ (should_try_keyword (lower query) semantic = false -> context = semantic)
    /\ (forall l, unique_results l = unique_from [] l)
    /\ unique_results [] = []
    /\ (forall r l,
          unique_results (r :: l) = r :: unique_results (without_signature (signature r) l))
    /\ (forall l, NoDup (map signature (unique_results l)))
    /\ (forall l r, In r l -> In (signature r) (map signature (unique_results l)))
    /\ (forall l r, In r (unique_results l) -> In r l).
Proof.
  intros embed_content metric st query document_type k Hk semantic keyword context.
  split; [| split; [| split; [| split; [| split; [| split; [| split; [| split]]]]]]].
  - rewrite should_try_keyword_iff, !any_term_iff. reflexivity.
  - intros Htry.
    assert (Hctx : context = firstn (Z.to_nat k) (unique_from [] (keyword ++ semantic))).
    { subst context. unfold retrieve_context. fold semantic. rewrite Htry.
      fold keyword. rewrite slice_prefix by exact Hk.
      rewrite unique_results_from. reflexivity. }
    assert (Hsplit : unique_from [] (keyword ++ semantic)
                     = unique_from [] keyword
                       ++ unique_from (map signature keyword) semantic).
    { rewrite unique_from_app, app_nil_r. reflexivity. }
    split; [exact Hctx |]. split; [rewrite Hctx, Hsplit; reflexivity |].
    split; [| split; [| split]].
    + rewrite Hctx, <- firstn_map. apply NoDup_firstn, unique_from_nodup.
    + intros r Hin. rewrite Hctx, Hsplit in Hin. apply in_firstn in Hin.
      apply in_app_or in Hin. destruct Hin as [Hin | Hin].
      * left. apply unique_from_fresh in Hin. apply Hin.
      * right. apply unique_from_fresh in Hin. destruct Hin as [Hfresh Hin].
        split; assumption.
    + intros r rest Hkw Hk1. rewrite Hctx, Hkw. cbn [app unique_from seen existsb].
      destruct (Z.to_nat k) as [| n] eqn:En; [lia |].
      cbn [firstn]. eexists. reflexivity.
    + intros r Hin Hfit. rewrite Hctx, firstn_all2 by (unfold len in Hfit; lia).
      apply unique_from_covers; [exact Hin | intros []].
  - intros Htry. subst context. unfold retrieve_context. fold semantic.
    rewrite Htry. reflexivity.
  - apply unique_results_from.
  - reflexivity.
  - apply unique_results_cons.
  - intros l. rewrite unique_results_from. apply unique_from_nodup.
  - intros l r Hin. rewrite unique_results_from.
    apply unique_from_covers; [exact Hin | intros []].
  - intros l r Hin. rewrite unique_results_from in Hin.
    apply unique_from_fresh in Hin. apply Hin.
Qed.

(** On [small_store] the query [zippy tool grounding] with [k = 2] has the
    keyword results Zippy (2 matches) and Grounding (1 match) and the
    semantic results Wiring and Zippy: the keyword results come first, the
    second Zippy is dropped as a repetition and Wiring is cut. The query
    [wiring] holds no trigger term and gets the semantic results. *)
Lemma retrieve_context_witness :
  (map content
     (keyword_search small_store (lit "zippy tool grounding") None 2)
   = [lit "Zippy the design tool"; lit "Grounding of circuits"]
   /\ map content
        (search_documents unit_embed first_coordinate_metric small_store
           (lit "zippy tool grounding") None 2)
      = [lit "Wiring and voltage"; lit "Zippy the design tool"]
   /\ map content
        (retrieve_context unit_embed first_coordinate_metric small_store
           (lit "zippy tool grounding") None 2)
      = [lit "Zippy the design tool"; lit "Grounding of circuits"])
  /\ map content
       (retrieve_context unit_embed first_coordinate_metric small_store
          (lit "wiring") None 2)
     = [lit "Wiring and voltage"; lit "Zippy the design tool"].
Proof.
  assert (Hk : 0 <= 2) by lia.
  pose proof (retrieve_context_merges_keyword_hits_first unit_embed
                first_coordinate_metric small_store (lit "zippy tool grounding")
                None 2 Hk) as Hrun.
  pose proof (retrieve_context_merges_keyword_hits_first unit_embed
                first_coordinate_metric small_store (lit "wiring") None 2 Hk) as Hskip.
  cbv zeta in Hrun, Hskip.
  destruct Hrun as (_ & Hrun & _). destruct Hskip as (_ & _ & Hskip & _).
  split; [split; [| split] |].
  - vm_compute. reflexivity.
  - vm_compute. reflexivity.
  - destruct Hrun as (_ & Hsplit & _); [vm_compute; reflexivity |].
    rewrite Hsplit. vm_compute. reflexivity.
  - rewrite Hskip by (vm_compute; reflexivity). vm_compute. reflexivity.
Defined.

(** * Intent classification *)

Lemma score_eq (keywords : list str) (query_lower : str) :
  score keywords query_lower
  = len (filter (fun keyword => contains keyword query_lower) keywords).
Proof. exact (match_count_eq keywords query_lower). Qed.

Lemma score_nonneg (keywords : list str) (query_lower : str) :
  0 <= score keywords query_lower.
Proof. rewrite score_eq. apply len_nonneg. Qed.

Lemma startswith_prefixes (p s : str) : startswith s p = true -> In p (prefixes s).
Proof.
  revert s. induction p as [| x p IH]; intros s H.
  - destruct s; left; reflexivity.
  - destruct s as [| y s]; [discriminate H |].
    cbn [startswith] in H. apply andb_true_iff in H. destruct H as [Hxy H].
    apply Ascii.eqb_eq in Hxy. subst y.
    cbn [prefixes]. right. apply in_map. apply IH. exact H.
Qed.

(** A string that occurs in [s] is one of the substrings of [s]. *)
Lemma contains_substrings (p s : str) : contains p s = true -> In p (substrings s).
Proof.
  induction s as [| c s IH]; cbn [contains substrings]; intros H.
  - rewrite orb_false_r in H. apply in_or_app. left. apply startswith_prefixes. exact H.
  - apply orb_true_iff in H. apply in_or_app.
    destruct H as [H | H]; [left; apply startswith_prefixes; exact H | right; apply IH; exact H].
Qed.

(** On a tie of the two scores the classifier as stated looks at its two
    anchors only. *)
Lemma classify_as_stated_tie (nec_anchor wattmonk_anchor query : str) :
  score nec_keywords (lower query) = score wattmonk_keywords (lower query) ->
  classify_as_stated nec_anchor wattmonk_anchor query
  = if contains nec_anchor (lower query)
    then mkIntent (lit "nec") 1 (Some (lit "nec"))
    else if contains wattmonk_anchor (lower query)
    then mkIntent (lit "wattmonk") 1 (Some (lit "wattmonk"))
    else mkIntent (lit "general") 0 None.
Proof.
  intros Htie. unfold classify_as_stated. rewrite Htie.
  rewrite (gtb_false (score wattmonk_keywords (lower query))
             (score wattmonk_keywords (lower query))) by lia.
  reflexivity.
Qed.

(** C8 (the claim as the specification states it fails). No choice of one
    anchor term per corpus gives the classifier of the source: the queries
    [electrical] and [nec zippy] are both classified as electrical code with
    confidence 1 on a tie of the scores, so the anchor of that corpus would
    occur in both, hence in [eci], which the source classifies as general. *)
Lemma no_single_anchor_per_corpus :
  ~ exists nec_anchor wattmonk_anchor : str,
      forall query, classify_intent query = classify_as_stated nec_anchor wattmonk_anchor query.
Proof.
  intros [nec_anchor [wattmonk_anchor H]].
  pose proof (H (lit "electrical")) as H1.
  pose proof (H (lit "nec zippy")) as H2.
  pose proof (H (lit "eci")) as H3.
  rewrite classify_as_stated_tie in H1, H2, H3 by (vm_compute; reflexivity).
  replace (lower (lit "electrical")) with (lit "electrical") in H1 by (vm_compute; reflexivity).
  replace (lower (lit "nec zippy")) with (lit "nec zippy") in H2 by (vm_compute; reflexivity).
  replace (lower (lit "eci")) with (lit "eci") in H3 by (vm_compute; reflexivity).
  destruct (contains nec_anchor (lit "electrical")) eqn:E1.
  2:{ destruct (contains wattmonk_anchor (lit "electrical"));
        vm_compute in H1; discriminate H1. }
  destruct (contains nec_anchor (lit "nec zippy")) eqn:E2.
  2:{ destruct (contains wattmonk_anchor (lit "nec zippy"));
        vm_compute in H2; discriminate H2. }
  assert (E3 : contains nec_anchor (lit "eci") = true).
  { apply contains_substrings in E1.
    assert (Hall : forallb (fun p => implb (contains p (lit "nec zippy"))
                                       (contains p (lit "eci")))
                     (substrings (lit "electrical")) = true)
      by (vm_compute; reflexivity).
    rewrite forallb_forall in Hall. specialize (Hall nec_anchor E1).
    rewrite E2 in Hall. exact Hall. }
  rewrite E3 in H3. vm_compute in H3. discriminate H3.
Qed.

(** C8 (amended). [classify_intent] counts the keywords of each of the two
    fixed vocabularies that occur in the lower-cased query. The vocabulary
    with the strictly higher count wins with confidence equal to its count.
    On a tie (both zero included) it falls back to anchor terms, two per
    corpus: [nec] or [electrical] anywhere in the query forces the
    electrical-code intent with confidence 1; otherwise [wattmonk] or
    [company] forces the company intent with confidence 1; otherwise the
    intent is general with confidence 0 and no corpus filter. The three
    queries of the specification classify to the electrical-code corpus, the
    company corpus, and general with confidence 0. *)
Theorem classify_intent_rule :
  (forall query : str,
      score nec_keywords (lower query)
      = len (filter (fun keyword => contains keyword (lower query)) nec_keywords)
      /\ score wattmonk_keywords (lower query)
         = len (filter (fun keyword => contains keyword (lower query)) wattmonk_keywords)
      /\ (score wattmonk_keywords (lower query) < score nec_keywords (lower query) ->
          classify_intent query
          = mkIntent (lit "nec") (score nec_keywords (lower query)) (Some (lit "nec")))
      /\ (score nec_keywords (lower query) < score wattmonk_keywords (lower query) ->
          classify_intent query
          = mkIntent (lit "wattmonk") (score wattmonk_keywords (lower query))
              (Some (lit "wattmonk")))
      /\ (score nec_keywords (lower query) = score wattmonk_keywords (lower query) ->
          contains (lit "nec") (lower query) || contains (lit "electrical") (lower query)
          = true ->
          classify_intent query = mkIntent (lit "nec") 1 (Some (lit "nec")))
      /\ (score nec_keywords (lower query) = score wattmonk_keywords (lower query) ->
          contains (lit "nec") (lower query) || contains (lit "electrical") (lower query)
          = false ->
          contains (lit "wattmonk") (lower query) || contains (lit "company") (lower query)
          = true ->
          classify_intent query = mkIntent (lit "wattmonk") 1 (Some (lit "wattmonk")))
      /\ (score nec_keywords (lower query) = score wattmonk_keywords (lower query) ->
          contains (lit "nec") (lower query) || contains (lit "electrical") (lower query)
          = false ->
          contains (lit "wattmonk") (lower query) || contains (lit "company") (lower query)
          = false ->
          classify_intent query = mkIntent (lit "general") 0 None))
  /\ classify_intent (lit "What is the grounding requirement for circuits?")
     = mkIntent (lit "nec") 2 (Some (lit "nec"))
  /\ classify_intent (lit "What does Wattmonk's platform do?")
     = mkIntent (lit "wattmonk") 2 (Some (lit "wattmonk"))
  /\ classify_intent (lit "What's the weather today?")
     = mkIntent (lit "general") 0 None.
Proof.
  split; [| repeat split; vm_compute; reflexivity].
  intros query.
  pose proof (score_nonneg nec_keywords (lower query)) as Hn.
  pose proof (score_nonneg wattmonk_keywords (lower query)) as Hw.
  split; [apply score_eq |]. split; [apply score_eq |].
  unfold classify_intent.
  set (n := score nec_keywords (lower query)) in *.
  set (w := score wattmonk_keywords (lower query)) in *.
  split; [| split; [| split; [| split]]].
  - intros H. rewrite !gtb_true by lia. reflexivity.
  - intros H. rewrite (gtb_false n w), (gtb_true w n), (gtb_true w 0) by lia. reflexivity.
  - intros H Hnec. rewrite (gtb_false n w), (gtb_false w n) by lia.
    cbn [andb]. rewrite Hnec. reflexivity.
  - intros H Hnec Hwatt. rewrite (gtb_false n w), (gtb_false w n) by lia.
    cbn [andb]. rewrite Hnec, Hwatt. reflexivity.
  - intros H Hnec Hwatt. rewrite (gtb_false n w), (gtb_false w n) by lia.
    cbn [andb]. rewrite Hnec, Hwatt. reflexivity.
Qed.

Lemma classify_intent_witness :
  classify_intent (lit "Electrical") = mkIntent (lit "nec") 1 (Some (lit "nec"))
  /\ classify_intent (lit "circuit voltage solar")
     = mkIntent (lit "nec") (score nec_keywords (lower (lit "circuit voltage solar")))
         (Some (lit "nec")).
Proof.
  split.
  - apply (proj1 classify_intent_rule (lit "Electrical")); vm_compute; reflexivity.
  - apply (proj1 classify_intent_rule (lit "circuit voltage solar")).
    vm_compute. reflexivity.
Defined.

(** * The task type of embedding requests *)






(** * Further properties of the chunker *)

Lemma lstrip_idempotent (s : str) : lstrip (lstrip s) = lstrip s.
Proof.
  induction s as [| c s IH]; [reflexivity |].
  cbn [lstrip]. destruct (isspace c) eqn:E; [exact IH |].
  cbn [lstrip]. rewrite E. reflexivity.
Qed.

Lemma lstrip_head (s r : str) (c : ascii) : lstrip s = c :: r -> isspace c = false.
Proof.
  induction s as [| x s IH]; [discriminate |].
  cbn [lstrip]. destruct (isspace x) eqn:E; [exact IH |].
  intros H. injection H as <- _. exact E.
Qed.

(** [lstrip] returns a suffix. *)
Lemma lstrip_suffix (s : str) : exists p, s = p ++ lstrip s.
Proof.
  induction s as [| c s [p IH]]; [exists []; reflexivity |].
  cbn [lstrip]. destruct (isspace c).
  - exists (c :: p). cbn [app]. f_equal. exact IH.
  - exists []. reflexivity.
Qed.

(** Stripping a stripped string changes nothing. *)
Lemma strip_idempotent (s : str) : strip (strip s) = strip s.
Proof.
  unfold strip, rstrip.
  set (t := lstrip s). set (u := lstrip (rev t)).
  assert (Hfix : lstrip (rev u) = rev u).
  { destruct (rev u) as [| h r] eqn:Hr; [reflexivity |].
    destruct (lstrip_suffix (rev t)) as [p Hp]. fold u in Hp.
    apply (f_equal (@rev ascii)) in Hp. rewrite rev_involutive, rev_app_distr, Hr in Hp.
    cbn [lstrip].
    replace (isspace h) with false; [reflexivity |].
    symmetry. apply (lstrip_head s (r ++ rev p)). fold t. rewrite Hp. reflexivity. }
  rewrite Hfix, rev_involutive. unfold u. rewrite lstrip_idempotent. reflexivity.
Qed.

(** An iteration keeps the chunks it had and appends at most one kept chunk. *)
Lemma chunk_body_chunks (text : str) (chunk_size overlap : Z) (st : chunk_state) :
  Forall kept_chunk (chunks st) ->
  Forall kept_chunk (chunks (chunk_body text chunk_size overlap st))
  /\ len (chunks (chunk_body text chunk_size overlap st)) <= len (chunks st) + 1.
Proof.
  intros Hkept. unfold chunk_body.
  destruct (chunk_window text chunk_size (start st)) as [chunk end_].
  cbn [chunks].
  destruct (len (strip chunk) >? 100) eqn:E.
  - apply gtb_true_inv in E. split.
    + apply Forall_app. split; [exact Hkept |].
      constructor; [| constructor]. split; [exact E | apply strip_idempotent].
    + rewrite len_app. cbn. lia.
  - split; [exact Hkept | lia].
Qed.

Lemma chunk_loop_chunks (text : str) (chunk_size overlap max_chunks : Z) :
  forall (fuel : nat) (st : chunk_state) (result : list str),
    Forall kept_chunk (chunks st) ->
    len (chunks st) <= Z.max 0 max_chunks ->
    chunk_loop fuel text chunk_size overlap max_chunks st = Some result ->
    Forall kept_chunk result /\ len result <= Z.max 0 max_chunks.
Proof.
  induction fuel as [| fuel IH]; intros st result Hkept Hlen Hrun; cbn [chunk_loop] in Hrun.
  - destruct (chunk_cond text max_chunks st); [discriminate Hrun |].
    injection Hrun as <-. auto.
  - destruct (chunk_cond text max_chunks st) eqn:E.
    + destruct (chunk_body_chunks text chunk_size overlap st Hkept) as [Hk Hl].
      apply IH in Hrun; [exact Hrun | exact Hk |].
      unfold chunk_cond in E. apply andb_true_iff in E. destruct E as [_ E].
      apply Z.ltb_lt in E. lia.
    + injection Hrun as <-. auto.
Qed.

(** X1. Whenever [chunk_text] returns, every chunk it returns has more than
    100 characters and no white space at either end, and there are at most
    [max_chunks] of them (none when [max_chunks] is not positive). *)
Theorem chunk_text_returns_kept_chunks :
  forall (fuel : nat) (text : str) (chunk_size overlap max_chunks : Z) (result : list str),
    chunk_text fuel text chunk_size overlap max_chunks = Some result ->
    Forall kept_chunk result /\ len result <= Z.max 0 max_chunks.
Proof.
  intros fuel text chunk_size overlap max_chunks result Hrun.
  unfold chunk_text in Hrun.
  apply chunk_loop_chunks in Hrun; [exact Hrun | constructor |].
  cbn. lia.
Qed.

Lemma chunk_text_returns_kept_chunks_witness :
  Forall kept_chunk [long_text] /\ len [long_text] <= Z.max 0 5.
Proof.
  apply (chunk_text_returns_kept_chunks 10 long_text 300 0 5 [long_text]).
  vm_compute. reflexivity.
Defined.

(** The text the loop of [chunk_text] runs on is not empty when the input is
    not, and is not longer. *)
Lemma truncated_text_bounds (text : str) :
  text <> [] ->
  0 < len (if len text >? 500000 then slice text 0 500000 else text) <= len text.
Proof.
  intros Hne.
  assert (Hpos : 0 < len text).
  { destruct text; [contradiction | unfold len; cbn [List.length]; lia]. }
  destruct (len text >? 500000) eqn:E; [| lia].
  apply gtb_true_inv in E. rewrite slice_prefix by lia.
  unfold len in *. rewrite length_firstn. lia.
Qed.

(** X2. With a positive overlap, a text that is not empty and a chunk cap
    that is not negative, [chunk_text] returns only by reaching the cap:
    whenever it returns, it returns exactly [max_chunks] chunks. *)
Theorem chunk_text_returns_at_cap_only :
  forall (fuel : nat) (text : str) (chunk_size overlap max_chunks : Z) (result : list str),
    0 < overlap ->
    text <> [] ->
    0 <= max_chunks ->
    chunk_text fuel text chunk_size overlap max_chunks = Some result ->
    len result = max_chunks.
Proof.
  intros fuel text chunk_size overlap max_chunks result Hov Hne Hmax Hrun.
  unfold chunk_text in Hrun.
  pose proof (truncated_text_bounds text Hne) as Hlen.
  set (loop_text := if len text >? 500000 then slice text 0 500000 else text) in *.
  assert (Hup : len result <= Z.max 0 max_chunks).
  { apply (chunk_loop_chunks loop_text chunk_size overlap max_chunks fuel
             (mkChunkState 0 []) result); [constructor | cbn; lia | exact Hrun]. }
  assert (Hlow : max_chunks <= len result).
  { apply (chunk_loop_stops_at_cap_only loop_text chunk_size overlap max_chunks Hov fuel
             (mkChunkState 0 []) result); [cbn; lia | exact Hrun]. }
  lia.
Qed.

Lemma chunk_text_returns_at_cap_only_witness :
  len [long_text; skipn 100 long_text; skipn 100 long_text] = 3.
Proof.
  apply (chunk_text_returns_at_cap_only 10 long_text 2000 200 3
           [long_text; skipn 100 long_text; skipn 100 long_text]).
  - lia.
  - discriminate.
  - lia.
  - vm_compute. reflexivity.
Defined.

(** A window that starts inside the text ends beyond its start. *)
Lemma chunk_window_end_gt (text : str) (chunk_size start : Z) :
  1 <= chunk_size -> 0 <= start < len text ->
  start < snd (chunk_window text chunk_size start).
Proof.
  intros Hsize Hstart. unfold chunk_window.
  set (end_ := if start + chunk_size >? len text then len text else start + chunk_size).
  assert (Hend : start < end_).
  { unfold end_. destruct (start + chunk_size >? len text); lia. }
  destruct (end_ <? len text); [| exact Hend].
  set (chunk := slice text start end_).
  destruct (Z.max (rfind "."%char chunk) (rfind newline chunk) >? start + chunk_size / 2)
    eqn:E; [| exact Hend].
  apply gtb_true_inv in E. cbn [snd].
  assert (0 <= chunk_size / 2) by (apply Z.div_pos; lia).
  lia.
Qed.

(** Without overlap the cursor advances, and the loop ends within
    [len text - start] iterations. *)
Lemma chunk_loop_terminates (text : str) (chunk_size overlap max_chunks : Z) :
  1 <= chunk_size -> overlap <= 0 ->
  forall (fuel : nat) (st : chunk_state),
    0 <= start st ->
    len text - start st < Z.of_nat (S fuel) ->
    exists result, chunk_loop fuel text chunk_size overlap max_chunks st = Some result.
Proof.
  intros Hsize Hov fuel. induction fuel as [| fuel IH]; intros st Hstart Hfuel;
    cbn [chunk_loop].
  - destruct (chunk_cond text max_chunks st) eqn:E; [| eexists; reflexivity].
    unfold chunk_cond in E. apply andb_true_iff in E. destruct E as [E _].
    apply Z.ltb_lt in E. lia.
  - destruct (chunk_cond text max_chunks st) eqn:E; [| eexists; reflexivity].
    unfold chunk_cond in E. apply andb_true_iff in E. destruct E as [E _].
    apply Z.ltb_lt in E.
    pose proof (chunk_window_end_gt text chunk_size (start st) Hsize (conj Hstart E)) as Hgt.
    apply IH; rewrite chunk_body_start; lia.
Qed.

(** X3. [chunk_text] returns the empty list at once on an empty text or with
    a chunk cap that is not positive; and with a chunk size of at least 1 and
    an overlap that is not positive it returns within [len text] iterations
    of its loop, for every text and chunk cap. *)
Theorem chunk_text_terminates_without_overlap :
  forall (text : str) (chunk_size overlap max_chunks : Z),
    (forall fuel, chunk_text fuel [] chunk_size overlap max_chunks = Some [])
    /\ (max_chunks <= 0 ->
        forall fuel, chunk_text fuel text chunk_size overlap max_chunks = Some [])
    /\ (1 <= chunk_size -> overlap <= 0 ->
        exists result,
          chunk_text (List.length text) text chunk_size overlap max_chunks = Some result).
Proof.
  intros text chunk_size overlap max_chunks. split; [| split].
  - intros fuel. destruct fuel; reflexivity.
  - intros Hmax fuel. unfold chunk_text.
    assert (Hcond : forall t, chunk_cond t max_chunks (mkChunkState 0 []) = false).
    { intros t. unfold chunk_cond. cbn [chunks start].
      apply andb_false_iff. right. apply Z.ltb_ge. cbn. lia. }
    destruct fuel; cbn [chunk_loop]; rewrite Hcond; reflexivity.
  - intros Hsize Hov. unfold chunk_text.
    apply chunk_loop_terminates; [exact Hsize | exact Hov | cbn; lia |].
    cbn [start]. destruct (len text >? 500000) eqn:E.
    + pose proof (len_slice_le text 0 500000). unfold len in *. lia.
    + unfold len. lia.
Qed.

Lemma chunk_text_terminates_without_overlap_witness :
  exists result, chunk_text (List.length long_text) long_text 120 0 50 = Some result.
Proof.
  apply (proj2 (proj2 (chunk_text_terminates_without_overlap long_text 120 0 50))); lia.
Defined.

(** * Further properties of ingestion *)

Lemma enumerate_from_app {A : Type} (i : Z) (a b : list A) :
  enumerate_from i (a ++ b) = enumerate_from i a ++ enumerate_from (i + len a) b.
Proof.
  revert i. induction a as [| x a IH]; intros i; cbn [app enumerate_from].
  - f_equal. cbn. lia.
  - rewrite IH. do 3 f_equal. unfold len. cbn [List.length]. lia.
Qed.

Lemma enumerate_from_shift {A : Type} (b i : Z) (l : list A) :
  map (fun ic => (b + fst ic, snd ic)) (enumerate_from i l) = enumerate_from (b + i) l.
Proof.
  revert i. induction l as [| x l IH]; intros i; [reflexivity |].
  cbn [enumerate_from map fst snd]. rewrite IH. do 2 f_equal. lia.
Qed.

Lemma firstn_plus {A : Type} (n m : nat) (l : list A) :
  firstn (n + m) l = firstn n l ++ firstn m (skipn n l).
Proof.
  revert l. induction n as [| n IH]; intros l; [reflexivity |].
  destruct l as [| x l]; [cbn; rewrite firstn_nil; reflexivity |].
  cbn [Nat.add firstn skipn app]. f_equal. apply IH.
Qed.

(** A batch is the next ten elements. *)
Lemma slice_batch {A : Type} (l : list A) (b : Z) :
  0 <= b <= len l ->
  slice l b (Z.min (b + batch_size) (len l)) = firstn 10 (skipn (Z.to_nat b) l).
Proof.
  intros Hb. unfold slice, norm_index, batch_size.
  replace (b <? 0) with false by (symmetry; apply Z.ltb_ge; lia).
  replace (Z.min (b + 10) (len l) <? 0) with false by (symmetry; apply Z.ltb_ge; lia).
  rewrite (Z.min_l b) by lia.
  rewrite (Z.min_l (Z.min (b + 10) (len l))) by lia.
  destruct (Z.le_gt_cases (b + 10) (len l)) as [H | H].
  - rewrite Z.min_l by lia. f_equal. lia.
  - rewrite Z.min_r by lia.
    assert (Hlen : (List.length (skipn (Z.to_nat b) l) <= 10)%nat).
    { rewrite length_skipn. unfold len in *. lia. }
    rewrite (firstn_all2 (n := 10)) by exact Hlen.
    apply firstn_all2. rewrite length_skipn. unfold len in *. lia.
Qed.

(** The first [m] batches visit the first [10 * m] chunks, each with its
    index in the whole list. *)
Lemma batches_enumerate (chunks : list str) (m : nat) :
  (m = 0%nat \/ (Z.of_nat m - 1) * 10 < len chunks) ->
  flat_map
    (fun batch_start =>
       map (fun ic => (batch_start + fst ic, snd ic))
         (enumerate_from 0
            (slice chunks batch_start (Z.min (batch_start + batch_size) (len chunks)))))
    (map (fun j => Z.of_nat j * batch_size) (seq 0 m))
  = enumerate_from 0 (firstn (m * 10) chunks).
Proof.
  induction m as [| m IH]; intros Hm; [reflexivity |].
  rewrite seq_S, map_app, flat_map_app. cbn [Nat.add map flat_map].
  rewrite app_nil_r.
  assert (Hin : Z.of_nat m * 10 < len chunks) by (destruct Hm as [Hm | Hm]; lia).
  rewrite IH by (destruct m; [left; reflexivity | right; lia]).
  unfold batch_size at 1 3.
  rewrite slice_batch by lia.
  rewrite enumerate_from_shift.
  replace (S m * 10)%nat with (m * 10 + 10)%nat by lia.
  rewrite firstn_plus, enumerate_from_app.
  f_equal. f_equal.
  - unfold len in *. rewrite length_firstn. lia.
  - do 2 f_equal. lia.
Qed.

(** The nested batch loops visit the chunks as [enumerate] would. *)
Lemma chunk_visits_eq (chunks : list str) : chunk_visits chunks = enumerate_from 0 chunks.
Proof.
  unfold chunk_visits, range_step.
  set (n := len chunks).
  assert (Hn : 0 <= n) by apply len_nonneg.
  assert (Hdiv : 10 * ((n + 10 - 1) / 10) <= n + 10 - 1 < 10 * ((n + 10 - 1) / 10) + 10).
  { pose proof (Z.div_mod (n + 10 - 1) 10 ltac:(lia)) as Hdm.
    pose proof (Z.mod_pos_bound (n + 10 - 1) 10 ltac:(lia)). lia. }
  change ((n + batch_size - 1) / batch_size) with ((n + 10 - 1) / 10).
  rewrite batches_enumerate.
  - f_equal. apply firstn_all2. unfold n, len in *. lia.
  - destruct (Z.to_nat ((n + 10 - 1) / 10)) eqn:E; [left; reflexivity | right].
    rewrite <- E. fold n. lia.
Qed.

(** X4. The two nested batch loops of [process_document] visit every chunk
    exactly once, in order, each with its index in the whole chunk list:
    batching changes neither the order nor the numbering. *)
Theorem chunk_visits_enumerates :
  forall chunks : list str, chunk_visits chunks = enumerate_from 0 chunks.
Proof. exact chunk_visits_eq. Qed.

Lemma in_enumerate_from {A : Type} (a i : Z) (x : A) (l : list A) :
  In (i, x) (enumerate_from a l) -> a <= i /\ In x l.
Proof.
  revert a. induction l as [| y l IH]; intros a Hin; [destruct Hin |].
  cbn [enumerate_from] in Hin. destruct Hin as [Heq | Hin].
  - injection Heq as <- <-. split; [lia | left; reflexivity].
  - apply IH in Hin. split; [lia | right; apply Hin].
Qed.

Lemma store_eta (st : Store) : mkStore (nec_collection st) (wattmonk_collection st) = st.
Proof. destruct st. reflexivity. Qed.

(** The two ways [process_document] returns: [False] before any chunk is
    stored, or after the storing loop has run over the numbered chunks. *)
Lemma process_document_cases (fuel : nat) (fs : FileSystem) (embed_content : EmbedService)
    (file_path document_type : str) (st st' : Store) (b : bool) :
  process_document fuel fs embed_content file_path document_type st = Some (b, st') ->
  (b = false /\ st' = st)
  \/ exists text chunks,
       extract_text fs file_path = Ok text
       /\ chunk_text fuel text 2000 200 200 = Some chunks
       /\ b = (successful_chunks
                 (fold_left (ingest_step embed_content file_path document_type)
                    (enumerate_from 0 chunks)
                    (mkIngest (target_collection document_type st) 0)) >? 0)
       /\ st' = (if str_eqb (lower document_type) (lit "nec")
                 then mkStore
                        (ing_collection
                           (fold_left (ingest_step embed_content file_path document_type)
                              (enumerate_from 0 chunks)
                              (mkIngest (target_collection document_type st) 0)))
                        (wattmonk_collection st)
                 else mkStore (nec_collection st)
                        (ing_collection
                           (fold_left (ingest_step embed_content file_path document_type)
                              (enumerate_from 0 chunks)
                              (mkIngest (target_collection document_type st) 0)))).
Proof.
  unfold process_document, target_collection.
  destruct (extract_text fs file_path) as [text |] eqn:Hext.
  2:{ intros H. injection H as <- <-. left. auto. }
  destruct (negb (truthy (strip text))).
  { intros H. injection H as <- <-. left. auto. }
  destruct (chunk_text fuel text 2000 200 200) as [chunks |] eqn:Hchunks; [| discriminate].
  change (store_chunk embed_content file_path document_type)
    with (fun ic => try_pass (store_chunk_block embed_content file_path document_type ic)).
  rewrite !exec_for_each_try_pass, chunk_visits_eq.
  change (fun s x => exec (store_chunk_block embed_content file_path document_type x) s)
    with (ingest_step embed_content file_path document_type).
  intros H. right. exists text, chunks.
  split; [reflexivity |]. split; [exact Hchunks |].
  destruct (str_eqb (lower document_type) (lit "nec")); injection H as <- <-;
    split; reflexivity.
Qed.

Section IngestionInvariants.

Variable embed_content : EmbedService.
Variables file_path document_type : str.

Local Abbreviation step := (ingest_step embed_content file_path document_type).

(** The loop does nothing when no visited chunk has an embedding or the
    collection is unreachable. *)
Lemma ingest_noop (visits : list (Z * str)) (s : ingest_state) :
  (available (ing_collection s) = false
   \/ forall ic, In ic visits -> embeds embed_content ic = false) ->
  fold_left step visits s = s.
Proof.
  induction visits as [| ic visits IH]; intros H; [reflexivity |].
  cbn [fold_left].
  assert (Hstep : step s ic = s).
  { rewrite ingest_step_eq.
    destruct H as [H | H]; [rewrite H, andb_false_r; reflexivity |].
    rewrite (H ic (or_introl eq_refl)). reflexivity. }
  rewrite Hstep. apply IH.
  destruct H as [H | H]; [left; exact H | right].
  intros ic' Hin. apply H. right. exact Hin.
Qed.

Lemma upsert_forall (Q : StoredRecord -> Prop) (r : StoredRecord) (l : list StoredRecord) :
  Forall Q l -> Q r -> Forall Q (upsert r l).
Proof.
  intros Hl Hr. induction Hl as [| x l Hx Hl IH]; cbn [upsert].
  - constructor; [exact Hr | constructor].
  - destruct (str_eqb (rec_id x) (rec_id r)); constructor; assumption.
Qed.

(** A property of the records that holds of the collection and of every
    record the loop adds holds of the collection after the loop. *)
Lemma ingest_forall (Q : StoredRecord -> Prop) (visits : list (Z * str)) (s : ingest_state) :
  Forall Q (records (ing_collection s)) ->
  (forall ic, In ic visits -> embeds embed_content ic = true ->
              Q (visit_record embed_content file_path document_type ic)) ->
  Forall Q (records (ing_collection (fold_left step visits s))).
Proof.
  revert s. induction visits as [| ic visits IH]; intros s Hs Hnew; [exact Hs |].
  cbn [fold_left]. apply IH.
  - rewrite ingest_step_eq.
    destruct (embeds embed_content ic && available (ing_collection s)) eqn:E; [| exact Hs].
    apply andb_true_iff in E. destruct E as [Hemb _].
    cbn [ing_collection records]. apply upsert_forall; [exact Hs |].
    exact (Hnew ic (or_introl eq_refl) Hemb).
  - intros ic' Hin. apply Hnew. right. exact Hin.
Qed.

Lemma upsert_ids (i : str) (r : StoredRecord) (l : list StoredRecord) :
  In i (map rec_id (upsert r l)) -> i = rec_id r \/ In i (map rec_id l).
Proof.
  induction l as [| x l IH]; cbn [upsert map]; intros Hin.
  - destruct Hin as [<- | []]. left. reflexivity.
  - destruct (str_eqb (rec_id x) (rec_id r)) eqn:E; cbn [map] in Hin.
    + destruct Hin as [<- | Hin]; [left; reflexivity | right; right; exact Hin].
    + destruct Hin as [<- | Hin]; [right; left; reflexivity |].
      apply IH in Hin. destruct Hin as [-> | Hin]; [left; reflexivity | right; right; exact Hin].
Qed.

(** [add] keeps the identifiers of a collection distinct. *)
Lemma upsert_nodup (r : StoredRecord) (l : list StoredRecord) :
  NoDup (map rec_id l) -> NoDup (map rec_id (upsert r l)).
Proof.
  induction l as [| x l IH]; cbn [upsert map]; intros Hnd.
  - constructor; [intros [] | constructor].
  - inversion Hnd as [| ? ? Hx Hl]; subst.
    destruct (str_eqb (rec_id x) (rec_id r)) eqn:E; cbn [map].
    + apply str_eqb_eq in E. rewrite <- E. constructor; assumption.
    + constructor; [| apply IH; exact Hl].
      intros Hin. apply upsert_ids in Hin. destruct Hin as [Heq | Hin]; [| contradiction].
      rewrite Heq, str_eqb_refl in E. discriminate E.
Qed.

Lemma ingest_nodup (visits : list (Z * str)) (s : ingest_state) :
  NoDup (map rec_id (records (ing_collection s))) ->
  NoDup (map rec_id (records (ing_collection (fold_left step visits s)))).
Proof.
  revert s. induction visits as [| ic visits IH]; intros s Hs; [exact Hs |].
  cbn [fold_left]. apply IH. rewrite ingest_step_eq.
  destruct (embeds embed_content ic && available (ing_collection s)); [| exact Hs].
  cbn [ing_collection records]. apply upsert_nodup. exact Hs.
Qed.

End IngestionInvariants.

(** [process_document] returns [False] at once on a text that is blank. *)
Lemma process_document_blank (fuel : nat) (fs : FileSystem) (embed_content : EmbedService)
    (file_path document_type text : str) (st : Store) :
  extract_text fs file_path = Ok text -> strip text = [] ->
  process_document fuel fs embed_content file_path document_type st = Some (false, st).
Proof.
  intros Hext Hblank. unfold process_document. rewrite Hext, Hblank. reflexivity.
Qed.

(** Pages that all fail to extract give the empty text. *)
Lemma failed_pages_text (pages : list (result str)) (text : str) :
  (forall page, In page pages -> page = Raised) ->
  fold_left
    (fun text page =>
       match page with
       | Ok page_text => text ++ page_text ++ [newline]
       | Raised => text
       end) pages text = text.
Proof.
  revert text. induction pages as [| page pages IH]; intros text H; [reflexivity |].
  cbn [fold_left]. rewrite (H page (or_introl eq_refl)).
  apply IH. intros pg Hin. apply H. right. exact Hin.
Qed.

(** X5. [process_document] fails closed. It returns [False] and leaves the
    store as it was, without entering the chunker, when a text file cannot
    be read, when a PDF cannot be opened or none of its pages can be
    extracted, when a Word document cannot be opened, and whenever the
    extracted text is blank. When it returns after the chunker, it returns
    [False] with the store as it was if the target collection is unreachable
    or no text gets an embedding. *)
Theorem process_document_fails_closed :
  forall (fs : FileSystem) (embed_content : EmbedService) (file_path document_type : str)
    (st : Store),
    (endswith (lower file_path) (lit ".pdf") = false ->
     endswith (lower file_path) (lit ".docx") = false ->
     read_text fs file_path = Raised ->
     forall fuel,
       process_document fuel fs embed_content file_path document_type st = Some (false, st))
    /\ (endswith (lower file_path) (lit ".pdf") = true ->
        (pdf_pages fs file_path = Raised
         \/ exists pages, pdf_pages fs file_path = Ok pages
                          /\ forall page, In page pages -> page = Raised) ->
        forall fuel,
          process_document fuel fs embed_content file_path document_type st = Some (false, st))
    /\ (endswith (lower file_path) (lit ".pdf") = false ->
        endswith (lower file_path) (lit ".docx") = true ->
        docx_paragraphs fs file_path = Raised ->
        forall fuel,
          process_document fuel fs embed_content file_path document_type st = Some (false, st))
    /\ (forall text,
          extract_text fs file_path = Ok text -> strip text = [] ->
          forall fuel,
            process_document fuel fs embed_content file_path document_type st
            = Some (false, st))
    /\ (forall fuel b st',
          process_document fuel fs embed_content file_path document_type st = Some (b, st') ->
          (available (target_collection document_type st) = false
           \/ forall text, generate_embeddings embed_content text = []) ->
          b = false /\ st' = st).
Proof.
  intros fs embed_content file_path document_type st.
  split; [| split; [| split; [| split]]].
  - intros Hpdf Hdocx Hread fuel. unfold process_document, extract_text.
    rewrite Hpdf, Hdocx, Hread. reflexivity.
  - intros Hpdf Hpages fuel.
    apply process_document_blank with (text := []); [| reflexivity].
    unfold extract_text, extract_text_from_pdf. rewrite Hpdf.
    destruct Hpages as [-> | [pages [-> Hfail]]]; [reflexivity |].
    rewrite failed_pages_text; [reflexivity |].
    intros page Hin. apply Hfail. apply in_firstn in Hin. exact Hin.
  - intros Hpdf Hdocx Hopen fuel.
    apply process_document_blank with (text := []); [| reflexivity].
    unfold extract_text, extract_text_from_docx. rewrite Hpdf, Hdocx, Hopen. reflexivity.
  - intros text Hext Hblank fuel. apply process_document_blank with (text := text); assumption.
  - intros fuel b st' Hrun Hdown.
    apply process_document_cases in Hrun.
    destruct Hrun as [Hrun | [text [chunks [_ [_ [Hb Hst]]]]]]; [exact Hrun |].
    assert (Hnoop :
              fold_left (ingest_step embed_content file_path document_type)
                (enumerate_from 0 chunks) (mkIngest (target_collection document_type st) 0)
              = mkIngest (target_collection document_type st) 0).
    { apply ingest_noop. cbn [ing_collection].
      destruct Hdown as [H | H]; [left; exact H | right].
      intros ic _. unfold embeds. rewrite H. reflexivity. }
    rewrite Hnoop in Hb, Hst.
    cbn [successful_chunks ing_collection] in Hb, Hst. split; [exact Hb |].
    rewrite Hst. unfold target_collection.
    destruct (str_eqb (lower document_type) (lit "nec")); apply store_eta.
Qed.

Lemma process_document_fails_closed_witness :
  (forall fuel,
      process_document fuel no_fs unit_embed (lit "missing.txt") (lit "nec") small_store
      = Some (false, small_store))
  /\ (forall fuel,
        process_document fuel no_fs unit_embed (lit "Missing.PDF") (lit "nec") small_store
        = Some (false, small_store))
  /\ (false = false /\ small_store = small_store).
Proof.
  split; [| split].
  - apply (proj1 (process_document_fails_closed no_fs unit_embed (lit "missing.txt")
                    (lit "nec") small_store)); reflexivity.
  - apply (proj1 (proj2 (process_document_fails_closed no_fs unit_embed (lit "Missing.PDF")
                           (lit "nec") small_store))); [reflexivity | left; reflexivity].
  - apply (proj2 (proj2 (proj2 (proj2
             (process_document_fails_closed long_fs no_embed (lit "a.txt") (lit "nec")
                small_store)))) 300%nat false small_store).
    + vm_compute. reflexivity.
    + right. reflexivity.
Defined.

(** Every return of [process_document] is the storing loop run over some
    numbered kept chunks: none when it returns before the chunker. *)
Lemma process_document_run (fuel : nat) (fs : FileSystem) (embed_content : EmbedService)
    (file_path document_type : str) (st st' : Store) (b : bool) :
  process_document fuel fs embed_content file_path document_type st = Some (b, st') ->
  exists visits,
    (forall ic, In ic visits -> 0 <= fst ic /\ kept_chunk (snd ic))
    /\ b = (successful_chunks
              (fold_left (ingest_step embed_content file_path document_type) visits
                 (mkIngest (target_collection document_type st) 0)) >? 0)
    /\ st' = (if str_eqb (lower document_type) (lit "nec")
              then mkStore
                     (ing_collection
                        (fold_left (ingest_step embed_content file_path document_type) visits
                           (mkIngest (target_collection document_type st) 0)))
                     (wattmonk_collection st)
              else mkStore (nec_collection st)
                     (ing_collection
                        (fold_left (ingest_step embed_content file_path document_type) visits
                           (mkIngest (target_collection document_type st) 0)))).
Proof.
  intros Hrun. apply process_document_cases in Hrun.
  destruct Hrun as [[-> ->] | [text [chunks [_ [Hchunks [Hb Hst]]]]]].
  - exists []. split; [intros ic [] |]. split; [reflexivity |].
    cbn [fold_left ing_collection]. unfold target_collection.
    destruct (str_eqb (lower document_type) (lit "nec")); symmetry; apply store_eta.
  - exists (enumerate_from 0 chunks). split; [| split; assumption].
    intros [i c] Hin. apply in_enumerate_from in Hin. destruct Hin as [Hi Hc].
    split; [exact Hi |]. cbn [snd].
    unfold chunk_text in Hchunks.
    apply chunk_loop_chunks in Hchunks; [| constructor | cbn; lia].
    destruct Hchunks as [Hkept _]. rewrite Forall_forall in Hkept. apply Hkept. exact Hc.
Qed.

(** X6. Whenever [process_document] returns, it has written to one
    collection only: the NEC collection for the label [nec] in any letter
    case, the company collection for every other label. Both collections
    keep their availability and every identifier they held. If every record
    of a collection had an embedding, a kept chunk as its text, the
    identifier derived from its path, index and text, and the base name of
    its path as its source, this still holds afterwards; the records of the
    NEC collection stay labelled [nec]; and identifiers stay distinct. *)
Theorem process_document_keeps_store_invariants :
  forall (fuel : nat) (fs : FileSystem) (embed_content : EmbedService)
    (file_path document_type : str) (st st' : Store) (b : bool),
    process_document fuel fs embed_content file_path document_type st = Some (b, st') ->
    (str_eqb (lower document_type) (lit "nec") = true ->
     wattmonk_collection st' = wattmonk_collection st)
    /\ (str_eqb (lower document_type) (lit "nec") = false ->
        nec_collection st' = nec_collection st)
    /\ available (nec_collection st') = available (nec_collection st)
    /\ available (wattmonk_collection st') = available (wattmonk_collection st)
    /\ (forall i, has_id i (nec_collection st) -> has_id i (nec_collection st'))
    /\ (forall i, has_id i (wattmonk_collection st) -> has_id i (wattmonk_collection st'))
    /\ (Forall well_formed_record (records (nec_collection st)) ->
        Forall well_formed_record (records (nec_collection st')))
    /\ (Forall well_formed_record (records (wattmonk_collection st)) ->
        Forall well_formed_record (records (wattmonk_collection st')))
    /\ (Forall nec_labelled (records (nec_collection st)) ->
        Forall nec_labelled (records (nec_collection st')))
    /\ (NoDup (map rec_id (records (nec_collection st))) ->
        NoDup (map rec_id (records (nec_collection st'))))
    /\ (NoDup (map rec_id (records (wattmonk_collection st))) ->
        NoDup (map rec_id (records (wattmonk_collection st')))).
Proof.
  intros fuel fs embed_content file_path document_type st st' b Hrun.
  apply process_document_run in Hrun. destruct Hrun as [visits [Hvisits [_ Hst]]].
  assert (Hwf : forall ic, In ic visits -> embeds embed_content ic = true ->
                  well_formed_record
                    (visit_record embed_content file_path document_type ic)).
  { intros ic Hin Hemb. destruct (Hvisits ic Hin) as [Hi Hkept].
    unfold well_formed_record, visit_record.
    cbn [rec_embedding rec_document rec_id rec_metadata md_file_path md_chunk_index md_source].
    repeat split; try assumption; try apply Hkept.
    intros Hnil. unfold embeds in Hemb. rewrite Hnil in Hemb. discriminate Hemb. }
  unfold target_collection in Hst.
  destruct (str_eqb (lower document_type) (lit "nec")) eqn:Enec; subst st';
    cbn [nec_collection wattmonk_collection];
    repeat match goal with |- _ /\ _ => split end;
    try reflexivity; try discriminate; try (intros; assumption).
  - apply (ingest_available embed_content file_path document_type visits (mkIngest _ 0)).
  - intros i Hi.
    apply (ingest_keeps_ids embed_content file_path document_type i visits (mkIngest _ 0)).
    exact Hi.
  - intros Hall. apply ingest_forall; [exact Hall | exact Hwf].
  - intros Hall. apply ingest_forall; [exact Hall |].
    intros ic _ _. unfold nec_labelled, visit_record. cbn. apply str_eqb_eq. exact Enec.
  - intros Hnd. apply ingest_nodup. exact Hnd.
  - apply (ingest_available embed_content file_path document_type visits (mkIngest _ 0)).
  - intros i Hi.
    apply (ingest_keeps_ids embed_content file_path document_type i visits (mkIngest _ 0)).
    exact Hi.
  - intros Hall. apply ingest_forall; [exact Hall | exact Hwf].
  - intros Hnd. apply ingest_nodup. exact Hnd.
Qed.

Lemma process_document_keeps_store_invariants_witness :
  available (nec_collection ingested_store) = available (nec_collection empty_store)
  /\ (Forall well_formed_record (records (nec_collection empty_store)) ->
      Forall well_formed_record (records (nec_collection ingested_store)))
  /\ (NoDup (map rec_id (records (nec_collection empty_store))) ->
      NoDup (map rec_id (records (nec_collection ingested_store)))).
Proof.
  assert (Hrun : process_document 300 long_fs unit_embed (lit "docs/a.txt") (lit "nec")
                   empty_store = Some (true, ingested_store))
    by (vm_compute; reflexivity).
  destruct (process_document_keeps_store_invariants _ _ _ _ _ _ _ _ Hrun)
    as (_ & _ & Hav & _ & _ & _ & Hwf & _ & _ & Hnd & _).
  exact (conj Hav (conj Hwf Hnd)).
Defined.

(** A loop that counted a stored chunk left a record in the collection. *)
Lemma ingest_success_has_record (embed_content : EmbedService)
    (file_path document_type : str) (visits : list (Z * str)) (c : Collection) :
  0 < successful_chunks
        (fold_left (ingest_step embed_content file_path document_type) visits (mkIngest c 0)) ->
  exists n,
    coll_count
      (ing_collection
         (fold_left (ingest_step embed_content file_path document_type) visits (mkIngest c 0)))
    = Ok n /\ 1 <= n.
Proof.
  intros Hpos. rewrite ingest_successful in Hpos. cbn [ing_collection successful_chunks] in Hpos.
  destruct (available c) eqn:Hav; [| lia].
  destruct (filter (embeds embed_content) visits) as [| ic rest] eqn:Hf; [cbn in Hpos; lia |].
  assert (Hin : In ic (filter (embeds embed_content) visits)) by (rewrite Hf; left; reflexivity).
  apply filter_In in Hin. destruct Hin as [Hin Hemb].
  pose proof (ingest_adds_ids embed_content file_path document_type visits (mkIngest c 0) ic
                Hav Hin Hemb) as Hid.
  unfold coll_count. rewrite ingest_available. cbn [ing_collection]. rewrite Hav.
  eexists. split; [reflexivity |].
  unfold has_id in Hid.
  destruct (records (ing_collection
              (fold_left (ingest_step embed_content file_path document_type) visits
                 (mkIngest c 0)))); [destruct Hid |].
  unfold len. cbn [List.length]. lia.
Qed.

(** [get_collection_stats] reports the sum of its two counts. *)
Lemma stats_total (st : Store) :
  total_documents (get_collection_stats st)
  = nec_documents (get_collection_stats st) + wattmonk_documents (get_collection_stats st).
Proof.
  unfold get_collection_stats.
  destruct (coll_count (nec_collection st)), (coll_count (wattmonk_collection st)); reflexivity.
Qed.

(** X7. When [process_document] returns [True], the collection it wrote to
    is reachable and holds at least one record; and if the other collection
    is reachable too, [get_collection_stats] then reports a positive total.
    For every store the reported total is the sum of the two reported
    counts, and all three are 0 as soon as one collection is unreachable,
    whatever the other holds. *)
Theorem process_document_success_is_counted :
  (forall (fuel : nat) (fs : FileSystem) (embed_content : EmbedService)
     (file_path document_type : str) (st st' : Store),
      process_document fuel fs embed_content file_path document_type st = Some (true, st') ->
      (exists n, coll_count (target_collection document_type st') = Ok n /\ 1 <= n)
      /\ (available (nec_collection st') = true ->
          available (wattmonk_collection st') = true ->
          1 <= total_documents (get_collection_stats st')))
  /\ (forall st : Store,
        total_documents (get_collection_stats st)
        = nec_documents (get_collection_stats st)
          + wattmonk_documents (get_collection_stats st))
  /\ (forall st : Store,
        available (nec_collection st) = false \/ available (wattmonk_collection st) = false ->
        get_collection_stats st = mkStats 0 0 0).
Proof.
  split; [| split; [exact stats_total |]].
  - intros fuel fs embed_content file_path document_type st st' Hrun.
    apply process_document_run in Hrun. destruct Hrun as [visits [_ [Hb Hst]]].
    symmetry in Hb. apply gtb_true_inv in Hb.
    apply ingest_success_has_record in Hb. destruct Hb as [n [Hn Hpos]].
    assert (Htarget : coll_count (target_collection document_type st') = Ok n).
    { rewrite Hst. unfold target_collection at 1.
      destruct (str_eqb (lower document_type) (lit "nec")); exact Hn. }
    split; [exists n; split; assumption |].
    intros Hnec Hwatt. unfold get_collection_stats.
    unfold target_collection in Htarget. unfold coll_count in *.
    pose proof (len_nonneg (records (nec_collection st'))).
    pose proof (len_nonneg (records (wattmonk_collection st'))).
    destruct (str_eqb (lower document_type) (lit "nec"));
      rewrite Hnec, Hwatt in *; cbn [total_documents];
      injection Htarget as Htarget; lia.
  - intros st Hdown. unfold get_collection_stats, coll_count.
    destruct Hdown as [-> | ->]; [reflexivity |].
    destruct (available (nec_collection st)); reflexivity.
Qed.

Lemma process_document_success_is_counted_witness :
  (exists n, coll_count (target_collection (lit "nec") ingested_store) = Ok n /\ 1 <= n)
  /\ (available (nec_collection ingested_store) = true ->
      available (wattmonk_collection ingested_store) = true ->
      1 <= total_documents (get_collection_stats ingested_store)).
Proof.
  apply (proj1 process_document_success_is_counted 300%nat long_fs unit_embed
           (lit "docs/a.txt") (lit "nec") empty_store ingested_store).
  vm_compute. reflexivity.
Defined.

(** * Further properties of text extraction *)

Lemma startswith_app (p b : str) : startswith (p ++ b) p = true.
Proof.
  induction p as [| c p IH]; [destruct b; reflexivity |].
  cbn [app startswith]. rewrite Ascii.eqb_refl. exact IH.
Qed.

Lemma contains_prefix (p b : str) : contains p (p ++ b) = true.
Proof.
  destruct (p ++ b) as [| c s] eqn:E; cbn [contains]; rewrite <- E, startswith_app;
    reflexivity.
Qed.

Lemma contains_skip (p a s : str) : contains p s = true -> contains p (a ++ s) = true.
Proof.
  intros H. induction a as [| c a IH]; [exact H |].
  cbn [app contains]. rewrite IH. apply orb_true_r.
Qed.

(** A string occurs in every string it is a part of. *)
Lemma contains_middle (p a b : str) : contains p (a ++ p ++ b) = true.
Proof. apply contains_skip, contains_prefix. Qed.

Lemma fold_pages_eq (pages : list (result str)) (text : str) :
  fold_left
    (fun text page =>
       match page with
       | Ok page_text => text ++ page_text ++ [newline]
       | Raised => text
       end) pages text
  = text ++ flat_map page_text pages.
Proof.
  revert text. induction pages as [| page pages IH]; intros text; cbn [fold_left flat_map].
  - rewrite app_nil_r. reflexivity.
  - rewrite IH. destruct page as [t |]; cbn [page_text]; [| reflexivity].
    rewrite <- !app_assoc. reflexivity.
Qed.

Lemma firstn_min_length {A : Type} (n : Z) (l : list A) :
  firstn (Z.to_nat (Z.min n (len l))) l = firstn (Z.to_nat n) l.
Proof.
  destruct (Z.le_gt_cases n (len l)) as [H | H].
  - rewrite Z.min_l by lia. reflexivity.
  - rewrite Z.min_r by lia. unfold len in *. rewrite Nat2Z.id, firstn_all.
    symmetry. apply firstn_all2. lia.
Qed.

Lemma extract_text_from_pdf_eq (fs : FileSystem) (pdf_path : str) (max_pages : Z)
    (pages : list (result str)) :
  pdf_pages fs pdf_path = Ok pages ->
  extract_text_from_pdf fs pdf_path max_pages
  = flat_map page_text (firstn (Z.to_nat max_pages) pages).
Proof.
  intros Hpages. unfold extract_text_from_pdf. rewrite Hpages.
  rewrite fold_pages_eq, firstn_min_length. reflexivity.
Qed.

(** X8. The text extracted from a PDF that opens is made of the pages up to
    the page cap, in order: the pages beyond the cap add nothing, a page
    whose extraction fails is skipped, and the text of every page within the
    cap that is extracted occurs in the result, followed by a line feed. A
    PDF that cannot be opened gives the empty text. The text of a Word
    document is its paragraphs, each followed by a line feed, with no cap. *)
Theorem extract_text_keeps_readable_pages :
  forall (fs : FileSystem) (path : str) (max_pages : Z),
    (forall pages,
        pdf_pages fs path = Ok pages ->
        extract_text_from_pdf fs path max_pages
        = flat_map page_text (firstn (Z.to_nat max_pages) pages)
        /\ (forall (i : nat) (text : str),
              (i < Z.to_nat max_pages)%nat ->
              nth_error pages i = Some (Ok text) ->
              contains (text ++ [newline]) (extract_text_from_pdf fs path max_pages) = true))
    /\ (pdf_pages fs path = Raised -> extract_text_from_pdf fs path max_pages = [])
    /\ (forall paragraphs,
          docx_paragraphs fs path = Ok paragraphs ->
          extract_text_from_docx fs path
          = flat_map (fun paragraph => paragraph ++ [newline]) paragraphs)
    /\ (docx_paragraphs fs path = Raised -> extract_text_from_docx fs path = []).
Proof.
  intros fs path max_pages. split; [| split; [| split]].
  - intros pages Hpages.
    rewrite (extract_text_from_pdf_eq fs path max_pages pages Hpages).
    split; [reflexivity |].
    intros i text Hi Hnth.
    assert (Hin : nth_error (firstn (Z.to_nat max_pages) pages) i = Some (Ok text)).
    { rewrite nth_error_firstn.
      replace (i <? Z.to_nat max_pages)%nat with true by (symmetry; apply Nat.ltb_lt; exact Hi).
      exact Hnth. }
    apply nth_error_split in Hin. destruct Hin as [l1 [l2 [Hsplit _]]].
    rewrite Hsplit, flat_map_app. cbn [flat_map page_text].
    apply contains_middle.
  - intros Hpages. unfold extract_text_from_pdf. rewrite Hpages. reflexivity.
  - intros paragraphs Hdoc. unfold extract_text_from_docx. rewrite Hdoc.
    assert (H : forall ps text,
               fold_left (fun text paragraph => text ++ paragraph ++ [newline]) ps text
               = text ++ flat_map (fun paragraph : str => paragraph ++ [newline]) ps).
    { induction ps as [| para ps IH]; intros text; cbn [fold_left flat_map].
      - rewrite app_nil_r. reflexivity.
      - rewrite IH, <- !app_assoc. reflexivity. }
    apply (H paragraphs []).
  - intros Hdoc. unfold extract_text_from_docx. rewrite Hdoc. reflexivity.
Qed.

Lemma extract_text_keeps_readable_pages_witness :
  extract_text_from_pdf three_page_fs (lit "code.pdf") 2
  = flat_map page_text
      (firstn (Z.to_nat 2) [Ok (lit "Page one"); Raised; Ok (lit "Page three")])
  /\ contains (lit "Page one" ++ [newline])
       (extract_text_from_pdf three_page_fs (lit "code.pdf") 2) = true.
Proof.
  destruct (proj1 (extract_text_keeps_readable_pages three_page_fs (lit "code.pdf") 2)
              [Ok (lit "Page one"); Raised; Ok (lit "Page three")] eq_refl) as [Heq Hin].
  split; [exact Heq |].
  apply (Hin 0%nat (lit "Page one")); [vm_compute; lia | reflexivity].
Defined.

(** * Further properties of search *)

Lemma slice_from_zero {A : Type} (l : list A) (k : Z) :
  slice l 0 k = firstn (Z.to_nat (norm_index (len l) k)) l.
Proof.
  unfold slice. pose proof (len_nonneg l).
  replace (norm_index (len l) 0) with 0 by (unfold norm_index; cbn; lia).
  rewrite Z.sub_0_r. reflexivity.
Qed.

Lemma in_slice_from_zero {A : Type} (x : A) (l : list A) (k : Z) :
  In x (slice l 0 k) -> In x l.
Proof. rewrite slice_from_zero. apply in_firstn. Qed.

Lemma len_firstn_le {A : Type} (k : Z) (l : list A) :
  0 <= k -> len (firstn (Z.to_nat k) l) <= k.
Proof. intros Hk. unfold len. rewrite length_firstn. lia. Qed.

(** X9. For a result count [k] that is not negative, [search_documents],
    [keyword_search], [retrieve_context] and [search_knowledge_base] each
    return at most [k] results; [search_knowledge_base] returns one
    formatted result per retrieved result; and [search_documents] returns
    the empty list for every [k] that is not positive. *)
Theorem searches_return_at_most_k :
  forall (embed_content : EmbedService) (metric : Embedding -> Embedding -> Q)
    (st : Store) (query : str) (document_type : option str) (k : Z),
    (0 <= k ->
     len (search_documents embed_content metric st query document_type k) <= k
     /\ len (keyword_search st query document_type k) <= k
     /\ len (retrieve_context embed_content metric st query document_type k) <= k
     /\ len (search_knowledge_base embed_content metric st query document_type k) <= k)
    /\ len (search_knowledge_base embed_content metric st query document_type k)
       = len (retrieve_context embed_content metric st query document_type k)
    /\ (k <= 0 -> search_documents embed_content metric st query document_type k = []).
Proof.
  intros embed_content metric st query document_type k.
  assert (Hsem : 0 <= k ->
                 len (search_documents embed_content metric st query document_type k) <= k).
  { intros Hk. destruct (generate_embeddings embed_content query) as [| x e] eqn:He.
    - rewrite search_documents_no_embedding by exact He. cbn. exact Hk.
    - rewrite search_documents_eq by (rewrite He; discriminate).
      apply len_firstn_le. exact Hk. }
  assert (Hctx : 0 <= k ->
                 len (retrieve_context embed_content metric st query document_type k) <= k).
  { intros Hk. unfold retrieve_context.
    destruct (should_try_keyword (lower query)
                (search_documents embed_content metric st query document_type k));
      [| apply Hsem; exact Hk].
    rewrite slice_prefix by exact Hk. apply len_firstn_le. exact Hk. }
  assert (Hfmt : len (search_knowledge_base embed_content metric st query document_type k)
                 = len (retrieve_context embed_content metric st query document_type k)).
  { unfold search_knowledge_base, len. rewrite length_map. reflexivity. }
  split; [| split; [exact Hfmt |]].
  - intros Hk. split; [apply Hsem; exact Hk |]. split; [| split].
    + rewrite keyword_search_eq by exact Hk. apply len_firstn_le. exact Hk.
    + apply Hctx. exact Hk.
    + rewrite Hfmt. apply Hctx. exact Hk.
  - intros Hk. destruct (generate_embeddings embed_content query) as [| x e] eqn:He.
    + apply search_documents_no_embedding. exact He.
    + rewrite search_documents_eq by (rewrite He; discriminate).
      replace (Z.to_nat k) with 0%nat by lia. reflexivity.
Qed.

Lemma searches_return_at_most_k_witness :
  len (search_documents unit_embed first_coordinate_metric small_store
         (lit "wiring") None 2) <= 2
  /\ len (keyword_search small_store (lit "wiring") None 2) <= 2
  /\ len (retrieve_context unit_embed first_coordinate_metric small_store
            (lit "wiring") None 2) <= 2
  /\ len (search_knowledge_base unit_embed first_coordinate_metric small_store
            (lit "wiring") None 2) <= 2.
Proof.
  apply (proj1 (searches_return_at_most_k unit_embed first_coordinate_metric small_store
                  (lit "wiring") None 2)).
  lia.
Defined.

Lemma slice_nil {A : Type} (i j : Z) : slice (@nil A) i j = [].
Proof. unfold slice. rewrite skipn_nil, firstn_nil. reflexivity. Qed.

(** A corpus filter that names neither corpus selects no collection. *)
Lemma unknown_filter_selects_nothing (st : Store) (filter : str) :
  lower filter <> lit "nec" -> lower filter <> lit "wattmonk" ->
  collections_to_search st (Some filter) = [].
Proof.
  intros Hnec Hwatt. unfold collections_to_search.
  destruct (str_eqb (lower filter) (lit "nec")) eqn:E1;
    [apply str_eqb_eq in E1; contradiction |].
  destruct (str_eqb (lower filter) (lit "wattmonk")) eqn:E2;
    [apply str_eqb_eq in E2; contradiction |].
  reflexivity.
Qed.

(** X10. With a corpus filter that is neither [nec] nor [wattmonk] in any
    letter case, no collection is searched: [search_documents],
    [keyword_search], [retrieve_context] and [search_knowledge_base] return
    the empty list for every query, store and result count. *)
Theorem unknown_filter_finds_nothing :
  forall (embed_content : EmbedService) (metric : Embedding -> Embedding -> Q)
    (st : Store) (query filter : str) (k : Z),
    lower filter <> lit "nec" ->
    lower filter <> lit "wattmonk" ->
    search_documents embed_content metric st query (Some filter) k = []
    /\ keyword_search st query (Some filter) k = []
    /\ retrieve_context embed_content metric st query (Some filter) k = []
    /\ search_knowledge_base embed_content metric st query (Some filter) k = [].
Proof.
  intros embed_content metric st query filter k Hnec Hwatt.
  pose proof (unknown_filter_selects_nothing st filter Hnec Hwatt) as Hsel.
  assert (Hsem : search_documents embed_content metric st query (Some filter) k = []).
  { unfold search_documents. rewrite Hsel.
    destruct (negb (truthy (generate_embeddings embed_content query))); [reflexivity |].
    cbn. apply slice_nil. }
  assert (Hkw : keyword_search st query (Some filter) k = []).
  { unfold keyword_search, keyword_results. rewrite Hsel. cbn. apply slice_nil. }
  assert (Hctx : retrieve_context embed_content metric st query (Some filter) k = []).
  { unfold retrieve_context. rewrite Hsem, Hkw.
    destruct (should_try_keyword (lower query) []); [apply slice_nil | reflexivity]. }
  repeat split; try assumption.
  unfold search_knowledge_base. rewrite Hctx. reflexivity.
Qed.

Lemma unknown_filter_finds_nothing_witness :
  search_documents unit_embed first_coordinate_metric small_store
    (lit "grounding") (Some (lit "Solar")) 5 = []
  /\ keyword_search small_store (lit "grounding") (Some (lit "Solar")) 5 = []
  /\ retrieve_context unit_embed first_coordinate_metric small_store
       (lit "grounding") (Some (lit "Solar")) 5 = []
  /\ search_knowledge_base unit_embed first_coordinate_metric small_store
       (lit "grounding") (Some (lit "Solar")) 5 = [].
Proof.
  apply unknown_filter_finds_nothing; vm_compute; discriminate.
Defined.

Lemma spec_hits_unreachable (metric : Embedding -> Embedding -> Q) (e : Embedding) (k : Z)
    (named : str * Collection) :
  available (snd named) = false -> spec_hits metric e k named = [].
Proof. intros H. unfold spec_hits, coll_count. rewrite H. reflexivity. Qed.

Lemma spec_keyword_hits_unreachable (keywords : list str) (named : str * Collection) :
  available (snd named) = false -> spec_keyword_hits keywords named = [].
Proof. intros H. unfold spec_keyword_hits, coll_get. rewrite H. reflexivity. Qed.

(** X11. A collection that cannot be reached is left out of the merge and
    does not disturb the other: when the NEC collection is unreachable, an
    unfiltered semantic or keyword search returns what the search filtered
    to the company corpus returns, and the same with the two corpora
    exchanged. *)
Theorem unreachable_collection_is_left_out :
  forall (embed_content : EmbedService) (metric : Embedding -> Embedding -> Q)
    (st : Store) (query : str) (k : Z),
    (available (nec_collection st) = false ->
     search_documents embed_content metric st query None k
     = search_documents embed_content metric st query (Some (lit "wattmonk")) k
     /\ keyword_search st query None k
        = keyword_search st query (Some (lit "wattmonk")) k)
    /\ (available (wattmonk_collection st) = false ->
        search_documents embed_content metric st query None k
        = search_documents embed_content metric st query (Some (lit "nec")) k
        /\ keyword_search st query None k
           = keyword_search st query (Some (lit "nec")) k).
Proof.
  intros embed_content metric st query k.
  assert (Hnone : collections_to_search st None
                  = [(lit "nec", nec_collection st); (lit "wattmonk", wattmonk_collection st)])
    by reflexivity.
  assert (Hwatt : collections_to_search st (Some (lit "wattmonk"))
                  = [(lit "wattmonk", wattmonk_collection st)]) by reflexivity.
  assert (Hnec : collections_to_search st (Some (lit "nec"))
                 = [(lit "nec", nec_collection st)]) by reflexivity.
  split; intros Hdown; split.
  - unfold search_documents.
    destruct (negb (truthy (generate_embeddings embed_content query))); [reflexivity |].
    rewrite !search_loop_exec, Hnone, Hwatt. cbn [flat_map app].
    rewrite spec_hits_unreachable by exact Hdown. reflexivity.
  - unfold keyword_search. rewrite !keyword_results_eq, Hnone, Hwatt. cbn [flat_map app].
    rewrite spec_keyword_hits_unreachable by exact Hdown. reflexivity.
  - unfold search_documents.
    destruct (negb (truthy (generate_embeddings embed_content query))); [reflexivity |].
    rewrite !search_loop_exec, Hnone, Hnec. cbn [flat_map app].
    rewrite (spec_hits_unreachable _ _ _ (lit "wattmonk", wattmonk_collection st))
      by exact Hdown.
    reflexivity.
  - unfold keyword_search. rewrite !keyword_results_eq, Hnone, Hnec. cbn [flat_map app].
    rewrite (spec_keyword_hits_unreachable _ (lit "wattmonk", wattmonk_collection st))
      by exact Hdown.
    reflexivity.
Qed.

Lemma unreachable_collection_is_left_out_witness :
  search_documents unit_embed first_coordinate_metric nec_down_store (lit "zippy") None 5
  = search_documents unit_embed first_coordinate_metric nec_down_store (lit "zippy")
      (Some (lit "wattmonk")) 5
  /\ keyword_search nec_down_store (lit "zippy") None 5
     = keyword_search nec_down_store (lit "zippy") (Some (lit "wattmonk")) 5.
Proof.
  apply (proj1 (unreachable_collection_is_left_out unit_embed first_coordinate_metric
                  nec_down_store (lit "zippy") 5)).
  reflexivity.
Defined.

(** * Further properties of keyword search *)

Lemma pseudo_distance_range (m n : Z) :
  0 < m <= n ->
  (0 <= 1 - inject_Z m / inject_Z n)%Q /\ (1 - inject_Z m / inject_Z n < 1)%Q.
Proof.
  intros Hm. destruct n as [| p | p]; try lia.
  unfold Qle, Qlt, Qminus, Qplus, Qopp, Qdiv, Qmult, Qinv, inject_Z.
  cbn [Qnum Qden Pos.mul]. split; lia.
Qed.

Lemma pseudo_distance_antitone (m1 m2 n : Z) :
  0 < n -> m2 <= m1 ->
  (1 - inject_Z m1 / inject_Z n <= 1 - inject_Z m2 / inject_Z n)%Q.
Proof.
  intros Hn Hm. destruct n as [| p | p]; try lia.
  unfold Qle, Qminus, Qplus, Qopp, Qdiv, Qmult, Qinv, inject_Z.
  cbn [Qnum Qden Pos.mul]. nia.
Qed.

Lemma Sorted_impl_forall {A : Type} (P : A -> Prop) (R R' : A -> A -> Prop) (l : list A) :
  Forall P l ->
  (forall a b, P a -> P b -> R a b -> R' a b) ->
  Sorted R l -> Sorted R' l.
Proof.
  intros HP Himpl Hs. induction Hs as [| x l Hl IH Hhd]; [constructor |].
  inversion HP as [| ? ? Hx HPl]; subst.
  constructor; [apply IH; exact HPl |].
  destruct Hhd as [| y l Hxy]; constructor.
  inversion HPl; subst. apply Himpl; assumption.
Qed.

(** What every result of a keyword search looks like. *)
Lemma keyword_result_shape (st : Store) (query : str) (document_type : option str)
    (r : SearchResult) :
  In r (keyword_results st query document_type) ->
  0 < matches_of r <= len (spec_keywords query)
  /\ keyword_matches r = Some (matches_of r)
  /\ distance r = (1 - inject_Z (matches_of r) / inject_Z (len (spec_keywords query)))%Q.
Proof.
  rewrite keyword_results_eq. intros Hin.
  apply in_flat_map in Hin. destruct Hin as [named [_ Hin]].
  apply spec_keyword_hits_in in Hin. destruct Hin as [rec [_ Hin]].
  apply spec_keyword_hit_in in Hin. destruct Hin as [Hm [_ [_ [Hk Hd]]]].
  pose proof (spec_matches_le (spec_keywords query) (rec_document rec)) as Hle.
  unfold matches_of. rewrite Hk. split; [lia |]. split; [reflexivity | exact Hd].
Qed.

Lemma keyword_search_in_results (st : Store) (query : str) (document_type : option str)
    (k : Z) (r : SearchResult) :
  In r (keyword_search st query document_type k) ->
  In r (keyword_results st query document_type).
Proof.
  unfold keyword_search. intros Hin.
  apply in_slice_from_zero, sort_by_in in Hin. exact Hin.
Qed.

(** X12. Every result of [keyword_search] records between 1 and the number
    of keywords matches, and its pseudo-distance lies in the interval from 0
    (included) to 1 (excluded). The results are also in ascending order of
    pseudo-distance alone, for every result count: more matches always
    means a smaller pseudo-distance, so the two sort keys never disagree. *)
Theorem keyword_results_are_on_the_distance_scale :
  forall (st : Store) (query : str) (document_type : option str) (k : Z),
    (forall r,
        In r (keyword_search st query document_type k) ->
        1 <= matches_of r <= len (spec_keywords query)
        /\ keyword_matches r = Some (matches_of r)
        /\ (0 <= distance r)%Q /\ (distance r < 1)%Q)
    /\ Sorted by_distance (keyword_search st query document_type k).
Proof.
  intros st query document_type k. split.
  - intros r Hin. apply keyword_search_in_results, keyword_result_shape in Hin.
    destruct Hin as [Hm [Hk Hd]].
    split; [lia |]. split; [exact Hk |]. rewrite Hd.
    apply pseudo_distance_range. exact Hm.
  - unfold keyword_search. rewrite slice_from_zero. apply Sorted_firstn.
    apply Sorted_impl_forall
      with (P := fun r => In r (keyword_results st query document_type))
           (R := fun a b => keyword_leb a b = true).
    + apply Forall_forall. intros r Hin. apply sort_by_in in Hin. exact Hin.
    + intros a b Ha Hb Hab.
      apply keyword_result_shape in Ha, Hb.
      destruct Ha as [Ha1 [_ Ha2]]. destruct Hb as [Hb1 [_ Hb2]].
      apply keyword_leb_order in Hab. unfold by_distance.
      destruct Hab as [Hlt | [_ Hle]]; [| exact Hle].
      rewrite Ha2, Hb2. apply pseudo_distance_antitone; lia.
    + apply sort_by_sorted. apply keyword_leb_total.
Qed.

Lemma keyword_results_are_on_the_distance_scale_witness :
  exists r,
    In r (keyword_search small_store (lit "zippy tool wiring") None 3)
    /\ 1 <= matches_of r <= len (spec_keywords (lit "zippy tool wiring"))
    /\ keyword_matches r = Some (matches_of r)
    /\ (0 <= distance r)%Q /\ (distance r < 1)%Q.
Proof.
  eexists. split; [vm_compute; left; reflexivity |].
  apply (proj1 (keyword_results_are_on_the_distance_scale small_store
                  (lit "zippy tool wiring") None 3)).
  vm_compute. left. reflexivity.
Defined.

(** * Letter case *)

Lemma lower_char_idempotent (c : ascii) : lower_char (lower_char c) = lower_char c.
Proof.
  destruct c as [b0 b1 b2 b3 b4 b5 b6 b7].
  destruct b0, b1, b2, b3, b4, b5, b6, b7; reflexivity.
Qed.

Lemma lower_idempotent (s : str) : lower (lower s) = lower s.
Proof.
  unfold lower. rewrite map_map. apply map_ext. apply lower_char_idempotent.
Qed.

Lemma collections_to_search_lower (st : Store) (filter : str) :
  collections_to_search st (Some (lower filter)) = collections_to_search st (Some filter).
Proof. unfold collections_to_search. rewrite lower_idempotent. reflexivity. Qed.

(** X13. Letter case does not matter where the source lower-cases: a query
    and its lower-cased form get the same intent and the same keyword search
    results, and a corpus filter and its lower-cased form select the same
    collections for semantic search, keyword search and retrieval. *)
Theorem letter_case_is_ignored :
  forall (query filter : str),
    classify_intent (lower query) = classify_intent query
    /\ (forall (st : Store) (document_type : option str) (k : Z),
          keyword_search st (lower query) document_type k
          = keyword_search st query document_type k)
    /\ (forall (embed_content : EmbedService) (metric : Embedding -> Embedding -> Q)
          (st : Store) (k : Z),
          search_documents embed_content metric st query (Some (lower filter)) k
          = search_documents embed_content metric st query (Some filter) k
          /\ keyword_search st query (Some (lower filter)) k
             = keyword_search st query (Some filter) k
          /\ retrieve_context embed_content metric st query (Some (lower filter)) k
             = retrieve_context embed_content metric st query (Some filter) k).
Proof.
  intros query filter. split; [| split].
  - unfold classify_intent. rewrite lower_idempotent. reflexivity.
  - intros st document_type k. unfold keyword_search, keyword_results.
    rewrite lower_idempotent. reflexivity.
  - intros embed_content metric st k.
    assert (Hsem : search_documents embed_content metric st query (Some (lower filter)) k
                   = search_documents embed_content metric st query (Some filter) k).
    { unfold search_documents. rewrite collections_to_search_lower. reflexivity. }
    assert (Hkw : keyword_search st query (Some (lower filter)) k
                  = keyword_search st query (Some filter) k).
    { unfold keyword_search, keyword_results. rewrite collections_to_search_lower.
      reflexivity. }
    split; [exact Hsem |]. split; [exact Hkw |].
    unfold retrieve_context. rewrite Hsem, Hkw. reflexivity.
Qed.

(** * Further properties of the intent classifier *)

Lemma score_le (keywords : list str) (query_lower : str) :
  score keywords query_lower <= len keywords.
Proof.
  rewrite score_eq. unfold len.
  pose proof (filter_length_le (fun keyword => contains keyword query_lower) keywords).
  lia.
Qed.

(** X14. [classify_intent] has three outcomes only: the general intent with
    confidence 0 and no corpus filter; the electrical-code intent with a
    confidence from 1 to 9 and the filter [nec]; or the company intent with
    a confidence from 1 to 12 and the filter [wattmonk]. *)
Theorem classify_intent_outcomes :
  forall query : str,
    classify_intent query = mkIntent (lit "general") 0 None
    \/ (exists c, 1 <= c <= 9
                  /\ classify_intent query = mkIntent (lit "nec") c (Some (lit "nec")))
    \/ (exists c, 1 <= c <= 12
                  /\ classify_intent query
                     = mkIntent (lit "wattmonk") c (Some (lit "wattmonk"))).
Proof.
  intros query. unfold classify_intent.
  pose proof (score_le nec_keywords (lower query)) as Hn.
  pose proof (score_le wattmonk_keywords (lower query)) as Hw.
  change (len nec_keywords) with 9 in Hn. change (len wattmonk_keywords) with 12 in Hw.
  set (n := score nec_keywords (lower query)) in *.
  set (w := score wattmonk_keywords (lower query)) in *.
  destruct ((n >? w) && (n >? 0)) eqn:E1.
  { apply andb_true_iff in E1. destruct E1 as [_ E1]. apply gtb_true_inv in E1.
    right. left. exists n. split; [lia | reflexivity]. }
  destruct ((w >? n) && (w >? 0)) eqn:E2.
  { apply andb_true_iff in E2. destruct E2 as [_ E2]. apply gtb_true_inv in E2.
    right. right. exists w. split; [lia | reflexivity]. }
  destruct (contains (lit "nec") (lower query) || contains (lit "electrical") (lower query)).
  { right. left. exists 1. split; [lia | reflexivity]. }
  destruct (contains (lit "wattmonk") (lower query)
            || contains (lit "company") (lower query)).
  { right. right. exists 1. split; [lia | reflexivity]. }
  left. reflexivity.
Qed.

(** * Conversation history *)

Lemma slice_last {A : Type} (l : list A) (n : Z) :
  0 < n -> slice l (- n) (len l) = skipn (Z.to_nat (len l - n)) l.
Proof.
  intros Hn. unfold slice, norm_index.
  pose proof (len_nonneg l) as Hl.
  replace (- n <? 0) with true by (symmetry; apply Z.ltb_lt; lia).
  replace (len l <? 0) with false by (symmetry; apply Z.ltb_ge; lia).
  rewrite Z.min_id.
  destruct (Z.le_gt_cases n (len l)) as [Hle | Hgt].
  - rewrite Z.max_r by lia. replace (- n + len l) with (len l - n) by lia.
    apply firstn_all2. rewrite length_skipn. unfold len in *. lia.
  - rewrite Z.max_l by lia.
    replace (Z.to_nat (len l - n)) with 0%nat by lia.
    cbn [Z.to_nat skipn]. apply firstn_all2. unfold len. lia.
Qed.

(** X15. [get_conversation_history] returns the end of the history: the
    last [limit] entries when [limit] is positive (all of them when there
    are fewer), and the whole history when [limit] is zero or negative. So
    it returns the empty list for an empty history only. *)
Theorem get_conversation_history_returns_latest :
  forall (A : Type) (history : list A) (limit : Z),
    (exists older, history = older ++ get_conversation_history history limit)
    /\ len (get_conversation_history history limit)
       = (if limit >? 0 then Z.min limit (len history) else len history)
    /\ (get_conversation_history history limit = [] <-> history = []).
Proof.
  intros A history limit. unfold get_conversation_history.
  pose proof (len_nonneg history) as Hl.
  destruct (limit >? 0) eqn:E.
  - apply gtb_true_inv in E. rewrite slice_last by lia.
    assert (Hlen : len (skipn (Z.to_nat (len history - limit)) history)
                   = Z.min limit (len history)).
    { unfold len in *. rewrite length_skipn. lia. }
    split; [| split].
    + exists (firstn (Z.to_nat (len history - limit)) history).
      symmetry. apply firstn_skipn.
    + exact Hlen.
    + split.
      * intros H. rewrite H in Hlen. unfold len in Hlen. cbn [List.length] in Hlen.
        destruct history as [| x history]; [reflexivity |].
        cbn [List.length] in Hlen. lia.
      * intros ->. apply skipn_nil.
  - split; [exists []; reflexivity |]. split; [reflexivity | tauto].
Qed.

(** * The nearest records *)

Lemma Qle_bool_trans (a b c : Q) :
  Qle_bool a b = true -> Qle_bool b c = true -> Qle_bool a c = true.
Proof.
  rewrite !Qle_bool_iff. apply Qle_trans.
Qed.

Section Nearest.

Context {A : Type} (leb : A -> A -> bool).

Hypothesis leb_total : forall a b, leb a b = true \/ leb b a = true.
Hypothesis leb_trans : forall a b c, leb a b = true -> leb b c = true -> leb a c = true.

Lemma sort_by_strongly_sorted (l : list A) :
  StronglySorted (fun a b => leb a b = true) (sort_by leb l).
Proof.
  apply Sorted_StronglySorted.
  - intros a b c. apply leb_trans.
  - apply sort_by_sorted. exact leb_total.
Qed.

Lemma StronglySorted_split (R : A -> A -> Prop) (n : nat) (l : list A) (a b : A) :
  StronglySorted R l -> In a (firstn n l) -> In b (skipn n l) -> R a b.
Proof.
  revert n. induction l as [| x l IH]; intros n Hs Ha Hb.
  - rewrite firstn_nil in Ha. destruct Ha.
  - destruct n as [| n]; [destruct Ha |].
    cbn [firstn skipn] in Ha, Hb.
    inversion Hs as [| ? ? Hl Hall]; subst.
    destruct Ha as [-> | Ha].
    + rewrite Forall_forall in Hall. apply Hall.
      rewrite <- (firstn_skipn n l). apply in_or_app. right. exact Hb.
    + apply (IH n); assumption.
Qed.

Lemma in_firstn_or_skipn (n : nat) (l : list A) (a : A) :
  In a l -> In a (firstn n l) \/ In a (skipn n l).
Proof.
  intros H. rewrite <- (firstn_skipn n l) in H. apply in_app_or. exact H.
Qed.

(** In a sorted list, when at least [n] elements lie below a bound, the
    first [n] elements do. *)
Lemma firstn_all_below (below : A -> bool) (n : nat) (l : list A) :
  (forall a b, leb a b = true -> below b = true -> below a = true) ->
  StronglySorted (fun a b => leb a b = true) l ->
  (n <= List.length (filter below l))%nat ->
  forall a, In a (firstn n l) -> below a = true.
Proof.
  intros Hdown. revert n. induction l as [| x l IH]; intros n Hs Hn a Ha.
  - rewrite firstn_nil in Ha. destruct Ha.
  - destruct n as [| n]; [destruct Ha |].
    inversion Hs as [| ? ? Hl Hall]; subst.
    cbn [filter] in Hn. cbn [firstn] in Ha.
    destruct (below x) eqn:Ex.
    + cbn [List.length] in Hn.
      destruct Ha as [<- | Ha]; [exact Ex |].
      apply (IH n); [exact Hl | lia | exact Ha].
    + exfalso.
      assert (Hnone : filter below l = []).
      { apply filter_none. intros y Hy.
        rewrite Forall_forall in Hall. specialize (Hall y Hy).
        destruct (below y) eqn:Ey; [| reflexivity].
        rewrite (Hdown x y Hall Ey) in Ex. discriminate Ex. }
      rewrite Hnone in Hn. cbn [List.length] in Hn. lia.
Qed.

End Nearest.

Lemma filter_length_perm {A : Type} (p : A -> bool) (l l' : list A) :
  Permutation l l' -> List.length (filter p l) = List.length (filter p l').
Proof.
  intros H. induction H as [| x l l' _ IH | x y l | l l' l'' _ IH1 _ IH2].
  - reflexivity.
  - cbn [filter]. destruct (p x); cbn [List.length]; congruence.
  - cbn [filter]. destruct (p x), (p y); reflexivity.
  - congruence.
Qed.

Lemma filter_length_flat_map {A B : Type} (p : B -> bool) (f : A -> list B)
    (l : list A) (x : A) :
  In x l ->
  (List.length (filter p (f x)) <= List.length (filter p (flat_map f l)))%nat.
Proof.
  induction l as [| y l IH]; intros Hin; [destruct Hin |].
  cbn [flat_map]. rewrite filter_app, length_app.
  destruct Hin as [-> | Hin]; [lia |].
  specialize (IH Hin). lia.
Qed.

Lemma filter_all {A : Type} (p : A -> bool) (l : list A) :
  (forall x, In x l -> p x = true) -> filter p l = l.
Proof.
  induction l as [| x l IH]; intros H; [reflexivity |].
  cbn [filter]. rewrite (H x (or_introl eq_refl)).
  f_equal. apply IH. intros y Hy. apply H. right. exact Hy.
Qed.

(** X16. [search_documents] returns the nearest records of all the searched
    collections together, although it asks each collection for its own
    nearest ones: a record of a searched collection that answers is either
    among the results, or at least as far from the query as every result. *)
Theorem search_documents_returns_the_nearest :
  forall (embed_content : EmbedService) (metric : Embedding -> Embedding -> Q)
    (st : Store) (query : str) (document_type : option str) (k : Z)
    (named : str * Collection) (rec : StoredRecord),
    In named (collections_to_search st document_type) ->
    available (snd named) = true ->
    In rec (records (snd named)) ->
    let e := generate_embeddings embed_content query in
    let results := search_documents embed_content metric st query document_type k in
    In (tag_hit (fst named) (rec, metric e (rec_embedding rec))) results
    \/ (forall r, In r results -> (distance r <= metric e (rec_embedding rec))%Q).
Proof.
  intros embed_content metric st query document_type k [name c] rec Hsel Hav Hrec e results.
  cbn [fst snd] in *.
  destruct e as [| x0 e0] eqn:He.
  { right. subst results. rewrite search_documents_no_embedding by exact He.
    intros r []. }
  rewrite <- He. subst results.
  rewrite search_documents_eq by (fold e; rewrite He; discriminate).
  fold e.
  assert (Hx : e = x0 :: e0) by exact He. clear He.
  set (t := metric e (rec_embedding rec)).
  set (S0 := sort_by hit_leb (map (fun r => (r, metric e (rec_embedding r))) (records c))).
  set (m := Z.to_nat (Z.min k (len (records c)))).
  assert (Hhits : spec_hits metric e k (name, c) = map (tag_hit name) (firstn m S0)).
  { unfold spec_hits, coll_count, coll_query. cbn [fst snd]. rewrite Hav.
    destruct (len (records c) =? 0) eqn:E; [| reflexivity].
    apply Z.eqb_eq in E. destruct (records c); [destruct Hrec |].
    unfold len in E. cbn [List.length] in E. lia. }
  set (L := flat_map (spec_hits metric e k) (collections_to_search st document_type)).
  assert (HS0 : StronglySorted (fun a b => hit_leb a b = true) S0).
  { apply sort_by_strongly_sorted.
    - intros a b. apply Qle_bool_total.
    - intros a b c0. apply Qle_bool_trans. }
  assert (HSL : StronglySorted (fun a b => distance_leb a b = true) (sort_by distance_leb L)).
  { apply sort_by_strongly_sorted.
    - intros a b. apply Qle_bool_total.
    - intros a b c0. apply Qle_bool_trans. }
  assert (Hin0 : In (rec, t) S0).
  { apply sort_by_in. apply (in_map (fun r => (r, metric e (rec_embedding r)))). exact Hrec. }
  destruct (in_firstn_or_skipn m S0 (rec, t) Hin0) as [Hfst | Hskp].
  - (* the record is one of the hits of its collection *)
    assert (HinL : In (tag_hit name (rec, t)) (sort_by distance_leb L)).
    { apply sort_by_in. apply in_flat_map. exists (name, c). split; [exact Hsel |].
      rewrite Hhits. apply in_map. exact Hfst. }
    destruct (in_firstn_or_skipn (Z.to_nat k) _ _ HinL) as [H1 | H2]; [left; exact H1 |].
    right. intros r Hr.
    apply Qle_bool_iff.
    exact (StronglySorted_split (fun a b => distance_leb a b = true) (Z.to_nat k) _ r
             (tag_hit name (rec, t)) HSL Hr H2).
  - (* the collection has [k] hits that are nearer *)
    right.
    assert (Hlen0 : List.length S0 = List.length (records c)).
    { unfold S0. rewrite sort_by_length, length_map. reflexivity. }
    assert (Hm : (m < List.length S0)%nat).
    { destruct (Nat.lt_ge_cases m (List.length S0)) as [H | H]; [exact H |].
      rewrite skipn_all2 in Hskp by exact H. destruct Hskp. }
    assert (Hmk : m = Z.to_nat k).
    { unfold m in *. unfold len in *. lia. }
    assert (Hnear : forall h, In h (firstn m S0) -> within t (tag_hit name h) = true).
    { intros h Hh.
      exact (StronglySorted_split (fun a b => hit_leb a b = true) m S0 h (rec, t)
               HS0 Hh Hskp). }
    assert (Hcount : (Z.to_nat k <= List.length (filter (within t) (sort_by distance_leb L)))%nat).
    { rewrite (filter_length_perm (within t) _ _ (sort_by_perm distance_leb L)).
      apply Nat.le_trans
        with (m := List.length (filter (within t) (spec_hits metric e k (name, c)))).
      - rewrite Hhits, filter_all.
        + rewrite length_map, length_firstn. lia.
        + intros r Hr. apply in_map_iff in Hr. destruct Hr as (h & <- & Hh).
          apply Hnear. exact Hh.
      - apply filter_length_flat_map. exact Hsel. }
    intros r Hr. apply Qle_bool_iff.
    apply (firstn_all_below distance_leb (within t) (Z.to_nat k) (sort_by distance_leb L)).
    + intros a b Hab Hb. unfold within, distance_leb in *.
      apply (Qle_bool_trans _ _ _ Hab Hb).
    + exact HSL.
    + exact Hcount.
    + exact Hr.
Qed.

Lemma search_documents_returns_the_nearest_witness :
  In (tag_hit (lit "nec") (plain_record "r3" "Zippy the design tool" 3%Q, 2%Q))
     (search_documents unit_embed first_coordinate_metric small_store
        (lit "grounding") None 2)
  /\ (forall r,
        In r (search_documents unit_embed first_coordinate_metric small_store
                (lit "grounding") None 2) ->
        (distance r <= 4)%Q).
Proof.
  split.
  - vm_compute. right. left. reflexivity.
  - destruct (search_documents_returns_the_nearest unit_embed first_coordinate_metric
                small_store (lit "grounding") None 2
                (lit "nec", nec_collection small_store)
                (plain_record "r1" "Grounding of circuits" 5%Q)) as [H | H].
    + left. reflexivity.
    + reflexivity.
    + left. reflexivity.
    + exfalso. vm_compute in H. intuition discriminate.
    + exact H.
Defined.

(** * The chunks and the text *)

Lemma len_slice {A : Type} (l : list A) (i j : Z) :
  len (slice l i j) = Z.max 0 (norm_index (len l) j - norm_index (len l) i).
Proof.
  pose proof (norm_index_range (len l) i (len_nonneg l)) as Hi.
  pose proof (norm_index_range (len l) j (len_nonneg l)) as Hj.
  unfold slice. cbv zeta.
  set (i' := norm_index (len l) i) in *. set (j' := norm_index (len l) j) in *.
  unfold len in *. rewrite length_firstn, length_skipn. lia.
Qed.

Lemma piece_of_refl (text : str) : piece_of text text.
Proof. exists [], []. rewrite app_nil_r. reflexivity. Qed.

Lemma piece_of_trans (a b c : str) : piece_of a b -> piece_of b c -> piece_of a c.
Proof.
  intros (p1 & q1 & ->) (p2 & q2 & ->).
  exists (p1 ++ p2), (q2 ++ q1). rewrite <- !app_assoc. reflexivity.
Qed.

Lemma slice_piece (text : str) (i j : Z) : piece_of text (slice text i j).
Proof.
  unfold slice. cbv zeta.
  set (m := Z.to_nat (norm_index (len text) i)).
  set (n := Z.to_nat (norm_index (len text) j - norm_index (len text) i)).
  exists (firstn m text), (skipn n (skipn m text)).
  rewrite firstn_skipn, firstn_skipn. reflexivity.
Qed.

Lemma lstrip_piece (s : str) : piece_of s (lstrip s).
Proof.
  destruct (lstrip_suffix s) as [p Hp]. exists p, []. rewrite app_nil_r. exact Hp.
Qed.

Lemma rstrip_piece (s : str) : piece_of s (rstrip s).
Proof.
  unfold rstrip. destruct (lstrip_suffix (rev s)) as [p Hp].
  exists [], (rev p). cbn [app].
  rewrite <- rev_app_distr, <- Hp, rev_involutive. reflexivity.
Qed.

Lemma strip_piece (s : str) : piece_of s (strip s).
Proof.
  unfold strip. apply piece_of_trans with (b := lstrip s);
    [apply lstrip_piece | apply rstrip_piece].
Qed.

(** The window before snapping holds at most [chunk_size] characters. *)
Lemma window_len (text : str) (chunk_size start : Z) :
  0 <= chunk_size ->
  len (slice text start
         (if start + chunk_size >? len text then len text else start + chunk_size))
  <= chunk_size.
Proof.
  intros Hsize. rewrite len_slice. pose proof (len_nonneg text) as Hl.
  unfold norm_index.
  destruct (start + chunk_size >? len text) eqn:E;
    [apply gtb_true_inv in E | apply gtb_false_inv in E].
  - destruct (len text <? 0) eqn:E1; [apply Z.ltb_lt in E1; lia |].
    destruct (start <? 0) eqn:E2; [apply Z.ltb_lt in E2 | apply Z.ltb_ge in E2]; lia.
  - destruct (start + chunk_size <? 0) eqn:E1;
      [apply Z.ltb_lt in E1 | apply Z.ltb_ge in E1];
      (destruct (start <? 0) eqn:E2; [apply Z.ltb_lt in E2 | apply Z.ltb_ge in E2]); lia.
Qed.

Lemma chunk_window_piece (text : str) (chunk_size start : Z) :
  piece_of text (fst (chunk_window text chunk_size start)).
Proof.
  unfold chunk_window. cbv zeta.
  repeat match goal with
         | |- context [if ?b then _ else _] => destruct b
         end; cbn [fst]; apply slice_piece.
Qed.

Lemma chunk_window_len (text : str) (chunk_size start : Z) :
  0 <= chunk_size ->
  len (fst (chunk_window text chunk_size start)) <= chunk_size.
Proof.
  intros Hsize. unfold chunk_window. cbv zeta.
  pose proof (window_len text chunk_size start Hsize) as Hw.
  set (end_ := if start + chunk_size >? len text then len text else start + chunk_size) in *.
  destruct (end_ <? len text); [| exact Hw].
  set (chunk := slice text start end_) in *.
  pose proof (rfind_range "."%char chunk) as Hp.
  pose proof (rfind_range newline chunk) as Hn.
  set (bp := Z.max (rfind "."%char chunk) (rfind newline chunk)) in *.
  destruct (bp >? start + chunk_size / 2); [| exact Hw].
  cbn [fst]. rewrite len_slice. pose proof (len_nonneg text) as Hl.
  unfold norm_index.
  replace (bp + 1 <? 0) with false by (symmetry; apply Z.ltb_ge; lia).
  destruct (start <? 0) eqn:E2; [apply Z.ltb_lt in E2 | apply Z.ltb_ge in E2]; lia.
Qed.

(** What holds of every stripped window holds of every chunk returned. *)
Lemma chunk_loop_forall (P : str -> Prop) (text : str) (chunk_size overlap max_chunks : Z) :
  (forall start, P (strip (fst (chunk_window text chunk_size start)))) ->
  forall (fuel : nat) (st : chunk_state) (result : list str),
    Forall P (chunks st) ->
    chunk_loop fuel text chunk_size overlap max_chunks st = Some result ->
    Forall P result.
Proof.
  intros HP. induction fuel as [| fuel IH]; intros st result Hst Hrun;
    cbn [chunk_loop] in Hrun.
  - destruct (chunk_cond text max_chunks st); [discriminate Hrun |].
    injection Hrun as <-. exact Hst.
  - destruct (chunk_cond text max_chunks st).
    + apply IH in Hrun; [exact Hrun |].
      unfold chunk_body. specialize (HP (start st)).
      destruct (chunk_window text chunk_size (start st)) as [chunk end_].
      cbn [fst] in HP. cbn [chunks].
      destruct (len (strip chunk) >? 100); [| exact Hst].
      apply Forall_app. split; [exact Hst | constructor; [exact HP | constructor]].
    + injection Hrun as <-. exact Hst.
Qed.

(** X17. For a chunk size that is not negative, every chunk [chunk_text]
    returns is a run of consecutive characters of the text, of more than 100
    and at most [chunk_size] characters. So with a chunk size of 100 or less
    it returns no chunk at all. *)
Theorem chunks_are_pieces_of_the_text :
  forall (fuel : nat) (text : str) (chunk_size overlap max_chunks : Z)
    (result : list str),
    0 <= chunk_size ->
    chunk_text fuel text chunk_size overlap max_chunks = Some result ->
    Forall (fun chunk => piece_of text chunk /\ 100 < len chunk <= chunk_size) result
    /\ (chunk_size <= 100 -> result = []).
Proof.
  intros fuel text chunk_size overlap max_chunks result Hsize Hrun.
  unfold chunk_text in Hrun. cbv zeta in Hrun.
  set (text' := if len text >? 500000 then slice text 0 500000 else text) in *.
  assert (Hpre : piece_of text text').
  { unfold text'. destruct (len text >? 500000);
      [apply slice_piece | apply piece_of_refl]. }
  assert (Hpiece : Forall (fun chunk => piece_of text chunk /\ len chunk <= chunk_size)
                     result).
  { apply (chunk_loop_forall _ text' chunk_size overlap max_chunks) with (fuel := fuel)
                                                                          (st := mkChunkState 0 []);
      [| constructor | exact Hrun].
    intros start0. split.
    - apply piece_of_trans with (b := text'); [exact Hpre |].
      apply piece_of_trans with (b := fst (chunk_window text' chunk_size start0));
        [apply chunk_window_piece | apply strip_piece].
    - pose proof (len_strip_le (fst (chunk_window text' chunk_size start0))) as H1.
      pose proof (chunk_window_len text' chunk_size start0 Hsize) as H2. lia. }
  assert (Hkept : Forall kept_chunk result).
  { apply (chunk_loop_chunks text' chunk_size overlap max_chunks fuel (mkChunkState 0 []));
      [constructor | cbn; lia | exact Hrun]. }
  assert (Hall : Forall (fun chunk => piece_of text chunk /\ 100 < len chunk <= chunk_size)
                   result).
  { rewrite Forall_forall in *. intros chunk Hin.
    destruct (Hpiece chunk Hin) as [H1 H2]. destruct (Hkept chunk Hin) as [H3 _].
    split; [exact H1 | lia]. }
  split; [exact Hall |].
  intros Hsmall. destruct result as [| chunk result]; [reflexivity |].
  inversion Hall as [| ? ? [_ Hlen] _]; subst. lia.
Qed.

Lemma chunks_are_pieces_of_the_text_witness :
  Forall (fun chunk => piece_of long_text chunk /\ 100 < len chunk <= 300) [long_text]
  /\ (300 <= 100 -> [long_text] = []).
Proof.
  apply (chunks_are_pieces_of_the_text 10 long_text 300 0 5 [long_text]).
  - lia.
  - vm_compute. reflexivity.
Defined.

(** X18. Sentence snapping stops once the cursor has moved on: the break
    point is an index into the window, but it is compared with the cursor
    plus half the chunk size, so from the cursor [chunk_size - chunk_size // 2 - 1]
    on (999 with the default chunk size of 2000) no window is snapped, and
    the chunk is cut at [chunk_size] characters or at the end of the text
    whatever periods and line feeds it holds. *)
Theorem later_windows_never_snap :
  forall (text : str) (chunk_size start : Z),
    1 <= chunk_size ->
    0 <= start ->
    chunk_size <= start + chunk_size / 2 + 1 ->
    chunk_window text chunk_size start
    = (slice text start (Z.min (start + chunk_size) (len text)),
       Z.min (start + chunk_size) (len text)).
Proof.
  intros text chunk_size start0 Hsize Hstart Hlate. unfold chunk_window. cbv zeta.
  pose proof (window_len text chunk_size start0 ltac:(lia)) as Hw.
  assert (Hend : (if start0 + chunk_size >? len text then len text
                  else start0 + chunk_size)
                 = Z.min (start0 + chunk_size) (len text)).
  { destruct (start0 + chunk_size >? len text) eqn:E;
      [apply gtb_true_inv in E | apply gtb_false_inv in E]; lia. }
  rewrite Hend in *.
  set (end_ := Z.min (start0 + chunk_size) (len text)) in *.
  destruct (end_ <? len text); [| reflexivity].
  set (chunk := slice text start0 end_) in *.
  pose proof (rfind_range "."%char chunk) as Hp.
  pose proof (rfind_range newline chunk) as Hn.
  rewrite gtb_false by lia. reflexivity.
Qed.

Lemma later_windows_never_snap_witness :
  chunk_window later_text 10 8
  = (slice later_text 8 (Z.min (8 + 10) (len later_text)),
     Z.min (8 + 10) (len later_text)).
Proof.
  apply (later_windows_never_snap later_text 10 8).
  - lia.
  - lia.
  - vm_compute. discriminate.
Defined.

(** * The best keyword matches *)

Lemma keyword_leb_trans (a b c : SearchResult) :
  keyword_leb a b = true -> keyword_leb b c = true -> keyword_leb a c = true.
Proof.
  unfold keyword_leb. intros Hab Hbc.
  apply orb_true_iff in Hab. apply orb_true_iff in Hbc. apply orb_true_iff.
  destruct Hab as [Hab | Hab]; destruct Hbc as [Hbc | Hbc];
    rewrite ?andb_true_iff, ?Z.ltb_lt, ?Z.eqb_eq in *.
  - left. lia.
  - left. lia.
  - left. lia.
  - right. destruct Hab as [H1 H2]. destruct Hbc as [H3 H4].
    split; [lia | exact (Qle_bool_trans _ _ _ H2 H4)].
Qed.

Lemma firstn_nonempty {A : Type} (k : Z) (l : list A) :
  1 <= k -> l <> [] -> firstn (Z.to_nat k) l <> [].
Proof.
  intros Hk Hl. destruct l as [| x l]; [contradiction |].
  destruct (Z.to_nat k) eqn:E; [lia | discriminate].
Qed.

(** X19. [keyword_search] keeps the best matches: for a result count of at
    least 1, a record of a searched collection that answers, in whose text a
    keyword occurs, makes the result not empty, and the record is either
    among the results or has no more matches than every result returned. *)
Theorem keyword_search_keeps_the_best :
  forall (st : Store) (query : str) (document_type : option str) (k : Z)
    (named : str * Collection) (rec : StoredRecord),
    1 <= k ->
    In named (collections_to_search st document_type) ->
    available (snd named) = true ->
    In rec (records (snd named)) ->
    0 < spec_matches (spec_keywords query) (rec_document rec) ->
    keyword_search st query document_type k <> []
    /\ exists hit,
         spec_keyword_hit (spec_keywords query) (fst named) rec = [hit]
         /\ (In hit (keyword_search st query document_type k)
             \/ forall r, In r (keyword_search st query document_type k) ->
                          matches_of hit <= matches_of r).
Proof.
  intros st query document_type k [name c] rec Hk Hsel Hav Hrec Hm. cbn [fst snd] in *.
  rewrite keyword_search_eq by lia.
  set (kws := spec_keywords query) in *.
  set (L := flat_map (spec_keyword_hits kws) (collections_to_search st document_type)).
  assert (Hhit : exists hit, spec_keyword_hit kws name rec = [hit]).
  { unfold spec_keyword_hit. rewrite gtb_true by exact Hm. eexists. reflexivity. }
  destruct Hhit as [hit Hhit].
  assert (HinL : In hit (sort_by keyword_leb L)).
  { apply sort_by_in. apply in_flat_map. exists (name, c). split; [exact Hsel |].
    unfold spec_keyword_hits, coll_get. cbn [fst snd]. rewrite Hav.
    apply in_flat_map. exists rec. split; [exact Hrec |]. rewrite Hhit. left. reflexivity. }
  split.
  - apply firstn_nonempty; [exact Hk |]. intros Hnil. rewrite Hnil in HinL. destruct HinL.
  - exists hit. split; [exact Hhit |].
    destruct (in_firstn_or_skipn (Z.to_nat k) _ _ HinL) as [H1 | H2]; [left; exact H1 |].
    right. intros r Hr.
    assert (Hle : keyword_leb r hit = true).
    { apply (StronglySorted_split (fun a b => keyword_leb a b = true) (Z.to_nat k)
               (sort_by keyword_leb L) r hit); [| exact Hr | exact H2].
      apply sort_by_strongly_sorted; [apply keyword_leb_total | apply keyword_leb_trans]. }
    apply keyword_leb_order in Hle. unfold by_matches_then_distance in Hle. lia.
Qed.

Lemma keyword_search_keeps_the_best_witness :
  keyword_search small_store (lit "zippy tool wiring") None 1 <> []
  /\ exists hit,
       spec_keyword_hit (spec_keywords (lit "zippy tool wiring")) (lit "nec")
         (plain_record "r2" "Wiring and voltage" 1%Q) = [hit]
       /\ (In hit (keyword_search small_store (lit "zippy tool wiring") None 1)
           \/ forall r, In r (keyword_search small_store (lit "zippy tool wiring") None 1) ->
                        matches_of hit <= matches_of r).
Proof.
  apply (keyword_search_keeps_the_best small_store (lit "zippy tool wiring") None 1
           (lit "nec", nec_collection small_store)
           (plain_record "r2" "Wiring and voltage" 1%Q)).
  - lia.
  - left. reflexivity.
  - reflexivity.
  - right. left. reflexivity.
  - vm_compute. reflexivity.
Defined.

(** * From ingestion to search *)

Lemma search_documents_nonempty (embed_content : EmbedService)
    (metric : Embedding -> Embedding -> Q) (st : Store)
    (query : str) (document_type : option str) (k : Z)
    (named : str * Collection) (n : Z) :
  generate_embeddings embed_content query <> [] ->
  1 <= k ->
  In named (collections_to_search st document_type) ->
  coll_count (snd named) = Ok n -> 1 <= n ->
  search_documents embed_content metric st query document_type k <> [].
Proof.
  intros He Hk Hsel Hcount Hn.
  rewrite search_documents_eq by exact He.
  apply firstn_nonempty; [exact Hk |].
  set (e := generate_embeddings embed_content query).
  pose proof (spec_hits_length metric e k named n Hcount ltac:(lia)) as Hlen.
  intros Hnil.
  assert (Hin : forall r, In r (spec_hits metric e k named) ->
                  In r (sort_by distance_leb
                          (flat_map (spec_hits metric e k)
                             (collections_to_search st document_type)))).
  { intros r Hr. apply sort_by_in. apply in_flat_map. exists named. split; assumption. }
  rewrite Hnil in Hin.
  destruct (spec_hits metric e k named) as [| r l]; [cbn in Hlen; lia |].
  exact (Hin r (or_introl eq_refl)).
Qed.

(** X20. What [process_document] has stored can be searched: after a call
    that returned [True], a semantic search over all collections, for a
    query that gets an embedding and a result count of at least 1, returns
    at least one result; so does the search filtered to the label of the
    call when that label is [nec] or [wattmonk] in any letter case. *)
Theorem ingested_document_is_searchable :
  forall (fuel : nat) (fs : FileSystem) (embed_content : EmbedService)
    (metric : Embedding -> Embedding -> Q)
    (file_path document_type : str) (st st' : Store) (query : str) (k : Z),
    process_document fuel fs embed_content file_path document_type st = Some (true, st') ->
    generate_embeddings embed_content query <> [] ->
    1 <= k ->
    search_documents embed_content metric st' query None k <> []
    /\ (lower document_type = lit "nec" \/ lower document_type = lit "wattmonk" ->
        search_documents embed_content metric st' query (Some document_type) k <> []).
Proof.
  intros fuel fs embed_content metric file_path document_type st st' query k Hrun He Hk.
  apply process_document_run in Hrun. destruct Hrun as [visits [_ [Hb Hst]]].
  symmetry in Hb. apply gtb_true_inv in Hb.
  apply ingest_success_has_record in Hb. destruct Hb as [n [Hn Hpos]].
  assert (Htarget : coll_count (target_collection document_type st') = Ok n).
  { rewrite Hst. unfold target_collection at 1.
    destruct (str_eqb (lower document_type) (lit "nec")); exact Hn. }
  clear Hst Hn.
  split.
  - destruct (str_eqb (lower document_type) (lit "nec")) eqn:E.
    + apply (search_documents_nonempty embed_content metric st' query None k
               (lit "nec", nec_collection st') n He Hk); [left; reflexivity | | exact Hpos].
      unfold target_collection in Htarget. rewrite E in Htarget. exact Htarget.
    + apply (search_documents_nonempty embed_content metric st' query None k
               (lit "wattmonk", wattmonk_collection st') n He Hk);
        [right; left; reflexivity | | exact Hpos].
      unfold target_collection in Htarget. rewrite E in Htarget. exact Htarget.
  - intros [Hl | Hl].
    + apply (search_documents_nonempty embed_content metric st' query (Some document_type) k
               (lit "nec", nec_collection st') n He Hk); [| | exact Hpos].
      * unfold collections_to_search. rewrite Hl. left. reflexivity.
      * unfold target_collection in Htarget. rewrite Hl in Htarget. exact Htarget.
    + apply (search_documents_nonempty embed_content metric st' query (Some document_type) k
               (lit "wattmonk", wattmonk_collection st') n He Hk); [| | exact Hpos].
      * unfold collections_to_search. rewrite Hl. left. reflexivity.
      * unfold target_collection in Htarget. rewrite Hl in Htarget. exact Htarget.
Qed.

Lemma ingested_document_is_searchable_witness :
  search_documents unit_embed first_coordinate_metric ingested_store
    (lit "grounding") None 3 <> []
  /\ (lower (lit "nec") = lit "nec" \/ lower (lit "nec") = lit "wattmonk" ->
      search_documents unit_embed first_coordinate_metric ingested_store
        (lit "grounding") (Some (lit "nec")) 3 <> []).
Proof.
  apply (ingested_document_is_searchable 300%nat long_fs unit_embed first_coordinate_metric
           (lit "docs/a.txt") (lit "nec") empty_store ingested_store (lit "grounding") 3).
  - vm_compute. reflexivity.
  - vm_compute. discriminate.
  - lia.
Defined.

(** * The count of sources *)

Lemma startswith_split (s p : str) : startswith s p = true -> exists r, s = p ++ r.
Proof.
  revert s. induction p as [| x p IH]; intros s H.
  - exists s. reflexivity.
  - destruct s as [| y s]; [discriminate H |].
    cbn [startswith] in H. apply andb_true_iff in H. destruct H as [Hxy H].
    apply Ascii.eqb_eq in Hxy. subst y.
    destruct (IH s H) as [r ->]. exists r. reflexivity.
Qed.

Lemma startswith_extend (s p b : str) :
  startswith s p = true -> startswith (s ++ b) p = true.
Proof.
  intros H. apply startswith_split in H. destruct H as [r ->].
  rewrite <- app_assoc. apply startswith_app.
Qed.

Lemma marker_needs_bracket (c : ascii) (s : str) :
  Ascii.eqb c "["%char = false -> startswith (c :: s) source_marker = false.
Proof.
  intros H. unfold source_marker, lit. cbn [list_ascii_of_string startswith].
  rewrite Ascii.eqb_sym, H. reflexivity.
Qed.

Lemma no_bracket_app (a b : str) :
  no_bracket (a ++ b) = no_bracket a && no_bracket b.
Proof. apply forallb_app. Qed.

Lemma occurrences_plain (a b : str) :
  no_bracket a = true ->
  occurrences source_marker (a ++ b) = occurrences source_marker b.
Proof.
  induction a as [| c a IH]; intros H; [reflexivity |].
  cbn [no_bracket forallb] in H. apply andb_true_iff in H. destruct H as [Hc Ha].
  apply negb_true_iff in Hc.
  cbn [app occurrences]. rewrite marker_needs_bracket by exact Hc.
  apply IH. exact Ha.
Qed.

Lemma occurrences_marker (b : str) :
  occurrences source_marker (source_marker ++ b) = S (occurrences source_marker b).
Proof.
  assert (E : source_marker ++ b = "["%char :: (lit "Source" ++ b)) by reflexivity.
  rewrite E at 1. cbn [occurrences]. rewrite <- E, startswith_app.
  rewrite occurrences_plain by reflexivity. reflexivity.
Qed.

Lemma occurrences_app (p a b : str) :
  (occurrences p a + occurrences p b <= occurrences p (a ++ b))%nat.
Proof.
  induction a as [| c a IH]; [cbn; lia |].
  cbn [app occurrences].
  destruct (startswith (c :: a) p) eqn:E.
  - change (c :: a ++ b) with ((c :: a) ++ b).
    rewrite (startswith_extend _ _ b E). lia.
  - destruct (startswith (c :: a ++ b) p); lia.
Qed.

Lemma occurrences_contains (s : str) :
  contains source_marker s = true -> (1 <= occurrences source_marker s)%nat.
Proof.
  induction s as [| c s IH]; intros H; [discriminate H |].
  cbn [contains] in H. cbn [occurrences].
  destruct (startswith (c :: s) source_marker); [lia |].
  cbn [orb] in H. specialize (IH H). lia.
Qed.

(** Splitting on the marker gives one piece more than there are places where
    the marker starts: the marker cannot overlap itself. *)
Lemma split_on_from_length (s : str) :
  forall (k : nat) (cur : str),
    no_bracket (firstn k s) = true ->
    List.length (split_on_from k source_marker cur s)
    = S (occurrences source_marker s).
Proof.
  induction s as [| c s IH]; intros k cur H; [reflexivity |].
  destruct k as [| k].
  - cbn [split_on_from occurrences].
    destruct (startswith (c :: s) source_marker) eqn:E.
    + cbn [List.length]. f_equal.
      change (List.length source_marker - 1)%nat with 6%nat.
      apply IH.
      apply startswith_split in E. destruct E as [r E].
      change (source_marker ++ r) with ("["%char :: (lit "Source" ++ r)) in E.
      injection E as _ ->. reflexivity.
    + apply IH. reflexivity.
  - cbn [firstn no_bracket forallb] in H. apply andb_true_iff in H.
    destruct H as [Hc Hs]. apply negb_true_iff in Hc.
    cbn [split_on_from occurrences]. rewrite marker_needs_bracket by exact Hc.
    apply IH. exact Hs.
Qed.

Lemma sources_used_eq (context : str) :
  (if truthy context then len (split_on source_marker context) - 1 else 0)
  = Z.of_nat (occurrences source_marker context).
Proof.
  destruct context as [| c context]; [reflexivity |].
  cbn [truthy]. unfold split_on, len.
  rewrite split_on_from_length by reflexivity. lia.
Qed.

Lemma uint_plain (d : Decimal.uint) :
  no_bracket (list_ascii_of_string (NilEmpty.string_of_uint d)) = true.
Proof.
  induction d; cbn [NilEmpty.string_of_uint list_ascii_of_string no_bracket forallb];
    try reflexivity; exact IHd.
Qed.

Lemma str_of_int_plain (i : Z) : no_bracket (str_of_int i) = true.
Proof.
  unfold str_of_int. destruct (Z.to_int i) as [d | d];
    cbn [NilEmpty.string_of_int list_ascii_of_string no_bracket forallb].
  - apply uint_plain.
  - apply uint_plain.
Qed.

Section SourceCount.

Variable upper : str -> str.

Lemma format_source_shape (ir : Z * SearchResult) (rest : str) :
  format_source upper ir ++ rest
  = source_marker
      ++ (lit " " ++ str_of_int (fst ir) ++ lit ": " ++ md_source (metadata (snd ir))
            ++ lit " (" ++ upper (md_document_type (metadata (snd ir))) ++ lit ")]"
            ++ [newline])
      ++ content (snd ir) ++ [newline; newline] ++ rest.
Proof.
  unfold format_source. cbv zeta. rewrite <- !app_assoc. reflexivity.
Qed.

Lemma format_source_count (ir : Z * SearchResult) (rest : str) :
  (1 + occurrences source_marker (content (snd ir)) + occurrences source_marker rest
   <= occurrences source_marker (format_source upper ir ++ rest))%nat.
Proof.
  rewrite format_source_shape, occurrences_marker.
  match goal with
  | |- (_ <= S (occurrences _ (?x ++ ?c ++ ?y ++ ?r)))%nat =>
      pose proof (occurrences_app source_marker x (c ++ y ++ r)) as H1;
      pose proof (occurrences_app source_marker c (y ++ r)) as H2;
      pose proof (occurrences_plain y r eq_refl) as H3
  end.
  lia.
Qed.

Lemma format_source_plain (ir : Z * SearchResult) (rest : str) :
  plain_result upper (snd ir) ->
  occurrences source_marker (format_source upper ir ++ rest)
  = S (occurrences source_marker rest).
Proof.
  intros (Hsrc & Hup & Hcontent).
  rewrite format_source_shape, occurrences_marker. f_equal.
  rewrite occurrences_plain.
  - rewrite occurrences_plain by exact Hcontent.
    apply occurrences_plain. reflexivity.
  - rewrite !no_bracket_app, str_of_int_plain, Hsrc, Hup. reflexivity.
Qed.

Lemma context_count_ge (l : list (Z * SearchResult)) :
  (List.length l
   + list_sum (map (fun ir => occurrences source_marker (content (snd ir))) l)
   <= occurrences source_marker (flat_map (format_source upper) l))%nat.
Proof.
  induction l as [| ir l IH]; [cbn; lia |].
  cbn [flat_map List.length map]. unfold list_sum in *. cbn [fold_right].
  pose proof (format_source_count ir (flat_map (format_source upper) l)) as H.
  lia.
Qed.

Lemma context_count_plain (l : list (Z * SearchResult)) :
  Forall (fun ir => plain_result upper (snd ir)) l ->
  occurrences source_marker (flat_map (format_source upper) l) = List.length l.
Proof.
  induction 1 as [| ir l Hir _ IH]; [reflexivity |].
  cbn [flat_map List.length]. rewrite format_source_plain by exact Hir.
  f_equal. exact IH.
Qed.

Lemma format_context_eq (results : list SearchResult) :
  results <> [] ->
  format_context upper results
  = (lit "Relevant information from knowledge base:" ++ [newline; newline])
      ++ flat_map (format_source upper) (enumerate_from 1 results).
Proof.
  intros Hne. unfold format_context.
  destruct results as [| r results]; [contradiction |].
  cbn [truthy negb]. apply fold_left_append.
Qed.

Lemma format_context_count (results : list SearchResult) :
  occurrences source_marker (format_context upper results)
  = occurrences source_marker (flat_map (format_source upper) (enumerate_from 1 results)).
Proof.
  destruct results as [| r results]; [reflexivity |].
  rewrite format_context_eq by discriminate.
  apply occurrences_plain. reflexivity.
Qed.

End SourceCount.

Lemma enumerate_from_length {A : Type} (i : Z) (l : list A) :
  List.length (enumerate_from i l) = List.length l.
Proof.
  revert i. induction l as [| x l IH]; intros i; [reflexivity |].
  cbn [enumerate_from List.length]. rewrite IH. reflexivity.
Qed.

Lemma enumerate_from_snd {A : Type} (i : Z) (l : list A) :
  map snd (enumerate_from i l) = l.
Proof.
  revert i. induction l as [| x l IH]; intros i; [reflexivity |].
  cbn [enumerate_from map snd]. rewrite IH. reflexivity.
Qed.

Lemma list_sum_positive (l : list nat) (n : nat) :
  In n l -> (n <= list_sum l)%nat.
Proof.
  induction l as [| x l IH]; intros Hin; [destruct Hin |].
  unfold list_sum in *. cbn [fold_right].
  destruct Hin as [-> | Hin]; [lia | specialize (IH Hin); lia].
Qed.

(** X21. When the language model answers, [generate_response] on a context
    made by [format_context] reports that there is context exactly when
    there are results, and counts the places where the text [[Source] starts
    in the context, not the results. The count is never below the number of
    results; it is that number when no source name, label or text holds an
    opening square bracket; and it is above that number as soon as the text
    of one result holds [[Source] itself. *)
Theorem sources_used_counts_markers :
  forall (upper : str -> str) (generate_content : str -> Generation)
    (query : str) (results : list SearchResult) (intent_info : option Intent)
    (text : str),
    generate_content (build_prompt upper query (format_context upper results) intent_info)
    = Generated text ->
    let answer :=
      generate_response upper generate_content query (format_context upper results)
        intent_info in
    response answer = text
    /\ has_context answer = truthy results
    /\ sources_used answer
       = Z.of_nat (occurrences (lit "[Source") (format_context upper results))
    /\ len results <= sources_used answer
    /\ (Forall (plain_result upper) results -> sources_used answer = len results)
    /\ (forall r,
          In r results -> contains (lit "[Source") (content r) = true ->
          len results < sources_used answer).
Proof.
  intros upper generate_content query results intent_info text Hgen answer.
  subst answer. unfold generate_response. rewrite Hgen.
  cbn [response has_context sources_used].
  change (lit "[Source") with source_marker.
  rewrite sources_used_eq, format_context_count.
  pose proof (context_count_ge upper (enumerate_from 1 results)) as Hge.
  rewrite enumerate_from_length in Hge.
  split; [reflexivity |]. split.
  { destruct results as [| r results]; [reflexivity |].
    rewrite format_context_eq by discriminate. reflexivity. }
  split; [reflexivity |]. split; [unfold len; lia |]. split.
  - intros Hplain. rewrite context_count_plain.
    + rewrite enumerate_from_length. reflexivity.
    + rewrite Forall_forall in *. intros [i r] Hin.
      apply in_enumerate_from in Hin. apply Hplain, Hin.
  - intros r Hin Hquote. apply occurrences_contains in Hquote.
    assert (Hsum : (occurrences source_marker (content r)
                    <= list_sum (map (fun ir => occurrences source_marker (content (snd ir)))
                                   (enumerate_from 1 results)))%nat).
    { apply list_sum_positive.
      rewrite <- (enumerate_from_snd 1 results) in Hin.
      apply in_map_iff in Hin. destruct Hin as (ir & <- & Hin).
      apply (in_map (fun ir => occurrences source_marker (content (snd ir)))).
      exact Hin. }
    unfold len. lia.
Qed.

Lemma sources_used_counts_markers_witness :
  sources_used
    (generate_response ascii_upper echo_model (lit "What about wiring?")
       (format_context ascii_upper quoting_results) (Some (classify_intent (lit "wiring"))))
  = 3
  /\ len quoting_results = 2.
Proof.
  split; [| reflexivity].
  destruct (sources_used_counts_markers ascii_upper echo_model (lit "What about wiring?")
              quoting_results (Some (classify_intent (lit "wiring")))
              (build_prompt ascii_upper (lit "What about wiring?")
                 (format_context ascii_upper quoting_results)
                 (Some (classify_intent (lit "wiring")))) eq_refl)
    as (_ & _ & Hcount & _).
  rewrite Hcount. vm_compute. reflexivity.
Defined.
